(** * TwinCAT project parser: a shallow embedding of
      [scripts/wiki_generator/twincat_parser.py]

    The parser recovers documentation records from TwinCAT3 source files
    with regular expressions.  This development embeds

    - the fragment of Python's [re] that the parser's patterns use, as a
      backtracking matcher in continuation-passing style;
    - the string methods the parser calls ([strip], [lower], [upper],
      [startswith], [split], [replace]);
    - the fragment of [xml.etree.ElementTree] it calls ([find], [findall],
      [get], [text]) over an element tree;
    - the three extraction functions, the three per-file parsers, the three
      scanning loops and the manifest reader;
    - what [wiki_generator.py] computes from the parsed project: the
      statistics, the lists of the interface page and the file names of
      the pages,

    and then states and proves properties of them.

    Text is a [string] of 8-bit characters read as the code points
    U+0000..U+00FF; the character classes below are Python's on that
    range.  The disk is what [glob] and [ET.parse] make of it: a list of
    files, each with its relative path and the outcome of parsing it.  The
    logger is a list of records, each a level and an event. *)

From Stdlib Require Import String Ascii List Bool Arith Lia.
From Stdlib Require Import Sorted Permutation.
From Stdlib Require OrderedTypeEx.
Import ListNotations.

Open Scope string_scope.

(** ** Characters *)

Module Char.

Local Open Scope nat_scope.

Definition code (a : ascii) : nat := nat_of_ascii a.

Definition between (lo hi : nat) (a : ascii) : bool :=
  (lo <=? code a) && (code a <=? hi).

Definition LF : ascii := ascii_of_nat 10.

(** [str.isspace] and the class [\s] of a [str] pattern. *)
Definition isspace (a : ascii) : bool :=
  between 9 13 a || between 28 32 a || (code a =? 133) || (code a =? 160).

(** The class [\w] of a [str] pattern: alphanumeric or underscore. *)
Definition isword (a : ascii) : bool :=
  between 48 57 a || between 65 90 a || (code a =? 95) || between 97 122 a
  || (code a =? 170) || between 178 179 a || (code a =? 181)
  || between 185 186 a || between 188 190 a || between 192 214 a
  || between 216 246 a || between 248 255 a.

(** [.] without [re.DOTALL], and with it. *)
Definition notnl (a : ascii) : bool := negb (Ascii.eqb a LF).
Definition anychar (_ : ascii) : bool := true.

(** [str.lower] on one character. *)
Definition lower (a : ascii) : ascii :=
  if between 65 90 a || (between 192 222 a && negb (code a =? 215))
  then ascii_of_nat (code a + 32) else a.

(** A literal character under [re.IGNORECASE]. *)
Definition eqb_nocase (x a : ascii) : bool := Ascii.eqb (lower x) (lower a).

(** A negated set [[^...]]. *)
Definition noneof (l : list ascii) (a : ascii) : bool :=
  negb (existsb (Ascii.eqb a) l).

End Char.

(** ** String methods *)

Module Str.

Local Open Scope nat_scope.

Fixpoint lstrip (s : string) : string :=
  match s with
  | String a s' => if Char.isspace a then lstrip s' else s
  | EmptyString => EmptyString
  end.

Fixpoint rstrip (s : string) : string :=
  match s with
  | String a s' =>
      match rstrip s' with
      | EmptyString => if Char.isspace a then EmptyString
                       else String a EmptyString
      | r => String a r
      end
  | EmptyString => EmptyString
  end.

(** [s.strip()] *)
Definition strip (s : string) : string := rstrip (lstrip s).

Fixpoint map (f : ascii -> ascii) (s : string) : string :=
  match s with
  | String a s' => String (f a) (map f s')
  | EmptyString => EmptyString
  end.

(** [s.lower()] *)
Definition lower (s : string) : string := map Char.lower s.

(** [s.upper()].  The upper-case forms of U+00B5 and U+00FF are code points
    above 255; these two characters are left as they are.  The parser only
    compares the result with ASCII words. *)
Fixpoint upper (s : string) : string :=
  match s with
  | String a s' =>
      if Char.between 97 122 a
         || (Char.between 224 254 a && negb (Char.code a =? 247))
      then String (ascii_of_nat (Char.code a - 32)) (upper s')
      else if Char.code a =? 223 then String "S" (String "S" (upper s'))
      else String a (upper s')
  | EmptyString => EmptyString
  end.

(** [s.startswith(p)] *)
Fixpoint startswith (s p : string) : bool :=
  match p with
  | EmptyString => true
  | String x p' =>
      match s with
      | String a s' => Ascii.eqb a x && startswith s' p'
      | EmptyString => false
      end
  end.

(** [s.split(sep, 1)] for a one-character separator. *)
Fixpoint split1 (sep : ascii) (s : string) : list string :=
  match s with
  | String a s' =>
      if Ascii.eqb a sep then [EmptyString; s']
      else match split1 sep s' with
           | h :: t => String a h :: t
           | [] => []
           end
  | EmptyString => [EmptyString]
  end.

(** [s.replace(x, y)] for one-character [x] and [y]. *)
Definition replace (x y : ascii) (s : string) : string :=
  map (fun a => if Ascii.eqb a x then y else a) s.

(** [needle in s] *)
Fixpoint contains (needle s : string) : bool :=
  String.prefix needle s ||
  match s with
  | String _ s' => contains needle s'
  | EmptyString => false
  end.

(** Truthiness of a string. *)
Definition nonempty (s : string) : bool :=
  match s with EmptyString => false | _ => true end.

End Str.

(** ** Regular expressions

    The constructs that occur in the parser's patterns.  Every repetition
    in them is over a single character class, so [Star] takes the class.  *)

Module Re.

Local Open Scope nat_scope.

Inductive regex : Type :=
| Eps
| Chr (p : ascii -> bool)
| Seq (r1 r2 : regex)
| Alt (r1 r2 : regex)
| Star (greedy : bool) (p : ascii -> bool)
| Group (n : nat) (r : regex)
| Dollar.

(** The groups that took part in the match, latest first, each with the
    text it matched. *)
Definition caps := list (nat * string).

(** The characters from [acc] back to an earlier state [acc0] of it, as
    text.  The matcher keeps the characters it has consumed since the
    start of the match, latest first. *)
Definition text_since (acc0 acc : list ascii) : string :=
  string_of_list_ascii (rev (firstn (List.length acc - List.length acc0) acc)).

Section Matcher.

Context {A : Type}.

(** What remains to be matched: it receives the rest of the subject, the
    characters consumed and the groups so far. *)
Definition kont := string -> list ascii -> caps -> option A.

Fixpoint star_greedy (p : ascii -> bool) (k : kont)
         (s : string) (acc : list ascii) (c : caps) : option A :=
  match s with
  | String a s' =>
      if p a then
        match star_greedy p k s' (a :: acc) c with
        | Some x => Some x
        | None => k s acc c
        end
      else k s acc c
  | EmptyString => k s acc c
  end.

Fixpoint star_lazy (p : ascii -> bool) (k : kont)
         (s : string) (acc : list ascii) (c : caps) : option A :=
  match k s acc c with
  | Some x => Some x
  | None =>
      match s with
      | String a s' => if p a then star_lazy p k s' (a :: acc) c else None
      | EmptyString => None
      end
  end.

(** [$] without [re.MULTILINE]: the end of the subject, or just before a
    line feed that ends it. *)
Definition at_end (s : string) : bool :=
  match s with
  | EmptyString => true
  | String a EmptyString => Ascii.eqb a Char.LF
  | _ => false
  end.

Fixpoint rmatch (r : regex) (s : string) (acc : list ascii) (c : caps)
         (k : kont) : option A :=
  match r with
  | Eps => k s acc c
  | Chr p =>
      match s with
      | String a s' => if p a then k s' (a :: acc) c else None
      | EmptyString => None
      end
  | Seq r1 r2 => rmatch r1 s acc c (fun s' acc' c' => rmatch r2 s' acc' c' k)
  | Alt r1 r2 =>
      match rmatch r1 s acc c k with
      | Some x => Some x
      | None => rmatch r2 s acc c k
      end
  | Star true p => star_greedy p k s acc c
  | Star false p => star_lazy p k s acc c
  | Group n r =>
      rmatch r s acc c
             (fun s' acc' c' => k s' acc' ((n, text_since acc acc') :: c'))
  | Dollar => if at_end s then k s acc c else None
  end.

End Matcher.

(** A match object: the text of the whole match, [m.group(0)], and the
    groups. *)
Record mobj : Type := MObj { m_text : string; m_groups : caps }.

(** The last step of every match. *)
Definition accept : @kont mobj :=
  fun _ acc c => Some (MObj (text_since [] acc) c).

(** [pattern.match(text, pos)]: [s] is [text[pos:]]. *)
Definition match_at (r : regex) (s : string) : option mobj :=
  rmatch r s [] [] accept.

(** [re.search]: the leftmost position with a match. *)
Fixpoint search (r : regex) (s : string) : option mobj :=
  match match_at r s with
  | Some m => Some m
  | None =>
      match s with
      | String _ s' => search r s'
      | EmptyString => None
      end
  end.

(** [re.finditer]: the matches from left to right, each search starting
    where the previous match ended.  [skip] counts the characters of the
    previous match still to be passed.  Every pattern of the parser
    consumes at least one character, so no match is empty. *)
Fixpoint scan (r : regex) (s : string) (skip : nat) : list mobj :=
  match skip with
  | S n =>
      match s with
      | String _ s' => scan r s' n
      | EmptyString => []
      end
  | O =>
      match match_at r s with
      | Some m =>
          m :: match s with
               | String _ s' => scan r s' (String.length (m_text m) - 1)
               | EmptyString => []
               end
      | None =>
          match s with
          | String _ s' => scan r s' 0
          | EmptyString => []
          end
      end
  end.

Definition finditer (r : regex) (text : string) : list mobj :=
  scan r text 0.

(** [m.group(n)], [None] when the group took no part in the match. *)
Fixpoint lookup (n : nat) (c : caps) : option string :=
  match c with
  | (i, g) :: c' => if i =? n then Some g else lookup n c'
  | [] => None
  end.

Definition group (m : mobj) (n : nat) : option string :=
  lookup n (m_groups m).

(** [re.findall] for a pattern with one group. *)
Definition findall1 (r : regex) (text : string) : list string :=
  List.map (fun m => match group m 1 with
                     | Some g => g
                     | None => EmptyString
                     end)
           (finditer r text).

(** *** Pattern combinators *)

Definition ws : ascii -> bool := Char.isspace.

Definition ch (a : ascii) : regex := Chr (Ascii.eqb a).

(** A literal word, its characters compared by [eq]: as they are, or
    under [re.IGNORECASE]. *)
Fixpoint word (eq : ascii -> ascii -> bool) (w : string) : regex :=
  match w with
  | String a EmptyString => Chr (eq a)
  | String a w' => Seq (Chr (eq a)) (word eq w')
  | EmptyString => Eps
  end.

Definition lit : string -> regex := word Ascii.eqb.
Definition lit_i : string -> regex := word Char.eqb_nocase.

Fixpoint seq (l : list regex) : regex :=
  match l with
  | [] => Eps
  | [r] => r
  | r :: l' => Seq r (seq l')
  end.

Definition plus (p : ascii -> bool) : regex := Seq (Chr p) (Star true p).
Definition opt (r : regex) : regex := Alt r Eps.

End Re.

(** ** The element trees of [xml.etree.ElementTree] *)

Module ET.

#[warnings="-register-all"] Inductive element : Type :=
| Element (tag : string) (attrib : list (string * string))
          (text : option string) (children : list element).

Definition tag (e : element) : string :=
  match e with Element t _ _ _ => t end.
Definition attrib (e : element) : list (string * string) :=
  match e with Element _ a _ _ => a end.
Definition text (e : element) : option string :=
  match e with Element _ _ t _ => t end.
Definition children (e : element) : list element :=
  match e with Element _ _ _ c => c end.

(** [e.get(key)] *)
Fixpoint get (key : string) (a : list (string * string)) : option string :=
  match a with
  | (k, v) :: a' => if String.eqb k key then Some v else get key a'
  | [] => None
  end.

(** [e.get(key, default)] *)
Definition get_default (key default : string) (e : element) : string :=
  match get key (attrib e) with
  | Some v => v
  | None => default
  end.

(** [e.iter()]: the element and everything below it, in document order. *)
Fixpoint iter (e : element) : list element :=
  match e with
  | Element _ _ _ c =>
      e :: (fix iter_all (l : list element) : list element :=
              match l with
              | [] => []
              | x :: l' => (iter x ++ iter_all l')%list
              end) c
  end.

(** The step [//] of a path: everything strictly below [e]. *)
Definition descendants (e : element) : list element :=
  flat_map iter (children e).

Definition has_tag (t : string) (e : element) : bool := String.eqb (tag e) t.

(** [e.findall(".//t")] *)
Definition findall_desc (t : string) (e : element) : list element :=
  filter (has_tag t) (descendants e).

(** [e.find(".//t")] *)
Definition find_desc (t : string) (e : element) : option element :=
  hd_error (findall_desc t e).

(** [e.find(".//t/u")] *)
Definition find_desc_child (t u : string) (e : element) : option element :=
  hd_error (flat_map (fun d => filter (has_tag u) (children d))
                     (findall_desc t e)).

(** What [ET.parse] does with a file: it returns the tree, raises
    [ET.ParseError], or raises something else (the file cannot be read). *)
Inductive parsed : Type :=
| Tree (root : element)
| ParseError (msg : string)
| OtherError (msg : string).

End ET.

(** ** The parser *)

Module TwinCATParser.

Import Re.

(** The dictionaries built by [_extract_variables] and
    [_extract_struct_members]. *)
Record FieldInfo : Type := mkField
  { name : string; type : string; default : string; comment : string }.

(** The dictionary built by [_extract_documentation]. *)
Record DocInfo : Type := mkDocInfo
  { description : string; author : string; version : string;
    date : string; comments : list string }.

(** *** The patterns *)

(** The pattern for line comments: [//\s*], then [.*] as group 1. *)
Definition comment_line_re : regex :=
  seq [lit "//"; Star true ws; Group 1 (Star true Char.notnl)].

Definition comment_open : string := String "(" (String "*" EmptyString).
Definition comment_close : string := String "*" (String ")" EmptyString).

(** The pattern for block comments, with [re.DOTALL]: an opening
    parenthesis and star, [\s*], then [.*?] as group 1, [\s*], a star and
    a closing parenthesis. *)
Definition comment_block_re : regex :=
  seq [lit comment_open; Star true ws; Group 1 (Star false Char.anychar);
       Star true ws; lit comment_close].

(** The pattern for declarations: [\w+] as group 1, [\s*:\s*], [[^;:=]+]
    as group 2, optionally [\s*:=\s*] and [[^;]+] as group 3, then
    [\s*;?\s*], and optionally [//\s*] and [.*] as group 4
    ([re.MULTILINE] changes nothing: the pattern has no anchor). *)
Definition var_pattern : regex :=
  seq [Group 1 (plus Char.isword); Star true ws; ch ":"; Star true ws;
       Group 2 (plus (Char.noneof [";"; ":"; "="]%char));
       opt (seq [Star true ws; lit ":="; Star true ws;
                 Group 3 (plus (Char.noneof [";"]%char))]);
       Star true ws; opt (ch ";"); Star true ws;
       opt (seq [lit "//"; Star true ws; Group 4 (Star true Char.notnl)])].

(** The patterns for blocks, all with [re.DOTALL | re.IGNORECASE]: an open
    marker ([VAR_GLOBAL], [VAR_INPUT], [VAR_OUTPUT], or [VAR] followed by
    [\s] or [$]), then [.*?] as group 1, then [END_VAR]. *)
Definition block_re (open_marker : string) : regex :=
  seq [lit_i open_marker; Group 1 (Star false Char.anychar);
       lit_i "END_VAR"].

Definition var_global_re : regex := block_re "VAR_GLOBAL".
Definition var_input_re : regex := block_re "VAR_INPUT".
Definition var_output_re : regex := block_re "VAR_OUTPUT".

Definition var_re : regex :=
  seq [lit_i "VAR"; Alt (Chr ws) Dollar; Group 1 (Star false Char.anychar);
       lit_i "END_VAR"].

(** The pattern for structures, with [re.DOTALL | re.IGNORECASE]:
    [STRUCT\s*], then [.*?] as group 1, then [END_STRUCT]. *)
Definition struct_re : regex :=
  seq [lit_i "STRUCT"; Star true ws; Group 1 (Star false Char.anychar);
       lit_i "END_STRUCT"].

(** *** [_extract_documentation] *)

Definition set_description (d : DocInfo) (v : string) : DocInfo :=
  mkDocInfo v (author d) (version d) (date d) (comments d).
Definition set_author (d : DocInfo) (v : string) : DocInfo :=
  mkDocInfo (description d) v (version d) (date d) (comments d).
Definition set_version (d : DocInfo) (v : string) : DocInfo :=
  mkDocInfo (description d) (author d) v (date d) (comments d).
Definition set_date (d : DocInfo) (v : string) : DocInfo :=
  mkDocInfo (description d) (author d) (version d) v (comments d).

(** [line.split(':', 1)[1].strip()] *)
Definition label_value (line : string) : string :=
  Str.strip (nth 1 (Str.split1 ":" line) EmptyString).

(** One turn of the loop over the comment lines. *)
Definition doc_step (d : DocInfo) (line : string) : DocInfo :=
  let line_lower := Str.strip (Str.lower line) in
  if Str.startswith line_lower "purpose:"
     || Str.startswith line_lower "description:"
  then set_description d (label_value line)
  else if Str.startswith line_lower "author:"
  then set_author d (label_value line)
  else if Str.startswith line_lower "version:"
  then set_version d (label_value line)
  else if Str.startswith line_lower "date:"
  then set_date d (label_value line)
  else d.

Definition _extract_documentation (text : string) : DocInfo :=
  let doc_info :=
    mkDocInfo EmptyString EmptyString EmptyString EmptyString [] in
  let comment_lines := findall1 comment_line_re text in
  let doc_info :=
    mkDocInfo (description doc_info) (author doc_info) (version doc_info)
              (date doc_info) comment_lines in
  let doc_info := fold_left doc_step comment_lines doc_info in
  let comment_blocks := findall1 comment_block_re text in
  match comment_blocks with
  | b :: _ => set_description doc_info (Str.strip b)
  | [] => doc_info
  end.

(** *** [_extract_variables] *)

(** [m.group(n).strip()] *)
Definition group_strip (m : mobj) (n : nat) : string :=
  match group m n with
  | Some g => Str.strip g
  | None => EmptyString
  end.

(** [m.group(n).strip() if m.group(n) else ''] *)
Definition group_strip_or_empty (m : mobj) (n : nat) : string :=
  match group m n with
  | Some g => if Str.nonempty g then Str.strip g else EmptyString
  | None => EmptyString
  end.

Definition field_of_match (m : mobj) : FieldInfo :=
  mkField (group_strip m 1) (group_strip m 2)
          (group_strip_or_empty m 3) (group_strip_or_empty m 4).

Definition keywords : list string :=
  ["VAR"; "END_VAR"; "VAR_INPUT"; "VAR_OUTPUT"].

(** [name and not name.upper() in [...]] *)
Definition keep_variable (f : FieldInfo) : bool :=
  Str.nonempty (name f)
  && negb (existsb (String.eqb (Str.upper (name f))) keywords).

(** The inner loop of [_extract_variables], over one block. *)
Definition block_variables (block : string) : list FieldInfo :=
  filter keep_variable
         (List.map field_of_match (finditer var_pattern block)).

Definition var_blocks (text : string) (is_global : bool) : list string :=
  if is_global then findall1 var_global_re text
  else (findall1 var_input_re text ++ findall1 var_output_re text
        ++ findall1 var_re text)%list.

Definition _extract_variables (text : string) (is_global : bool)
  : list FieldInfo :=
  flat_map block_variables (var_blocks text is_global).

(** *** [_extract_struct_members] *)

Definition keep_member (f : FieldInfo) : bool := Str.nonempty (name f).

Definition struct_members (struct_content : string) : list FieldInfo :=
  filter keep_member
         (List.map field_of_match (finditer var_pattern struct_content)).

Definition _extract_struct_members (text : string) : list FieldInfo :=
  match search struct_re text with
  | Some struct_match =>
      match group struct_match 1 with
      | Some struct_content => struct_members struct_content
      | None => []
      end
  | None => []
  end.

(** *** Records *)

Record POUInfo : Type := mkPOUInfo
  { pou_name : string; pou_type : string; pou_file_path : string;
    pou_description : string; pou_author : string; pou_version : string;
    pou_date : string; pou_variables : list FieldInfo;
    pou_implementation : string; pou_comments : list string }.

Record DUTInfo : Type := mkDUTInfo
  { dut_name : string; dut_type : string; dut_file_path : string;
    dut_description : string; dut_author : string; dut_version : string;
    dut_members : list FieldInfo; dut_comments : list string }.

Record GVLInfo : Type := mkGVLInfo
  { gvl_name : string; gvl_file_path : string; gvl_description : string;
    gvl_variables : list FieldInfo; gvl_comments : list string }.

(** *** The project on disk and the log *)

(** A file below the project root: its path relative to the root, as
    [str(p.relative_to(self.project_root))] gives it, and what [ET.parse]
    does with it. *)
Record SourceFile : Type := mkFile
  { rel_path : string; content : ET.parsed }.

(** [project_files] is what [glob] finds for the manifests directly under
    the root, [source_files] all the files below the root in the order in
    which the recursive [glob] yields them. *)
Record Project : Type := mkProject
  { project_files : list SourceFile; source_files : list SourceFile }.

Inductive level : Type := INFO | WARNING | ERROR.

Inductive event : Type :=
| ParsingProject
| FoundFiles (kind : string) (n : nat)
| ErrorParsingFile (kind : string) (file : string) (e : string)
| XmlParseError (file : string) (e : string)
| CouldNotParseProjectFile (e : string)
| CouldNotParseIncludes (proj : string) (e : string).

Definition log_record : Type := (level * event)%type.

(** A call returns or raises. *)
Inductive outcome (A : Type) : Type :=
| Returns (a : A)
| Raises (e : string).
Arguments Returns {A} a.
Arguments Raises {A} e.

(** *** [_get_project_included_files] *)

Definition backslash : ascii := ascii_of_nat 92.

(** [str(...).replace('\\', '/')] *)
Definition normalize (path : string) : string :=
  Str.replace backslash "/" path.

Definition Compile_ns : string :=
  "{http://schemas.microsoft.com/developer/msbuild/2003}Compile".

(** One of the two loops over the [Compile] items of a manifest. *)
Definition includes_of (items : list ET.element) : list string :=
  flat_map (fun compile_item =>
              match ET.get "Include" (ET.attrib compile_item) with
              | Some inc => if Str.nonempty inc then [normalize inc] else []
              | None => []
              end) items.

(** The body of the loop over the manifests: what one manifest adds to
    [includes] and to the log. *)
Definition manifest_includes (proj : SourceFile)
  : list string * list log_record :=
  match content proj with
  | ET.Tree root =>
      ((includes_of (ET.findall_desc Compile_ns root)
        ++ includes_of (ET.findall_desc "Compile" root))%list, [])
  | ET.ParseError e | ET.OtherError e =>
      ([], [(WARNING, CouldNotParseIncludes (rel_path proj) e)])
  end.

(** [sorted(set(includes))] *)
Fixpoint insert_sorted (x : string) (l : list string) : list string :=
  match l with
  | [] => [x]
  | y :: l' =>
      match String.compare x y with
      | Lt => x :: l
      | Eq => l
      | Gt => y :: insert_sorted x l'
      end
  end.

Definition sorted_set (l : list string) : list string :=
  fold_right insert_sorted [] l.

Definition _get_project_included_files (p : Project)
  : list string * list log_record :=
  let per_manifest := List.map manifest_includes (project_files p) in
  (sorted_set (flat_map fst per_manifest), flat_map snd per_manifest).

(** *** The choice of the files to parse

    The first lines of [_parse_pous], [_parse_duts] and [_parse_gvls],
    which differ in the extension only. *)

Definition endswith (s suffix : string) : bool :=
  (String.length suffix <=? String.length s)%nat
  && String.eqb (substring (String.length s - String.length suffix)
                           (String.length suffix) s) suffix.

(** [list(self.project_root.glob("**/*" + ext))] *)
Definition glob (p : Project) (ext : string) : list SourceFile :=
  filter (fun f => endswith (rel_path f) ext) (source_files p).

Definition is_included (included_files : list string) (f : SourceFile)
  : bool :=
  existsb (String.eqb (normalize (rel_path f))) included_files.

Definition enumerate (p : Project) (included_files : list string)
           (ext : string) : list SourceFile :=
  let all_files := glob p ext in
  match included_files with
  | _ :: _ => filter (is_included included_files) all_files
  | [] => all_files
  end.

(** *** The parsers of one file *)

(** The text of the first element below [root] on the given path,
    stripped; empty when there is no such element or it has no text. *)
Definition stripped_text (e : option ET.element) : string :=
  match e with
  | Some e =>
      match ET.text e with
      | Some t => if Str.nonempty t then Str.strip t else EmptyString
      | None => EmptyString
      end
  | None => EmptyString
  end.

Definition _parse_pou_file (file : SourceFile)
  : outcome (option POUInfo) * list log_record :=
  match content file with
  | ET.Tree root =>
      match ET.find_desc "POU" root with
      | None => (Returns None, [])
      | Some pou_element =>
          let name := ET.get_default "Name" "Unknown" pou_element in
          let pou_type :=
            ET.get_default "SpecialFunc" "PROGRAM" pou_element in
          let declaration_text :=
            stripped_text (ET.find_desc "Declaration" root) in
          let implementation_text :=
            stripped_text (ET.find_desc_child "Implementation" "ST" root) in
          let doc_info := _extract_documentation declaration_text in
          let variables := _extract_variables declaration_text false in
          (Returns (Some (mkPOUInfo name pou_type (rel_path file)
                            (description doc_info) (author doc_info)
                            (version doc_info) (date doc_info) variables
                            implementation_text (comments doc_info))), [])
      end
  | ET.ParseError e =>
      (Returns None, [(ERROR, XmlParseError (rel_path file) e)])
  | ET.OtherError e => (Raises e, [])
  end.

Definition _parse_dut_file (file : SourceFile)
  : outcome (option DUTInfo) * list log_record :=
  match content file with
  | ET.Tree root =>
      match ET.find_desc "DUT" root with
      | None => (Returns None, [])
      | Some dut_element =>
          let name := ET.get_default "Name" "Unknown" dut_element in
          let declaration_text :=
            stripped_text (ET.find_desc "Declaration" root) in
          let doc_info := _extract_documentation declaration_text in
          let members := _extract_struct_members declaration_text in
          let dut_type :=
            if Str.contains "TYPE" declaration_text
               && Str.contains "ENUM" declaration_text
            then "ENUM" else "STRUCT" in
          (Returns (Some (mkDUTInfo name dut_type (rel_path file)
                            (description doc_info) (author doc_info)
                            (version doc_info) members
                            (comments doc_info))), [])
      end
  | ET.ParseError e =>
      (Returns None, [(ERROR, XmlParseError (rel_path file) e)])
  | ET.OtherError e => (Raises e, [])
  end.

Definition _parse_gvl_file (file : SourceFile)
  : outcome (option GVLInfo) * list log_record :=
  match content file with
  | ET.Tree root =>
      match ET.find_desc "GVL" root with
      | None => (Returns None, [])
      | Some gvl_element =>
          let name := ET.get_default "Name" "Unknown" gvl_element in
          let declaration_text :=
            stripped_text (ET.find_desc "Declaration" root) in
          let doc_info := _extract_documentation declaration_text in
          let variables := _extract_variables declaration_text true in
          (Returns (Some (mkGVLInfo name (rel_path file)
                            (description doc_info) variables
                            (comments doc_info))), [])
      end
  | ET.ParseError e =>
      (Returns None, [(ERROR, XmlParseError (rel_path file) e)])
  | ET.OtherError e => (Raises e, [])
  end.

(** *** The parser object and its loops *)

Record state : Type := mkState
  { pous : list POUInfo; duts : list DUTInfo; gvls : list GVLInfo;
    included_files : list string; log : list log_record }.

(** [__init__] *)
Definition init (p : Project) : state :=
  let '(included, l) := _get_project_included_files p in
  mkState [] [] [] included l.

(** The body of a loop over the files: [try] to parse the file and append
    the record if there is one; [except Exception], log an error. *)
Definition try_file {A : Type} (kind : string)
           (parse_file : SourceFile -> outcome (option A) * list log_record)
           (acc : list A * list log_record) (file : SourceFile)
  : list A * list log_record :=
  match parse_file file with
  | (Returns (Some info), l) => (fst acc ++ [info], snd acc ++ l)%list
  | (Returns None, l) => (fst acc, snd acc ++ l)%list
  | (Raises e, l) =>
      (fst acc,
       snd acc ++ l ++ [(ERROR, ErrorParsingFile kind (rel_path file) e)])%list
  end.

Definition _parse_pous (p : Project) (st : state) : state :=
  let pou_files := enumerate p (included_files st) ".TcPOU" in
  let l :=
    (log st ++ [(INFO, FoundFiles "POU" (List.length pou_files))])%list in
  let '(ps, l) := fold_left (try_file "POU" _parse_pou_file) pou_files
                            (pous st, l) in
  mkState ps (duts st) (gvls st) (included_files st) l.

Definition _parse_duts (p : Project) (st : state) : state :=
  let dut_files := enumerate p (included_files st) ".TcDUT" in
  let l :=
    (log st ++ [(INFO, FoundFiles "DUT" (List.length dut_files))])%list in
  let '(ds, l) := fold_left (try_file "DUT" _parse_dut_file) dut_files
                            (duts st, l) in
  mkState (pous st) ds (gvls st) (included_files st) l.

Definition _parse_gvls (p : Project) (st : state) : state :=
  let gvl_files := enumerate p (included_files st) ".TcGVL" in
  let l :=
    (log st ++ [(INFO, FoundFiles "GVL" (List.length gvl_files))])%list in
  let '(gs, l) := fold_left (try_file "GVL" _parse_gvl_file) gvl_files
                            (gvls st, l) in
  mkState (pous st) (duts st) gs (included_files st) l.

(** *** [_get_project_info] and [parse_project] *)

Record ProjectInfo : Type := mkProjectInfo
  { info_name : string; info_description : string; info_version : string;
    info_author : string; pou_count : nat; dut_count : nat;
    gvl_count : nat }.

Definition _get_project_info (p : Project) (st : state)
  : ProjectInfo * list log_record :=
  let info n :=
    mkProjectInfo n "GitHub integration demonstration with TwinCAT3"
                  "1.0.0" "Demo System" (List.length (pous st))
                  (List.length (duts st)) (List.length (gvls st)) in
  let default_name := "Demo TwinCAT Project" in
  match project_files p with
  | proj :: _ =>
      match content proj with
      | ET.Tree root =>
          match ET.find_desc "Name" root with
          | Some name_element =>
              match ET.text name_element with
              | Some t => if Str.nonempty t then (info t, [])
                          else (info default_name, [])
              | None => (info default_name, [])
              end
          | None => (info default_name, [])
          end
      | ET.ParseError e | ET.OtherError e =>
          (info default_name, [(WARNING, CouldNotParseProjectFile e)])
      end
  | [] => (info default_name, [])
  end.

Record ProjectDocument : Type := mkDocument
  { doc_pous : list POUInfo; doc_duts : list DUTInfo;
    doc_gvls : list GVLInfo; project_info : ProjectInfo }.

Definition parse_project (p : Project) (st : state)
  : ProjectDocument * state :=
  let st := mkState (pous st) (duts st) (gvls st) (included_files st)
                    (log st ++ [(INFO, ParsingProject)])%list in
  let st := _parse_pous p st in
  let st := _parse_duts p st in
  let st := _parse_gvls p st in
  let '(info, l) := _get_project_info p st in
  (mkDocument (pous st) (duts st) (gvls st) info,
   mkState (pous st) (duts st) (gvls st) (included_files st)
           (log st ++ l)%list).

End TwinCATParser.

(** ** The generator of the pages

    What [wiki_generator.py] computes from the parsed project before it
    hands it to its templates: the statistics, the lists of the interface
    page and the file names of the pages.  The rendering of the templates
    is left out, and with it what is written to the files and whether a
    file is written at all. *)

Module WikiGenerator.

Import TwinCATParser.

(** [len([x for x in l if x.type == t])] *)
Definition count_of_type {A : Type} (type_of : A -> string) (t : string)
           (l : list A) : nat :=
  List.length (filter (fun x => String.eqb (type_of x) t) l).

(** [sum(len(x.variables) for x in l)] *)
Definition total_length {A B : Type} (variables : A -> list B)
           (l : list A) : nat :=
  fold_left (fun n x => n + List.length (variables x)) l 0.

(** The dictionary [stats] of [_generate_statistics_page]. *)
Record Stats : Type := mkStats
  { total_pous : nat; total_duts : nat; total_gvls : nat; programs : nat;
    function_blocks : nat; functions : nat; structs : nat; enums : nat;
    total_variables : nat; total_global_vars : nat }.

Definition stats (project_data : ProjectDocument) : Stats :=
  mkStats (List.length (doc_pous project_data))
          (List.length (doc_duts project_data))
          (List.length (doc_gvls project_data))
          (count_of_type pou_type "PROGRAM" (doc_pous project_data))
          (count_of_type pou_type "FUNCTION_BLOCK" (doc_pous project_data))
          (count_of_type pou_type "FUNCTION" (doc_pous project_data))
          (count_of_type dut_type "STRUCT" (doc_duts project_data))
          (count_of_type dut_type "ENUM" (doc_duts project_data))
          (total_length pou_variables (doc_pous project_data))
          (total_length gvl_variables (doc_gvls project_data)).

(** The two lists of [_generate_api_documentation]. *)
Definition api_function_blocks (project_data : ProjectDocument)
  : list POUInfo :=
  filter (fun pou => String.eqb (pou_type pou) "FUNCTION_BLOCK")
         (doc_pous project_data).

Definition api_functions (project_data : ProjectDocument) : list POUInfo :=
  filter (fun pou => String.eqb (pou_type pou) "FUNCTION")
         (doc_pous project_data).

(** The file names of the detail pages. *)
Definition pou_page (pou : POUInfo) : string :=
  "POU-" ++ pou_name pou ++ ".md".
Definition dut_page (dut : DUTInfo) : string :=
  "DUT-" ++ dut_name dut ++ ".md".
Definition gvl_page (gvl : GVLInfo) : string :=
  "GVL-" ++ gvl_name gvl ++ ".md".

(** The file names of the index pages, of the interface page and of the
    statistics page: the literals that the functions of the generator
    join to the output directory. *)
Definition fixed_pages : list string :=
  ["Home.md"; "Architecture-Overview.md"; "POUs.md"; "Data-Types.md";
   "Global-Variables.md"; "API-Documentation.md"; "Project-Statistics.md"].

(** The file names that the generator has for the pages of a project:
    the fixed ones and one for each unit.  These are names only: a file
    is opened once its template has been rendered, and the rendering,
    which can raise, is left out. *)
Definition page_names (project_data : ProjectDocument) : list string :=
  (fixed_pages
   ++ List.map pou_page (doc_pous project_data)
   ++ List.map dut_page (doc_duts project_data)
   ++ List.map gvl_page (doc_gvls project_data))%list.
End WikiGenerator.

(** * The vocabulary of the properties *)

Module Spec.

Import Re TwinCATParser.

(** ** Texts *)

Definition nl : string := String Char.LF EmptyString.

(** The lines of a text, joined by line feeds. *)
Definition lines (l : list string) : string := String.concat nl l.

(** The characters consumed after reading [w], from the state [acc]. *)
Fixpoint push (w : string) (acc : list ascii) : list ascii :=
  match w with
  | String a w' => push w' (a :: acc)
  | EmptyString => acc
  end.

(** All the characters of [s] satisfy [p]. *)
Fixpoint all (p : ascii -> bool) (s : string) : bool :=
  match s with
  | String a s' => p a && all p s'
  | EmptyString => true
  end.

(** [c in s] for a character. *)
Fixpoint has_char (c : ascii) (s : string) : bool :=
  match s with
  | String a s' => Ascii.eqb a c || has_char c s'
  | EmptyString => false
  end.

(** ** Occurrences of a word *)

(** [w] read at the head of [s]: the text read and the rest. *)
Fixpoint eat (eq : ascii -> ascii -> bool) (w s : string)
  : option (string * string) :=
  match w with
  | EmptyString => Some (EmptyString, s)
  | String x w' =>
      match s with
      | String a s' =>
          if eq x a then
            match eat eq w' s' with
            | Some (m, r) => Some (String a m, r)
            | None => None
            end
          else None
      | EmptyString => None
      end
  end.

(** [w] occurs in [s]. *)
Fixpoint occurs (eq : ascii -> ascii -> bool) (w s : string) : bool :=
  match eat eq w s with
  | Some _ => true
  | None =>
      match s with
      | String _ s' => occurs eq w s'
      | EmptyString => false
      end
  end.

(** [w] without its last character. *)
Fixpoint but_last (w : string) : string :=
  match w with
  | String a EmptyString => EmptyString
  | String a w' => String a (but_last w')
  | EmptyString => EmptyString
  end.

(** In a text that goes on with [w] after [pre], no occurrence of [w]
    starts before that one. *)
Definition first_after (eq : ascii -> ascii -> bool) (pre w : string)
  : bool :=
  negb (occurs eq w (pre ++ but_last w)).

(** [w] is read at no place of [u] when [rest] follows. *)
Fixpoint absent (eq : ascii -> ascii -> bool) (w u rest : string) : Prop :=
  match u with
  | EmptyString => True
  | String _ u' => eat eq w (u ++ rest) = None /\ absent eq w u' rest
  end.

(** ** Places without match *)

(** No match of [r] starts in [u] when [rest] follows. *)
Fixpoint dead (r : regex) (u rest : string) : Prop :=
  match u with
  | EmptyString => True
  | String _ u' => match_at r (u ++ rest) = None /\ dead r u' rest
  end.

(** The continuation [k] fails at every place of [u] when [rest]
    follows. *)
Fixpoint kdead {A : Type} (k : @kont A) (u rest : string) (c : caps)
  : Prop :=
  match u with
  | EmptyString => True
  | String _ u' => (forall acc, k (u ++ rest) acc c = None) /\ kdead k u' rest c
  end.

(** ** Groups *)

(** How a match of [r] extends the groups [c] into [c']. *)
Fixpoint caps_after (r : regex) (c c' : caps) : Prop :=
  match r with
  | Eps | Chr _ | Star _ _ | Dollar => c' = c
  | Seq r1 r2 => exists c1, caps_after r1 c c1 /\ caps_after r2 c1 c'
  | Alt r1 r2 => caps_after r1 c c' \/ caps_after r2 c c'
  | Group n r => exists c1 g, caps_after r c c1 /\ c' = (n, g) :: c1
  end.

(** The least number of characters that a match of [r] consumes. *)
Fixpoint minlen (r : regex) : nat :=
  match r with
  | Eps | Star _ _ | Dollar => 0
  | Chr _ => 1
  | Seq r1 r2 => minlen r1 + minlen r2
  | Alt r1 r2 => Nat.min (minlen r1) (minlen r2)
  | Group _ r => minlen r
  end.

(** The patterns of the parser. *)
Definition patterns : list regex :=
  [comment_line_re; comment_block_re; var_pattern; var_global_re;
   var_input_re; var_output_re; var_re; struct_re].

(** The end of a block: the closing marker, then the end of the match,
    with group 1 holding what was consumed since [acc0]. *)
Definition block_end (acc0 : list ascii) : @kont mobj :=
  fun s acc c =>
    match eat Char.eqb_nocase "END_VAR" s with
    | Some (m, r) => accept r (push m acc) ((1, text_since acc0 acc) :: c)
    | None => None
    end.

(** The end of a structure block. *)
Definition struct_end (acc0 : list ascii) : @kont mobj :=
  fun s acc c =>
    match eat Char.eqb_nocase "END_STRUCT" s with
    | Some (m, r) => accept r (push m acc) ((1, text_since acc0 acc) :: c)
    | None => None
    end.

(** The end of a block comment: the closing marker, then the end of the
    match. *)
Definition comment_end : @kont mobj :=
  fun s acc c =>
    match eat Ascii.eqb comment_close s with
    | Some (m, r) => accept r (push m acc) c
    | None => None
    end.

(** ** Files and manifests *)

(** The entries of the manifests that parse, as the specification has
    them: every non-empty [Include] of a [Compile] item, namespaced or
    not, with its separators normalized. *)
Definition manifest_entries (p : Project) : list string :=
  flat_map (fun proj =>
              match content proj with
              | ET.Tree root =>
                  (includes_of (ET.findall_desc Compile_ns root)
                   ++ includes_of (ET.findall_desc "Compile" root))%list
              | _ => []
              end) (project_files p).

(** A file is listed when its normalized relative path is an entry. *)
Definition is_listed (p : Project) (f : SourceFile) : bool :=
  existsb (String.eqb (normalize (rel_path f))) (manifest_entries p).

(** Some manifest is found and parses. *)
Definition manifest_present (p : Project) : Prop :=
  exists proj root, In proj (project_files p) /\ content proj = ET.Tree root.

(** What one file adds to the records and to the log. *)
Definition contribution {A : Type} (kind : string)
           (parse_file : SourceFile -> outcome (option A) * list log_record)
           (file : SourceFile) : list A * list log_record :=
  try_file kind parse_file ([], []) file.

(** [n] is the name that the element [tag] of [file] gives: its [Name]
    attribute when it has one, and otherwise Unknown. *)
Definition named_after (tag : string) (file : SourceFile) (n : string)
  : Prop :=
  exists root el,
    content file = ET.Tree root
    /\ ET.find_desc tag root = Some el
    /\ n = match ET.get "Name" (ET.attrib el) with
           | Some v => v
           | None => "Unknown"
           end
    /\ (ET.get "Name" (ET.attrib el) <> Some EmptyString
        -> n <> EmptyString).

(** ** Labels *)

Inductive label : Type := Description | Author | Version | Date.

(** The test of the label that [doc_step] applies to a comment line, each
    label taken on its own. *)
Definition has_label (l : label) (line : string) : bool :=
  let line_lower := Str.strip (Str.lower line) in
  match l with
  | Description => Str.startswith line_lower "purpose:"
                   || Str.startswith line_lower "description:"
  | Author => Str.startswith line_lower "author:"
  | Version => Str.startswith line_lower "version:"
  | Date => Str.startswith line_lower "date:"
  end.

Definition field (l : label) (d : DocInfo) : string :=
  match l with
  | Description => description d
  | Author => author d
  | Version => version d
  | Date => date d
  end.

End Spec.

(** * The shape of the results *)

Module Shape.

Import Re TwinCATParser Spec.

(** ** The texts of a pattern *)

(** The texts that a match of [r] can consume. *)
Fixpoint lang (r : regex) (w : string) : Prop :=
  match r with
  | Eps | Dollar => w = EmptyString
  | Chr p => exists a, w = String a EmptyString /\ p a = true
  | Seq r1 r2 => exists u v, w = u ++ v /\ lang r1 u /\ lang r2 v
  | Alt r1 r2 => lang r1 w \/ lang r2 w
  | Star _ p => all p w = true
  | Group _ r => lang r w
  end.

(** How a match of [r] extends the groups [c] into [c'], each group with
    a text of its pattern. *)
Fixpoint caps_lang (r : regex) (c c' : caps) : Prop :=
  match r with
  | Eps | Chr _ | Star _ _ | Dollar => c' = c
  | Seq r1 r2 => exists c1, caps_lang r1 c c1 /\ caps_lang r2 c1 c'
  | Alt r1 r2 => caps_lang r1 c c' \/ caps_lang r2 c c'
  | Group n r =>
      exists c1 g, caps_lang r c c1 /\ lang r g /\ c' = (n, g) :: c1
  end.

(** [r] is a sequence that ends with the literal word [w]. *)
Fixpoint closes (eq : ascii -> ascii -> bool) (w : string) (r : regex)
  : Prop :=
  match r with
  | Seq _ r2 => r2 = word eq w \/ closes eq w r2
  | _ => False
  end.

(** The patterns for blocks, by the mode of [_extract_variables]. *)
Definition block_patterns (is_global : bool) : list regex :=
  if is_global then [var_global_re]
  else [var_input_re; var_output_re; var_re].

(** ** Fields *)

(** [s.strip()] leaves [s] as it is. *)
Definition stripped (s : string) : Prop := Str.strip s = s.

(** What every field that the pattern for declarations gives looks
    like. *)
Definition well_formed (f : FieldInfo) : Prop :=
  (name f <> EmptyString /\ all Char.isword (name f) = true)
  /\ (all (Char.noneof [";"; ":"; "="]%char) (type f) = true
      /\ stripped (type f))
  /\ (has_char ";" (default f) = false /\ stripped (default f))
  /\ (has_char Char.LF (comment f) = false /\ stripped (comment f)).

(** The name is one of the words that [_extract_variables] drops. *)
Definition is_keyword (f : FieldInfo) : bool :=
  existsb (String.eqb (Str.upper (name f))) keywords.

(** The record of a text without any comment. *)
Definition no_documentation : DocInfo :=
  mkDocInfo EmptyString EmptyString EmptyString EmptyString [].

(** ** Letter case *)

(** The classes of [r] do not tell a letter from its lower case. *)
Fixpoint caseless (r : regex) : Prop :=
  match r with
  | Eps | Dollar => True
  | Chr p | Star _ p => forall a, p (Char.lower a) = p a
  | Seq r1 r2 | Alt r1 r2 => caseless r1 /\ caseless r2
  | Group _ r => caseless r
  end.

(** A match, a field and a documentation record in lower case. *)
Definition lower_caps (c : caps) : caps :=
  List.map (fun g => (fst g, Str.lower (snd g))) c.

Definition lower_mobj (m : mobj) : mobj :=
  MObj (Str.lower (m_text m)) (lower_caps (m_groups m)).

(** The continuation [k'] does in lower case what [k] does. *)
Definition lowered (k k' : @kont mobj) : Prop :=
  forall s acc c,
    k' (Str.lower s) (List.map Char.lower acc) (lower_caps c)
    = option_map lower_mobj (k s acc c).

Definition lower_field (f : FieldInfo) : FieldInfo :=
  mkField (Str.lower (name f)) (Str.lower (type f)) (Str.lower (default f))
          (Str.lower (comment f)).

Definition lower_doc (d : DocInfo) : DocInfo :=
  mkDocInfo (Str.lower (description d)) (Str.lower (author d))
            (Str.lower (version d)) (Str.lower (date d))
            (List.map Str.lower (comments d)).

(** ** Records *)

(** A comment that holds no line feed. *)
Definition one_line (c : string) : Prop := has_char Char.LF c = false.

Definition pou_well_formed (pou : POUInfo) : Prop :=
  (stripped (pou_description pou) /\ stripped (pou_author pou)
   /\ stripped (pou_version pou) /\ stripped (pou_date pou))
  /\ stripped (pou_implementation pou)
  /\ Forall well_formed (pou_variables pou)
  /\ Forall one_line (pou_comments pou).

Definition dut_well_formed (dut : DUTInfo) : Prop :=
  (stripped (dut_description dut) /\ stripped (dut_author dut)
   /\ stripped (dut_version dut))
  /\ (dut_type dut = "STRUCT" \/ dut_type dut = "ENUM")
  /\ Forall well_formed (dut_members dut)
  /\ Forall one_line (dut_comments dut).

Definition gvl_well_formed (gvl : GVLInfo) : Prop :=
  stripped (gvl_description gvl)
  /\ Forall well_formed (gvl_variables gvl)
  /\ Forall one_line (gvl_comments gvl).

(** ** Files *)

(** [ET.parse] returns a tree for the file. *)
Definition parses (f : SourceFile) : bool :=
  match content f with
  | ET.Tree _ => true
  | _ => false
  end.

(** Strictly increasing in the order of the code points. *)
Definition increasing (l : list string) : Prop :=
  StronglySorted (fun x y => String.compare x y = Lt) l.

(** The extensions of the three kinds of source units. *)
Definition extensions : list string := [".TcPOU"; ".TcDUT"; ".TcGVL"].

(** The paths of all the records of a document. *)
Definition record_paths (d : ProjectDocument) : list string :=
  (List.map pou_file_path (doc_pous d)
   ++ List.map dut_file_path (doc_duts d)
   ++ List.map gvl_file_path (doc_gvls d))%list.

(** The kinds of program units that the statistics count. *)
Definition counted_kinds : list string :=
  ["PROGRAM"; "FUNCTION_BLOCK"; "FUNCTION"].

End Shape.

(** * Inputs *)

Module Examples.

Import TwinCATParser Spec.

(** ** Projects and files *)

(** A project whose manifest parses and lists nothing, with one program
    unit on disk. *)
Definition bare_manifest_project : Project :=
  mkProject
    [mkFile "Demo.tsproj" (ET.Tree (ET.Element "TcSmProject" [] None []))]
    [mkFile "POUs/MAIN.TcPOU"
            (ET.Tree (ET.Element "TcPlcObject" [] None
                        [ET.Element "POU" [("Name", "MAIN")] None []]))].

(** A project whose manifest lists the first of three program units on
    disk, with the separator of Windows. *)
Definition listing_project : Project :=
  mkProject
    [mkFile "Demo.tsproj"
            (ET.Tree
               (ET.Element "Project" [] None
                  [ET.Element "ItemGroup" [] None
                     [ET.Element Compile_ns
                        [("Include", "POUs" ++ String backslash "A.TcPOU")]
                        None []]]))]
    [mkFile "POUs/A.TcPOU" (ET.ParseError "no element found");
     mkFile "POUs/B.TcPOU" (ET.ParseError "no element found");
     mkFile "POUs/C.TcPOU" (ET.ParseError "no element found")].

(** A project without manifest and with three files on disk. *)
Definition manifestless_project : Project :=
  mkProject []
    [mkFile "A.TcPOU" (ET.ParseError "no element found");
     mkFile "B.TcPOU" (ET.ParseError "no element found");
     mkFile "C.TcDUT" (ET.ParseError "no element found")].

(** A program unit whose [Name] attribute is there and empty. *)
Definition nameless_pou_file : SourceFile :=
  mkFile "POUs/MAIN.TcPOU"
         (ET.Tree (ET.Element "TcPlcObject" [] None
                     [ET.Element "POU" [("Name", EmptyString)] None []])).

(** A program unit without [Name] attribute. *)
Definition anonymous_pou_file : SourceFile :=
  mkFile "POUs/MAIN.TcPOU"
         (ET.Tree (ET.Element "TcPlcObject" [] None
                     [ET.Element "POU" [] None []])).

(** A project with one program-unit file, well-formed but without [POU]
    element. *)
Definition missing_pou_project : Project :=
  mkProject []
    [mkFile "POUs/Empty.TcPOU"
            (ET.Tree (ET.Element "TcPlcObject" [] None []))].

(** A file that is not well-formed. *)
Definition broken_file : SourceFile :=
  mkFile "POUs/Broken.TcPOU" (ET.ParseError "mismatched tag").

(** A file on which [ET.parse] raises an error of the system. *)
Definition unreadable_file : SourceFile :=
  mkFile "POUs/Locked.TcPOU" (ET.OtherError "Permission denied").

(** A program unit as it should be. *)
Definition main_file : SourceFile :=
  mkFile "POUs/MAIN.TcPOU"
         (ET.Tree (ET.Element "TcPlcObject" [] None
                     [ET.Element "POU" [("Name", "MAIN")] None []])).

(** A well-formed file without [POU] element. *)
Definition empty_file : SourceFile :=
  mkFile "POUs/Empty.TcPOU" (ET.Tree (ET.Element "TcPlcObject" [] None [])).

(** The four together, without manifest. *)
Definition mixed_project : Project :=
  mkProject [] [broken_file; unreadable_file; empty_file; main_file].

(** ** Declaration texts *)

(** The declaration of a function block with one input, one output and
    one local variable. *)
Definition fb_declaration : string :=
  lines ["FUNCTION_BLOCK FB_Motor";
         "VAR_INPUT";
         "    bStart : BOOL;";
         "END_VAR";
         "VAR_OUTPUT";
         "    bRunning : BOOL;";
         "END_VAR";
         "VAR";
         "    nState : INT;";
         "END_VAR"].

(** A list of global variables one of which bears the name of the open
    marker. *)
Definition gvl_declaration : string :=
  lines ["VAR_GLOBAL";
         "    VAR_GLOBAL : INT;";
         "    bReady : BOOL := TRUE;";
         "END_VAR"].

(** The structure of C9. *)
Definition struct_xy : string := "STRUCT x: INT; y: BOOL; END_STRUCT".

(** An enumeration: no structure block. *)
Definition enum_declaration : string :=
  lines ["TYPE E_Color :"; "("; "    RED,"; "    GREEN"; ");"; "END_TYPE"].

(** Two structure blocks. *)
Definition two_structs : string :=
  "STRUCT a: INT; END_STRUCT STRUCT b: BOOL; END_STRUCT".

(** The block comment of C4. *)
Definition long_form : string :=
  comment_open ++ " long form " ++ comment_close.

(** The line comment of C5. *)
Definition jane : string := "// Author: Jane Doe".

(** The line of C3 and its field. *)
Definition counter_line : string := "nCount : DINT := 10; // counter".

Definition counter_field : FieldInfo :=
  mkField "nCount" "DINT" "10" "counter".

(** An input block in which a comment with a colon precedes the line. *)
Definition commented_input : string :=
  lines ["VAR_INPUT";
         "    // Inputs: see manual";
         "    " ++ counter_line;
         "END_VAR"].

End Examples.

(** * Further inputs *)

Module Samples.

Import TwinCATParser Spec.

(** A manifest with one compile-include entry. *)
Definition manifest (file_name include : string) : SourceFile :=
  mkFile file_name
         (ET.Tree
            (ET.Element "Project" [] None
               [ET.Element "ItemGroup" [] None
                  [ET.Element "Compile" [("Include", include)] None []]])).

(** A source unit of a kind with its name and its declaration. *)
Definition source_unit (path kind unit_name declaration : string) : SourceFile :=
  mkFile path
         (ET.Tree
            (ET.Element "TcPlcObject" [] None
               [ET.Element kind [("Name", unit_name)] None
                  [ET.Element "Declaration" [] (Some declaration) []]])).

Definition motor_unit : SourceFile :=
  source_unit "POUs/FB_Motor.TcPOU" "POU" "FB_Motor"
       (lines ["FUNCTION_BLOCK FB_Motor"; "VAR_INPUT"; "    bStart : BOOL;";
               "END_VAR"]).

Definition point_unit : SourceFile :=
  source_unit "DUTs/ST_Point.TcDUT" "DUT" "ST_Point"
       (lines ["TYPE ST_Point :"; "STRUCT"; "    x : INT;"; "END_STRUCT";
               "END_TYPE"]).

Definition globals_unit : SourceFile :=
  source_unit "GVLs/GVL_Main.TcGVL" "GVL" "GVL_Main"
       (lines ["VAR_GLOBAL"; "    bReady : BOOL;"; "END_VAR"]).

(** A project with two manifests, each listing one file, and one source
    unit of each kind. *)
Definition two_manifests : Project :=
  mkProject
    [manifest "A.tsproj" ("POUs" ++ String backslash "FB_Motor.TcPOU");
     manifest "B.tsproj" "DUTs/ST_Point.TcDUT"]
    [motor_unit; point_unit; globals_unit].

(** The same with the manifests found in the other order. *)
Definition two_manifests_swapped : Project :=
  mkProject
    [manifest "B.tsproj" "DUTs/ST_Point.TcDUT";
     manifest "A.tsproj" ("POUs" ++ String backslash "FB_Motor.TcPOU")]
    [motor_unit; point_unit; globals_unit].

(** The three source units without manifest. *)
Definition three_units : Project :=
  mkProject [] [motor_unit; point_unit; globals_unit].

(** An input block that is not closed. *)
Definition unclosed_block : string :=
  lines ["FUNCTION_BLOCK FB_Motor"; "VAR_INPUT"; "    bStart : BOOL;"].

(** A structure that is not closed. *)
Definition unclosed_struct : string :=
  lines ["TYPE ST_Point :"; "STRUCT"; "    x : INT;"; "END_TYPE"].

(** A declaration without comment. *)
Definition plain_declaration : string :=
  lines ["PROGRAM MAIN"; "VAR"; "    nCount : INT;"; "END_VAR"].

End Samples.

(** * Declaration lines *)

Module Lines.

Import Re TwinCATParser Spec.

(** A declaration as the specification writes it on a line: a name, a
    colon, a type, and optionally a default after [:=] and a comment
    after two slashes. *)
Record Declaration : Type := mkDeclaration
  { d_name : string; d_type : string; d_default : option string;
    d_comment : option string }.

Definition or_empty (o : option string) : string :=
  match o with
  | Some s => s
  | None => EmptyString
  end.

(** The field that the specification expects of the declaration. *)
Definition decl_field (d : Declaration) : FieldInfo :=
  mkField (d_name d) (d_type d) (or_empty (d_default d))
          (or_empty (d_comment d)).

(** The front of a declaration: the name, the type and the default. *)
Definition decl_front (d : Declaration) : string :=
  d_name d ++ " : " ++ d_type d
  ++ match d_default d with Some v => " := " ++ v | None => EmptyString end.

(** The text of a declaration, one line, with or without semicolon. *)
Definition decl_text (semicolon : bool) (d : Declaration) : string :=
  decl_front d
  ++ (if semicolon then ";" else EmptyString)
  ++ match d_comment d with Some c => " // " ++ c | None => EmptyString end.

(** The groups that the pattern captures in the front of a declaration
    when the white space [e] follows it. *)
Definition front_groups (d : Declaration) (e : string) : caps :=
  match d_default d with
  | Some v => [(3, v ++ e); (2, d_type d ++ " "); (1, d_name d)]
  | None => [(2, d_type d ++ e); (1, d_name d)]
  end.

(** A part of a declaration: not empty, and without white space at its
    ends. *)
Definition plain (s : string) : bool :=
  Str.nonempty s && String.eqb (Str.strip s) s.

(** The declarations that the pattern can read: the name is made of word
    characters and is none of the keywords that are dropped; the type has
    no semicolon, colon or equals sign; the default has no semicolon;
    the comment stays on its line. *)
Definition well_formed_declaration (d : Declaration) : bool :=
  Str.nonempty (d_name d) && all Char.isword (d_name d)
  && negb (existsb (String.eqb (Str.upper (d_name d))) keywords)
  && plain (d_type d)
  && all (Char.noneof [";"; ":"; "="]%char) (d_type d)
  && match d_default d with
     | Some v => plain v && all (Char.noneof [";"]%char) v
     | None => true
     end
  && match d_comment d with
     | Some c => plain c && all Char.notnl c
     | None => true
     end.

(** A declaration on its line, and the white space that follows the line
    break: blank lines, the indentation of the next line. *)
Definition line : Type := (Declaration * string)%type.

Definition well_formed_line (l : line) : bool :=
  well_formed_declaration (fst l) && all Char.isspace (snd l).

Definition line_field (l : line) : FieldInfo := decl_field (fst l).

(** The text of lines of declarations, each with its semicolon. *)
Fixpoint lines_text (ls : list line) : string :=
  match ls with
  | [] => EmptyString
  | (d, after) :: ls' => decl_text true d ++ nl ++ after ++ lines_text ls'
  end.

(** The repetition of [p] stops in front of [s]. *)
Definition stops (p : ascii -> bool) (s : string) : bool :=
  match s with
  | String a _ => negb (p a)
  | EmptyString => true
  end.

(** What follows the lines of a block begins with no white space, which
    would belong to the last line, and with no comment. *)
Definition starts_line (rest : string) : bool :=
  stops Char.isspace rest
  && match eat Ascii.eqb "//" rest with
     | Some _ => false
     | None => true
     end.

(** The end of the pattern for declarations, behind the type or the
    default: white space, the semicolon if there is one, white space,
    and the comment if there is one. *)
Definition declaration_end : regex :=
  seq [Star true ws; opt (ch ";"); Star true ws;
       opt (seq [lit "//"; Star true ws; Group 4 (Star true Char.notnl)])].

(** The declaration of C3. *)
Definition counter_decl : Declaration :=
  mkDeclaration "nCount" "DINT" (Some "10") (Some "counter").

End Lines.

(** * Line comments *)

Module Comments.

Import Re TwinCATParser Spec.

(** A line comment in a text: what stands before the two slashes since
    the previous comment, the white space behind the slashes, and the
    comment up to the line break. *)
Record Comment : Type := mkComment
  { c_before : string; c_space : string; c_line : string }.

(** The text of the comment, with what stands before it and with its
    line break. *)
Definition comment_text (c : Comment) : string :=
  c_before c ++ "//" ++ c_space c ++ c_line c ++ nl.

(** The two slashes that open the comment are the first; the comment
    stands on their line, is not empty and opens with no white space. *)
Definition well_formed_comment (c : Comment) : bool :=
  first_after Ascii.eqb (c_before c) "//"
  && all Char.isspace (c_space c) && all Char.notnl (c_space c)
  && all Char.notnl (c_line c)
  && match c_line c with
     | String a _ => negb (Char.isspace a)
     | EmptyString => false
     end.

Fixpoint comments_text (cs : list Comment) : string :=
  match cs with
  | [] => EmptyString
  | c :: cs' => comment_text c ++ comments_text cs'
  end.

(** The record before the loop over the comment lines. *)
Definition first_doc_info (comment_lines : list string) : DocInfo :=
  mkDocInfo EmptyString EmptyString EmptyString EmptyString comment_lines.

End Comments.

(** * Properties *)

(** ** Characters and strings *)

Module StrFacts.

Import Str Spec.

Lemma push_app (u v : string) (acc : list ascii) :
  push (u ++ v) acc = push v (push u acc).
Proof.
  revert acc; induction u as [|a u IH]; intro acc; simpl; auto.
Qed.

Lemma push_rev (w : string) (acc : list ascii) :
  push w acc = (rev (list_ascii_of_string w) ++ acc)%list.
Proof.
  revert acc; induction w as [|a w IH]; intro acc; simpl; auto.
  rewrite IH, <- app_assoc; reflexivity.
Qed.

(** After [w] is consumed, the text since then is [w]. *)
Lemma text_since_push (w : string) (acc : list ascii) :
  Re.text_since acc (push w acc) = w.
Proof.
  unfold Re.text_since; rewrite push_rev.
  rewrite length_app, Nat.add_sub.
  rewrite firstn_app, Nat.sub_diag, firstn_all; simpl.
  rewrite app_nil_r, rev_involutive.
  apply string_of_list_ascii_of_string.
Qed.

Lemma append_assoc (u v w : string) : (u ++ v) ++ w = u ++ (v ++ w).
Proof. induction u as [|a u IH]; simpl; congruence. Qed.

Lemma length_append (u v : string) :
  String.length (u ++ v) = String.length u + String.length v.
Proof. induction u as [|a u IH]; simpl; congruence. Qed.

(** A white-space character is no word character, and none of the
    characters the patterns name. *)
Lemma isspace_not_word (a : ascii) :
  Char.isspace a = true -> Char.isword a = false.
Proof.
  destruct a as [[] [] [] [] [] [] [] []]; vm_compute; congruence.
Qed.

Lemma isspace_lower (a : ascii) :
  Char.isspace a = true -> Char.lower a = a.
Proof.
  destruct a as [[] [] [] [] [] [] [] []]; vm_compute; congruence.
Qed.

Lemma isspace_not_letter (x a : ascii) :
  Char.isspace (Char.lower x) = false -> Char.isspace a = true ->
  Char.eqb_nocase x a = false.
Proof.
  intros Hx Ha. unfold Char.eqb_nocase. rewrite (isspace_lower a Ha).
  destruct (Ascii.eqb_spec (Char.lower x) a); congruence.
Qed.

Lemma lstrip_split (s : string) :
  exists sp, s = sp ++ Str.lstrip s /\ all Char.isspace sp = true.
Proof.
  induction s as [|a s (sp & E & A)]; [exists EmptyString; auto|].
  cbn [Str.lstrip]. destruct (Char.isspace a) eqn:Ha.
  - exists (String a sp). cbn [append all]. rewrite Ha, A, <- E. auto.
  - exists EmptyString. auto.
Qed.

Lemma lstrip_head (s : string) (a : ascii) (t : string) :
  Str.lstrip s = String a t -> Char.isspace a = false.
Proof.
  induction s as [|b s IH]; [discriminate|]. cbn [Str.lstrip].
  destruct (Char.isspace b) eqn:Hb; [exact IH|]. intros [= -> _]. exact Hb.
Qed.

Lemma all_anychar (u : string) : all Char.anychar u = true.
Proof. induction u; simpl; auto. Qed.

(** *** Characters of a text *)

Lemma split1_two (sep : ascii) (s : string) :
  has_char sep s = true ->
  exists x y,
    Str.split1 sep s = [x; y] /\ s = x ++ String sep y
    /\ has_char sep x = false.
Proof.
  induction s as [|a s IH]; [discriminate|]. cbn [has_char Str.split1].
  destruct (Ascii.eqb_spec a sep) as [->|N].
  - intros _. exists EmptyString, s. auto.
  - cbn [orb]. intros H. destruct (IH H) as (x & y & E & -> & Hx).
    rewrite E. exists (String a x), y. cbn [append has_char].
    rewrite Hx. destruct (Ascii.eqb_spec a sep); [contradiction|]. auto.
Qed.

Lemma has_char_startswith (c : ascii) (s p : string) :
  Str.startswith s p = true -> has_char c p = true -> has_char c s = true.
Proof.
  revert s. induction p as [|x p IH]; intros s; [discriminate 2|].
  destruct s as [|a s]; [discriminate|]. cbn [Str.startswith has_char].
  intros H. apply andb_prop in H as [Ha Hs].
  apply Ascii.eqb_eq in Ha. subst x.
  destruct (Ascii.eqb a c); [reflexivity|]. cbn [orb]. apply IH, Hs.
Qed.

Lemma has_char_lstrip (c : ascii) (s : string) :
  has_char c (Str.lstrip s) = true -> has_char c s = true.
Proof.
  induction s as [|a s IH]; [auto|]. cbn [Str.lstrip].
  destruct (Char.isspace a); [|auto].
  intros H. cbn [has_char]. rewrite (IH H). apply orb_true_r.
Qed.

Lemma has_char_rstrip (c : ascii) (s : string) :
  has_char c (Str.rstrip s) = true -> has_char c s = true.
Proof.
  induction s as [|a s IH]; [auto|]. cbn [Str.rstrip has_char].
  destruct (Str.rstrip s) as [|b r].
  - destruct (Char.isspace a); [discriminate|]. cbn [has_char].
    rewrite orb_false_r. intros ->. reflexivity.
  - cbn [has_char] in *. destruct (Ascii.eqb a c); [reflexivity|].
    cbn [orb]. exact IH.
Qed.

Lemma lower_colon (a : ascii) :
  Ascii.eqb (Char.lower a) ":" = Ascii.eqb a ":".
Proof.
  destruct a as [[] [] [] [] [] [] [] []]; vm_compute; reflexivity.
Qed.

Lemma has_char_lower (s : string) :
  has_char ":" (Str.lower s) = has_char ":" s.
Proof.
  induction s as [|a s IH]; [reflexivity|].
  cbn [Str.lower Str.map has_char]. unfold Str.lower in IH.
  rewrite lower_colon, IH. reflexivity.
Qed.

(** *** Literal words *)

(** A failure on a text that is long enough is a failure whatever
    follows. *)
Lemma eat_none_app eq (w s t : string) :
  eat eq w s = None -> String.length w <= String.length s ->
  eat eq w (s ++ t) = None.
Proof.
  revert s; induction w as [|x w IH]; intros s; simpl; [discriminate|].
  destruct s as [|a s]; simpl; [lia|].
  destruct (eq x a); [|reflexivity].
  destruct (eat eq w s) as [[m r]|] eqn:E; [discriminate|].
  intros _ L. rewrite IH; auto. lia.
Qed.

Lemma length_but_last (w : string) :
  w <> EmptyString -> String.length w = S (String.length (but_last w)).
Proof.
  induction w as [|a w IH]; [congruence|]. intros _.
  destruct w as [|b w]; [reflexivity|].
  change (but_last (String a (String b w)))
    with (String a (but_last (String b w))).
  cbn [String.length] in *. rewrite IH; [reflexivity | discriminate].
Qed.

Lemma append_but_last (w : string) :
  w <> EmptyString -> exists a, w = but_last w ++ String a EmptyString.
Proof.
  induction w as [|a w IH]; [congruence|]. intros _.
  destruct w as [|b w]; [exists a; reflexivity|].
  destruct IH as [z Hz]; [discriminate|]. exists z.
  change (but_last (String a (String b w)))
    with (String a (but_last (String b w))).
  cbn [append]. rewrite <- Hz. reflexivity.
Qed.

Lemma occurs_suffix eq (w u t : string) :
  occurs eq w (u ++ t) = false -> occurs eq w t = false.
Proof.
  induction u as [|a u IH]; [auto|]. cbn [append occurs].
  destruct (eat eq w (String a (u ++ t))); [discriminate | exact IH].
Qed.

(** Before the first occurrence of a word the word is read nowhere. *)
Lemma absent_before_first eq (w pre rest : string) :
  w <> EmptyString ->
  first_after eq pre w = true ->
  absent eq w pre (w ++ rest).
Proof.
  intros Hw H. unfold first_after in H. apply negb_true_iff in H.
  destruct (append_but_last w Hw) as [z Hz].
  pose proof (length_but_last w Hw) as L.
  rewrite Hz at 2. rewrite append_assoc.
  generalize dependent (String z EmptyString ++ rest). intros t.
  induction pre as [|a pre IH]; cbn [absent]; [exact I|].
  cbn [append occurs] in H.
  destruct (eat eq w (String a (pre ++ but_last w))) eqn:E; [discriminate|].
  split; [|apply IH, H].
  change (String a pre ++ but_last w ++ t)
    with (String a (pre ++ but_last w ++ t)).
  rewrite <- append_assoc.
  change (String a ((pre ++ but_last w) ++ t))
    with (String a (pre ++ but_last w) ++ t).
  apply eat_none_app; [exact E|].
  cbn [String.length]. rewrite length_append. lia.
Qed.

(** *** Stripping and lower case *)

Lemma rstrip_split (s : string) :
  exists tl, s = Str.rstrip s ++ tl /\ all Char.isspace tl = true.
Proof.
  induction s as [|a s (tl & E & A)]; [exists EmptyString; auto|].
  cbn [Str.rstrip]. destruct (Str.rstrip s) as [|b r] eqn:R.
  - simpl in E. destruct (Char.isspace a) eqn:Ha.
    + exists (String a tl). cbn [append all]. rewrite Ha, A.
      split; [congruence | reflexivity].
    + exists tl. cbn [append]. split; [congruence | exact A].
  - exists tl. cbn [append] in *. split; [congruence | exact A].
Qed.

Lemma all_app (p : ascii -> bool) (u v : string) :
  all p (u ++ v) = all p u && all p v.
Proof.
  induction u as [|a u IH]; [reflexivity|]. cbn [append all].
  rewrite IH. apply andb_assoc.
Qed.

(** Every non-empty end of a text stripped on the right has a character
    that is no white space. *)
Lemma rstrip_ends (s u v : string) :
  Str.rstrip s = u ++ v -> v <> EmptyString -> all Char.isspace v = false.
Proof.
  revert u v. induction s as [|a s IH]; intros u v.
  - destruct u, v; simpl; congruence.
  - cbn [Str.rstrip]. destruct (Str.rstrip s) as [|b r] eqn:R.
    + destruct (Char.isspace a) eqn:Ha.
      * destruct u, v; simpl; congruence.
      * destruct u as [|x u].
        -- simpl. intros <- _. simpl. rewrite Ha. reflexivity.
        -- simpl. intros [= <- E] N. destruct u, v; simpl in E; congruence.
    + destruct u as [|x u].
      * simpl. intros <- _.
        pose proof (IH EmptyString (String b r) eq_refl
                       ltac:(discriminate)) as X.
        cbn [all] in *. rewrite X. apply andb_false_r.
      * simpl. intros [= <- E] N. eapply IH; eauto.
Qed.

Lemma rstrip_idem (s : string) : Str.rstrip (Str.rstrip s) = Str.rstrip s.
Proof.
  induction s as [|a s IH]; [reflexivity|]. cbn [Str.rstrip].
  destruct (Str.rstrip s) as [|b r] eqn:R.
  - destruct (Char.isspace a) eqn:Ha; [reflexivity|].
    cbn [Str.rstrip]. rewrite Ha. reflexivity.
  - cbn [Str.rstrip] in *. rewrite IH. reflexivity.
Qed.

Lemma strip_idem (s : string) : Str.strip (Str.strip s) = Str.strip s.
Proof.
  unfold Str.strip.
  assert (E : Str.lstrip (Str.rstrip (Str.lstrip s))
              = Str.rstrip (Str.lstrip s)).
  { destruct (Str.lstrip s) as [|a t] eqn:L; [reflexivity|].
    pose proof (lstrip_head s a t L) as Ha.
    cbn [Str.rstrip]. destruct (Str.rstrip t); rewrite ?Ha;
      cbn [Str.lstrip]; rewrite Ha; reflexivity. }
  rewrite E. apply rstrip_idem.
Qed.

Lemma absent_tail eq (w u v rest : string) :
  absent eq w (u ++ v) rest -> absent eq w v rest.
Proof.
  induction u as [|a u IH]; [auto|]. cbn [append absent]. intros [_ H].
  auto.
Qed.

Lemma lower_app (u v : string) :
  Str.lower (u ++ v) = Str.lower u ++ Str.lower v.
Proof.
  unfold Str.lower. induction u as [|a u IH]; [reflexivity|].
  cbn [append Str.map]. rewrite IH. reflexivity.
Qed.

Lemma isspace_of_lower (a : ascii) :
  Char.isspace (Char.lower a) = Char.isspace a.
Proof.
  destruct a as [[] [] [] [] [] [] [] []]; vm_compute; reflexivity.
Qed.

Lemma notnl_of_lower (a : ascii) :
  Char.notnl (Char.lower a) = Char.notnl a.
Proof.
  destruct a as [[] [] [] [] [] [] [] []]; vm_compute; reflexivity.
Qed.

Lemma all_lower (s : string) :
  all Char.notnl (Str.lower s) = all Char.notnl s
  /\ all (fun a => negb (Char.isspace a)) (Str.lower s)
     = all (fun a => negb (Char.isspace a)) s
  /\ has_char ":" (Str.lower s) = has_char ":" s.
Proof.
  unfold Str.lower. induction s as [|a s (I1 & I2 & I3)]; [auto|].
  cbn [Str.map all has_char].
  rewrite I1, I2, I3, notnl_of_lower, isspace_of_lower, lower_colon. auto.
Qed.

(** Stripping on the right leaves a front without white space. *)
Lemma rstrip_app_nonspace (p s : string) :
  all (fun a => negb (Char.isspace a)) p = true ->
  p <> EmptyString ->
  Str.rstrip (p ++ s) = p ++ Str.rstrip s.
Proof.
  induction p as [|a p IH]; [congruence|]. intros H _.
  cbn [all] in H. apply andb_prop in H as [Ha Hp].
  apply negb_true_iff in Ha. cbn [append Str.rstrip].
  destruct p as [|b p].
  - cbn [append]. destruct (Str.rstrip s); rewrite ?Ha; reflexivity.
  - rewrite IH; [|exact Hp|discriminate]. reflexivity.
Qed.

Lemma startswith_app (p s : string) : Str.startswith (p ++ s) p = true.
Proof.
  induction p as [|a p IH]; [destruct s; reflexivity|].
  cbn [append Str.startswith]. rewrite Ascii.eqb_refl. exact IH.
Qed.

Lemma split1_app (sep : ascii) (p s : string) :
  has_char sep p = false ->
  Str.split1 sep (p ++ String sep s) = [p; s].
Proof.
  induction p as [|a p IH]; cbn [append Str.split1 has_char].
  - rewrite Ascii.eqb_refl. reflexivity.
  - intros H. apply orb_false_elim in H as [Ha Hp].
    rewrite Ha, (IH Hp). reflexivity.
Qed.

End StrFacts.

(** ** The matcher *)

Module ReFacts.

Import Re Spec StrFacts.

Section Continuations.

Context {A : Type}.

Implicit Types (k : @kont A) (s u v : string) (acc : list ascii) (c : caps).

(** The matcher only applies its continuation. *)
Lemma star_greedy_ext p k1 k2 :
  (forall s acc c, k1 s acc c = k2 s acc c) ->
  forall s acc c, star_greedy p k1 s acc c = star_greedy p k2 s acc c.
Proof.
  intros E s; induction s as [|a s IH]; intros acc c; simpl.
  - apply E.
  - rewrite IH, E; reflexivity.
Qed.

Lemma star_lazy_ext p k1 k2 :
  (forall s acc c, k1 s acc c = k2 s acc c) ->
  forall s acc c, star_lazy p k1 s acc c = star_lazy p k2 s acc c.
Proof.
  intros E s; induction s as [|a s IH]; intros acc c; simpl.
  - rewrite E; reflexivity.
  - rewrite IH, E; reflexivity.
Qed.

(** A lazy repetition passes over a stretch of the subject on which the
    continuation fails whatever follows. *)
Lemma star_lazy_skip p q k c u :
  all p u = true -> all q u = true ->
  (forall a s acc, q a = true -> k (String a s) acc c = None) ->
  forall rest acc,
    star_lazy p k (u ++ rest) acc c = star_lazy p k rest (push u acc) c.
Proof.
  intros Hp Hq Hk. induction u as [|a u IH]; intros rest acc.
  - reflexivity.
  - simpl in Hp, Hq. apply andb_prop in Hp as [Hpa Hp].
    apply andb_prop in Hq as [Hqa Hq].
    change ((String a u) ++ rest) with (String a (u ++ rest)).
    simpl. rewrite (Hk a _ _ Hqa), Hpa. apply IH; assumption.
Qed.

Lemma star_lazy_kdead p k c u rest :
  all p u = true -> kdead k u rest c ->
  forall acc,
    star_lazy p k (u ++ rest) acc c = star_lazy p k rest (push u acc) c.
Proof.
  induction u as [|a u IH]; intros Hp D acc; [reflexivity|].
  cbn [all] in Hp. apply andb_prop in Hp as [Hpa Hp].
  cbn [kdead] in D. destruct D as [D0 D].
  cbn [append star_lazy push]. cbn [append] in D0.
  rewrite D0, Hpa. apply IH; assumption.
Qed.

(** A lazy repetition stops at the first place where the continuation
    succeeds; if the continuation succeeds once [u] is consumed, that
    place is in [u] or at its end. *)
Lemma star_lazy_reach p k c u v :
  all p u = true ->
  forall acc x,
    k v (push u acc) c = Some x ->
    exists u1 u2 y,
      u = u1 ++ u2
      /\ star_lazy p k (u ++ v) acc c = Some y
      /\ k (u2 ++ v) (push u1 acc) c = Some y.
Proof.
  induction u as [|a u IH]; intros Hp acc x Hx.
  - exists EmptyString, EmptyString, x. simpl in *.
    destruct v; simpl; rewrite Hx; auto.
  - simpl in Hp. apply andb_prop in Hp as [Hpa Hp].
    change ((String a u) ++ v) with (String a (u ++ v)).
    destruct (k (String a (u ++ v)) acc c) as [y|] eqn:Hk.
    + exists EmptyString, (String a u), y. simpl. rewrite Hk. auto.
    + destruct (IH Hp (a :: acc) x Hx) as (u1 & u2 & y & -> & Hs & Hy).
      exists (String a u1), u2, y. simpl. rewrite Hk, Hpa. auto.
Qed.

(** A greedy repetition over a stretch that ends where the class stops. *)
Lemma star_greedy_run p k c u :
  all p u = true ->
  forall rest acc x,
    star_greedy p k rest (push u acc) c = Some x ->
    star_greedy p k (u ++ rest) acc c = Some x.
Proof.
  induction u as [|a u IH]; intros Hp rest acc x Hx.
  - exact Hx.
  - simpl in Hp. apply andb_prop in Hp as [Hpa Hp].
    simpl. rewrite Hpa. rewrite (IH Hp _ _ _ Hx). reflexivity.
Qed.

End Continuations.

(** Matching a literal word is reading it. *)
Lemma rmatch_word {A : Type} eq (w : string) :
  forall s acc c (k : @kont A),
    rmatch (word eq w) s acc c k =
    match eat eq w s with
    | Some (m, r) => k r (push m acc) c
    | None => None
    end.
Proof.
  induction w as [|x w IH]; intros s acc c k.
  - reflexivity.
  - assert (E : rmatch (word eq (String x w)) s acc c k =
                rmatch (Seq (Chr (eq x)) (word eq w)) s acc c k).
    { destruct w; [|reflexivity]. simpl. destruct s; reflexivity. }
    rewrite E. simpl. destruct s as [|a s]; [reflexivity|].
    destruct (eq x a); [|reflexivity].
    rewrite IH. destruct (eat eq w s) as [[m r]|]; reflexivity.
Qed.

(** *** Scanning *)

Lemma dead_class (r : regex) (q : ascii -> bool) (u rest : string) :
  (forall a s, q a = true -> match_at r (String a s) = None) ->
  all q u = true -> dead r u rest.
Proof.
  intros Hq. induction u as [|a u IH]; simpl; [auto|].
  intros H. apply andb_prop in H as [Ha Hu]. split; auto.
Qed.

(** The scan and the search pass over a stretch without match. *)
Lemma scan_dead (r : regex) (u rest : string) :
  dead r u rest -> scan r (u ++ rest) 0 = scan r rest 0.
Proof.
  induction u as [|a u IH]; [reflexivity|].
  cbn [dead append]. intros [H D]. cbn [scan]. rewrite H. auto.
Qed.

Lemma search_dead (r : regex) (u rest : string) :
  dead r u rest -> search r (u ++ rest) = search r rest.
Proof.
  induction u as [|a u IH]; [reflexivity|].
  cbn [dead append]. intros [H D]. cbn [search]. rewrite H. auto.
Qed.

(** The scan passes over what is left of the previous match. *)
Lemma scan_pass (r : regex) (u rest : string) :
  scan r (u ++ rest) (String.length u) = scan r rest 0.
Proof. induction u as [|a u IH]; simpl; auto. Qed.

(** After a match with text [t], the scan goes on behind [t]. *)
Lemma scan_match (r : regex) (t rest : string) (m : mobj) :
  match_at r (t ++ rest) = Some m -> m_text m = t -> t <> EmptyString ->
  scan r (t ++ rest) 0 = m :: scan r rest 0.
Proof.
  intros H Ht Hne. destruct t as [|a t]; [congruence|].
  cbn [append] in *. cbn [scan]. rewrite H, Ht. cbn [String.length].
  rewrite Nat.sub_succ, Nat.sub_0_r, scan_pass. reflexivity.
Qed.

Lemma scan_head (r : regex) (s : string) (m : mobj) :
  match_at r s = Some m -> exists ms, scan r s 0 = m :: ms.
Proof. intros H. destruct s; cbn [scan]; rewrite H; eauto. Qed.

(** [re.search] finds the first match of [re.finditer]. *)
Lemma search_finditer (r : regex) (s : string) :
  search r s = hd_error (finditer r s).
Proof.
  unfold finditer. induction s as [|a s IH]; cbn [search scan].
  - destruct (match_at r EmptyString); reflexivity.
  - destruct (match_at r (String a s)); [reflexivity | exact IH].
Qed.

(** A pattern that begins with a word matches nowhere before the first
    occurrence of the word. *)
Lemma match_at_word eq (w : string) (r : regex) (s : string) :
  eat eq w s = None -> match_at (Seq (word eq w) r) s = None.
Proof.
  intros H. unfold match_at. cbn [rmatch]. rewrite rmatch_word, H.
  reflexivity.
Qed.

Lemma absent_dead eq (w : string) (r : regex) (u rest : string) :
  absent eq w u rest -> dead (Seq (word eq w) r) u rest.
Proof.
  induction u as [|a u IH]; cbn [absent dead]; [auto|].
  intros [H A]. split; [apply match_at_word, H | apply IH, A].
Qed.

Lemma dead_before_first eq (w : string) (r : regex) (pre rest : string) :
  w <> EmptyString ->
  first_after eq pre w = true ->
  dead (Seq (word eq w) r) pre (w ++ rest).
Proof.
  intros Hw H. apply absent_dead, absent_before_first; assumption.
Qed.

Lemma search_absent eq (w : string) (r : regex) (s : string) :
  occurs eq w s = false -> search (Seq (word eq w) r) s = None.
Proof.
  induction s as [|a s IH]; cbn [occurs search].
  - destruct (eat eq w EmptyString) eqn:E; [discriminate|]. intros _.
    rewrite (match_at_word _ _ _ _ E). reflexivity.
  - destruct (eat eq w (String a s)) eqn:E; [discriminate|]. intros H.
    rewrite (match_at_word _ _ _ _ E). auto.
Qed.

End ReFacts.

(** ** The groups of a match *)

Module GroupFacts.

Import Re Spec StrFacts ReFacts.

Section Results.

Context {A : Type}.

Implicit Types (k : @kont A).

Lemma star_greedy_result p k :
  forall s acc c x,
    star_greedy p k s acc c = Some x ->
    exists s' acc',
      k s' acc' c = Some x /\ List.length acc <= List.length acc'.
Proof.
  intros s; induction s as [|a s IH]; intros acc c x; simpl.
  - eauto.
  - destruct (p a); [|eauto].
    destruct (star_greedy p k s (a :: acc) c) eqn:E.
    + intros [= <-]. apply IH in E as (s' & acc' & E & L).
      exists s', acc'. split; [exact E|]. simpl in L. lia.
    + eauto.
Qed.

Lemma star_lazy_result p k :
  forall s acc c x,
    star_lazy p k s acc c = Some x ->
    exists s' acc',
      k s' acc' c = Some x /\ List.length acc <= List.length acc'.
Proof.
  intros s; induction s as [|a s IH]; intros acc c x; simpl.
  - destruct (k EmptyString acc c) eqn:E; [|discriminate].
    intros [= <-]; eauto.
  - destruct (k (String a s) acc c) eqn:E.
    + intros [= <-]; eauto.
    + destruct (p a); [|discriminate]. intros H.
      apply IH in H as (s' & acc' & H & L).
      exists s', acc'. split; [exact H|]. simpl in L. lia.
Qed.

(** A result of the matcher is a result of its continuation, on groups
    extended as the pattern says and after at least [minlen r] more
    characters. *)
Lemma rmatch_result r :
  forall k s acc c x,
    rmatch r s acc c k = Some x ->
    exists s' acc' c',
      k s' acc' c' = Some x /\ caps_after r c c'
      /\ List.length acc + minlen r <= List.length acc'.
Proof.
  induction r as [|p|r1 IH1 r2 IH2|r1 IH1 r2 IH2|g p|n r IH|];
    intros k s acc c x; simpl.
  - intros H. exists s, acc, c. repeat split; auto. lia.
  - destruct s as [|a s]; [discriminate|].
    destruct (p a); [|discriminate]. intros H.
    exists s, (a :: acc), c. repeat split; auto. simpl. lia.
  - intros H. apply IH1 in H as (s1 & acc1 & c1 & H & C1 & L1).
    apply IH2 in H as (s2 & acc2 & c2 & H & C2 & L2).
    exists s2, acc2, c2. repeat split; eauto. lia.
  - destruct (rmatch r1 s acc c k) eqn:E.
    + intros [= <-]. apply IH1 in E as (s1 & acc1 & c1 & H & C1 & L1).
      exists s1, acc1, c1. repeat split; auto. lia.
    + intros H. apply IH2 in H as (s1 & acc1 & c1 & H & C1 & L1).
      exists s1, acc1, c1. repeat split; auto. lia.
  - destruct g; intros H.
    + apply star_greedy_result in H as (s' & acc' & H & L).
      exists s', acc', c. repeat split; auto. lia.
    + apply star_lazy_result in H as (s' & acc' & H & L).
      exists s', acc', c. repeat split; auto. lia.
  - intros H. apply IH in H as (s1 & acc1 & c1 & H & C1 & L1).
    exists s1, acc1, ((n, text_since acc acc1) :: c1). repeat split; eauto.
  - destruct (at_end s); [|discriminate]. intros H.
    exists s, acc, c. repeat split; auto. lia.
Qed.

End Results.

Lemma match_at_caps (r : regex) (s : string) (m : mobj) :
  match_at r s = Some m -> caps_after r [] (m_groups m).
Proof.
  unfold match_at. intros H.
  apply rmatch_result in H as (s' & acc' & c' & H & C & _).
  unfold accept in H. injection H as <-. exact C.
Qed.

Lemma length_text_since (acc : list ascii) :
  String.length (text_since [] acc) = List.length acc.
Proof.
  unfold text_since. simpl. rewrite Nat.sub_0_r, firstn_all.
  rewrite <- (length_rev acc). generalize (rev acc). intros l.
  induction l as [|a l IH]; simpl; congruence.
Qed.

(** A match has at least [minlen r] characters. *)
Lemma match_at_length (r : regex) (s : string) (m : mobj) :
  match_at r s = Some m -> minlen r <= String.length (m_text m).
Proof.
  unfold match_at. intros H.
  apply rmatch_result in H as (s' & acc' & c' & H & _ & L).
  unfold accept in H. injection H as <-. cbn [m_text].
  rewrite length_text_since. simpl in L. exact L.
Qed.

(** No match of a pattern of the parser is empty: [scan] never has to
    deal with an empty match. *)
Lemma patterns_consume (r : regex) (s : string) (m : mobj) :
  In r patterns -> match_at r s = Some m -> m_text m <> EmptyString.
Proof.
  intros I H. apply match_at_length in H.
  assert (P : 0 < minlen r).
  { repeat (destruct I as [<-|I]; [vm_compute; lia|]). destruct I. }
  destruct (m_text m); [simpl in H; lia | discriminate].
Qed.

Lemma caps_after_word eq (w : string) (c c' : caps) :
  caps_after (word eq w) c c' -> c' = c.
Proof.
  revert c c'. induction w as [|x w IH]; intros c c'; [auto|].
  destruct w as [|y w]; [auto|].
  intros (c1 & -> & H). apply IH, H.
Qed.

(** Every match in a scan is a match at some place. *)
Lemma scan_matches (r : regex) (P : mobj -> Prop) :
  (forall s m, match_at r s = Some m -> P m) ->
  forall s skip, Forall P (scan r s skip).
Proof.
  intros H s. induction s as [|a s IH]; intros [|n]; cbn [scan]; auto.
  - destruct (match_at r EmptyString) eqn:E; auto. constructor; eauto.
  - destruct (match_at r (String a s)) eqn:E; auto. constructor; eauto.
Qed.

End GroupFacts.

(** ** The choice of files *)

Module ScannerFacts.

Import TwinCATParser Spec.

(** [sorted(set(l))] has the elements of [l], and is empty only when
    [l] is. *)
Lemma existsb_insert_sorted (q : string -> bool) (x : string)
      (l : list string) :
  existsb q (insert_sorted x l) = q x || existsb q l.
Proof.
  induction l as [|y l IH]; simpl; [reflexivity|].
  destruct (String.compare x y) eqn:E; simpl.
  - apply String.compare_eq_iff in E; subst y.
    destruct (q x); reflexivity.
  - reflexivity.
  - rewrite IH. destruct (q x), (q y); reflexivity.
Qed.

Lemma existsb_sorted_set (q : string -> bool) (l : list string) :
  existsb q (sorted_set l) = existsb q l.
Proof.
  induction l as [|x l IH]; simpl; [reflexivity|].
  rewrite existsb_insert_sorted, IH; reflexivity.
Qed.

Lemma insert_sorted_not_nil (x : string) (l : list string) :
  insert_sorted x l <> [].
Proof.
  destruct l as [|y l]; simpl; [discriminate|].
  destruct (String.compare x y); discriminate.
Qed.

Lemma sorted_set_nil (l : list string) : sorted_set l = [] <-> l = [].
Proof.
  split; [|intros ->; reflexivity].
  destruct l as [|x l]; [reflexivity|]. simpl. intros H.
  destruct (insert_sorted_not_nil _ _ H).
Qed.

(** The includes that the manifest reader collects are the entries of
    the manifests. *)
Lemma includes_entries (p : Project) :
  flat_map fst (List.map manifest_includes (project_files p))
  = manifest_entries p.
Proof.
  unfold manifest_entries. induction (project_files p) as [|proj l IH];
    simpl; [reflexivity|].
  rewrite IH. unfold manifest_includes.
  destruct (content proj); reflexivity.
Qed.

Lemma no_manifest_no_entries (p : Project) :
  ~ manifest_present p -> manifest_entries p = [].
Proof.
  unfold manifest_present, manifest_entries. intros H.
  induction (project_files p) as [|proj l IH]; simpl; [reflexivity|].
  destruct (content proj) as [root| |] eqn:E.
  - exfalso. apply H. exists proj, root. simpl; auto.
  - apply IH. intros (q & r & Hq & Hr). apply H. exists q, r. simpl; auto.
  - apply IH. intros (q & r & Hq & Hr). apply H. exists q, r. simpl; auto.
Qed.

End ScannerFacts.

(** ** The loops over the files *)

Module LoopFacts.

Import TwinCATParser Spec.

(** One turn of a loop appends the contribution of the file. *)
Lemma try_file_contribution {A : Type} kind
      (parse_file : SourceFile -> outcome (option A) * list log_record)
      (acc : list A * list log_record) (file : SourceFile) :
  try_file kind parse_file acc file
  = ((fst acc ++ fst (contribution kind parse_file file))%list,
     (snd acc ++ snd (contribution kind parse_file file))%list).
Proof.
  unfold contribution, try_file.
  destruct (parse_file file) as [[[info|]|e] l]; simpl;
    rewrite ?app_nil_r; reflexivity.
Qed.

(** The loop adds the contributions of the files one after the other:
    what a file adds does not depend on the files around it. *)
Lemma loop_contributions {A : Type} kind
      (parse_file : SourceFile -> outcome (option A) * list log_record)
      (files : list SourceFile) :
  forall acc,
    fold_left (try_file kind parse_file) files acc
    = ((fst acc
        ++ flat_map (fun f => fst (contribution kind parse_file f)) files)%list,
       (snd acc
        ++ flat_map (fun f => snd (contribution kind parse_file f)) files)%list).
Proof.
  induction files as [|f files IH]; intros [rs l]; simpl.
  - rewrite !app_nil_r; reflexivity.
  - rewrite IH, try_file_contribution. simpl.
    rewrite <- !app_assoc. reflexivity.
Qed.

End LoopFacts.

(** ** The extraction functions *)

Module ParserFacts.

Import Re TwinCATParser Spec Examples StrFacts ReFacts GroupFacts.

(** *** The patterns *)

Lemma struct_re_word :
  exists r, struct_re = Seq (word Char.eqb_nocase "STRUCT") r.
Proof. eexists. reflexivity. Qed.

Lemma comment_block_re_word :
  exists r, comment_block_re = Seq (word Ascii.eqb comment_open) r.
Proof. eexists. reflexivity. Qed.

Lemma comment_line_re_word :
  exists r, comment_line_re = Seq (word Ascii.eqb "//") r.
Proof. eexists. reflexivity. Qed.

(** A match of the pattern for declarations has groups 1 and 2. *)
Lemma var_pattern_groups (s : string) (m : mobj) :
  match_at var_pattern s = Some m ->
  exists g1 g2, group m 1 = Some g1 /\ group m 2 = Some g2.
Proof.
  intros H. apply match_at_caps in H. unfold group.
  unfold var_pattern, opt, plus, ch in H. cbn [seq caps_after] in H.
  repeat match goal with
         | H : exists _, _ |- _ => destruct H
         | H : _ /\ _ |- _ => destruct H
         | H : caps_after (lit _) _ _ |- _ => apply caps_after_word in H
         end.
  subst.
  repeat match goal with
         | H : _ \/ _ |- _ => destruct H
         | H : exists _, _ |- _ => destruct H
         | H : _ /\ _ |- _ => destruct H
         | H : caps_after (lit _) _ _ |- _ => apply caps_after_word in H
         end; subst;
    match goal with
    | H : m_groups m = _ |- _ => rewrite H
    end; cbn; eauto.
Qed.

(** A match of a pattern for blocks has group 1. *)
Lemma block_re_group (open_marker s : string) (m : mobj) :
  match_at (block_re open_marker) s = Some m ->
  exists g, group m 1 = Some g.
Proof.
  intros H. apply match_at_caps in H. unfold group.
  unfold block_re, lit_i in H. cbn [seq caps_after] in H.
  destruct H as (c1 & H1 & c2 & (c3 & g & -> & ->) & H).
  apply caps_after_word in H1, H. subst. rewrite H. cbn. eauto.
Qed.

(** A match of the structure pattern has group 1 and no other. *)
Lemma struct_match_group (s : string) (m : mobj) :
  match_at struct_re s = Some m -> exists g, m_groups m = [(1, g)].
Proof.
  intros H. apply match_at_caps in H. unfold struct_re in H.
  cbn [seq caps_after] in H.
  destruct H as (c1 & H1 & c2 & -> & c3 & (c4 & g & -> & ->) & H).
  apply caps_after_word in H1, H. subst. eauto.
Qed.

Lemma var_pattern_space (a : ascii) (s : string) :
  Char.isspace a = true -> match_at var_pattern (String a s) = None.
Proof.
  intros H. unfold match_at, var_pattern, plus. cbn [seq rmatch].
  rewrite (isspace_not_word a H). reflexivity.
Qed.

(** *** Labels *)

(** A line bears at most one label. *)
Lemma label_unique (l1 l2 : label) (line : string) :
  has_label l1 line = true -> has_label l2 line = true -> l1 = l2.
Proof.
  unfold has_label.
  destruct (Str.strip (Str.lower line)) as [|a [|b s]];
    [destruct l1; cbn; discriminate | |].
  - destruct l1; cbn [Str.startswith];
      rewrite ?andb_false_r; cbn; discriminate.
  - destruct l1, l2; try reflexivity; cbn [Str.startswith];
      repeat match goal with
             | |- context [Ascii.eqb ?x ?y] =>
                 is_var x; destruct (Ascii.eqb_spec x y); [subst x|];
                 cbn [andb orb]
             end;
      cbn; intros; discriminate.
Qed.

(** One turn of the loop sets the field of the label that the line bears
    to the stripped remainder after the first colon, and leaves the other
    fields. *)
Lemma doc_step_field (l : label) (d : DocInfo) (line : string) :
  field l (doc_step d line)
  = if has_label l line then label_value line else field l d.
Proof.
  destruct (has_label l line) eqn:H.
  - unfold doc_step.
    destruct l; unfold has_label in H; cbn [field].
    + rewrite H. reflexivity.
    + pose proof (label_unique Description Author line) as U.
      unfold has_label in U.
      destruct (_ || _); [specialize (U eq_refl H); discriminate|].
      rewrite H. reflexivity.
    + pose proof (label_unique Description Version line) as U.
      pose proof (label_unique Author Version line) as U'.
      unfold has_label in U, U'.
      destruct (_ || _); [specialize (U eq_refl H); discriminate|].
      destruct (Str.startswith _ "author:");
        [specialize (U' eq_refl H); discriminate|].
      rewrite H. reflexivity.
    + pose proof (label_unique Description Date line) as U.
      pose proof (label_unique Author Date line) as U'.
      pose proof (label_unique Version Date line) as U''.
      unfold has_label in U, U', U''.
      destruct (_ || _); [specialize (U eq_refl H); discriminate|].
      destruct (Str.startswith _ "author:");
        [specialize (U' eq_refl H); discriminate|].
      destruct (Str.startswith _ "version:");
        [specialize (U'' eq_refl H); discriminate|].
      rewrite H. reflexivity.
  - unfold doc_step.
    destruct l; unfold has_label in H; cbn [field];
      repeat match goal with
             | |- context [if ?b then _ else _] => destruct b
             end; try reflexivity; discriminate.
Qed.

(** After the loop a field holds the value of the last line that bears
    its label. *)
Lemma fold_doc_step_last (l : label) (before after : list string)
      (line : string) (d : DocInfo) :
  has_label l line = true ->
  forallb (fun x => negb (has_label l x)) after = true ->
  field l (fold_left doc_step (before ++ line :: after) d)
  = label_value line.
Proof.
  intros H N. rewrite fold_left_app. cbn [fold_left].
  generalize (fold_left doc_step before d). intros d'.
  assert (E : field l (doc_step d' line) = label_value line)
    by (rewrite doc_step_field, H; reflexivity).
  revert E. generalize (doc_step d' line).
  induction after as [|x after IH]; intros d0 E; [exact E|].
  cbn [forallb] in N. apply andb_prop in N as [Nx N].
  cbn [fold_left]. apply IH; [exact N|].
  rewrite doc_step_field. apply negb_true_iff in Nx. rewrite Nx. exact E.
Qed.

(** An empty line comment takes the next line for its text: the white
    space after the marker runs over the line break. *)
Lemma empty_comment_line :
  findall1 comment_line_re (lines ["//"; jane; "//"])
  = [jane; EmptyString].
Proof. vm_compute. reflexivity. Qed.

(** The author is set by the first pass alone. *)
Lemma author_first_pass (text : string) :
  author (_extract_documentation text)
  = author (fold_left doc_step (findall1 comment_line_re text)
                      (mkDocInfo EmptyString EmptyString EmptyString
                                 EmptyString (findall1 comment_line_re text))).
Proof.
  unfold _extract_documentation. cbn [description author version date].
  destruct (findall1 comment_block_re text); reflexivity.
Qed.

(** A line that bears a label has a colon: the index of [doc_step] into
    the result of [split] is in range, and the value is the stripped
    remainder after the first colon. *)
Lemma label_value_defined (l : label) (line : string) :
  has_label l line = true ->
  exists x y,
    Str.split1 ":" line = [x; y] /\ line = x ++ String ":" y
    /\ has_char ":" x = false /\ label_value line = Str.strip y.
Proof.
  intros H.
  assert (C : has_char ":" line = true).
  { rewrite <- has_char_lower. apply has_char_lstrip, has_char_rstrip.
    fold (Str.strip (Str.lower line)). unfold has_label in H.
    destruct l;
      [apply orb_prop in H as [H|H] | | |];
      eapply has_char_startswith; try exact H; reflexivity. }
  destruct (split1_two ":" line C) as (x & y & E & L & N).
  exists x, y. unfold label_value. rewrite E. auto.
Qed.

(** *** Variables *)

(** What the test of [_extract_variables] lets through. *)
Lemma kept_variable_name (f : FieldInfo) :
  keep_variable f = true ->
  name f <> EmptyString /\ ~ In (Str.upper (name f)) keywords.
Proof.
  unfold keep_variable. intros H. apply andb_prop in H as [H1 H2]. split.
  - intros E. rewrite E in H1. discriminate.
  - intros I. apply negb_true_iff in H2.
    assert (X : existsb (String.eqb (Str.upper (name f))) keywords = true).
    { apply existsb_exists. eexists. split; [exact I|apply String.eqb_refl]. }
    congruence.
Qed.

(** No field of [_extract_variables] has an empty name, nor one of the
    four words [VAR], [END_VAR], [VAR_INPUT], [VAR_OUTPUT] in any case. *)
Lemma extracted_variable_name (text : string) (is_global : bool)
      (f : FieldInfo) :
  In f (_extract_variables text is_global) ->
  name f <> EmptyString /\ ~ In (Str.upper (name f)) keywords.
Proof.
  unfold _extract_variables. intros H.
  apply in_flat_map in H as (block & _ & H).
  unfold block_variables in H. apply filter_In in H as [_ H].
  apply kept_variable_name, H.
Qed.

(** A match of a pattern for blocks: the open marker, then the lazy
    search of the closing marker. *)
Lemma match_at_block_re (open_marker s : string) :
  match_at (block_re open_marker) s
  = match eat Char.eqb_nocase open_marker s with
    | Some (m, r) =>
        star_lazy Char.anychar (block_end (push m [])) r (push m []) []
    | None => None
    end.
Proof.
  unfold match_at, block_re, lit_i. cbn [seq rmatch].
  rewrite rmatch_word.
  destruct (eat Char.eqb_nocase open_marker s) as [[m r]|]; [|reflexivity].
  apply star_lazy_ext. intros s' acc' c'. rewrite rmatch_word. reflexivity.
Qed.

Lemma block_end_space (acc0 : list ascii) (a : ascii) (s : string)
      (acc : list ascii) (c : caps) :
  Char.isspace a = true -> block_end acc0 (String a s) acc c = None.
Proof.
  intros H. unfold block_end. cbn [eat].
  rewrite (isspace_not_letter "E" a); [reflexivity | reflexivity | exact H].
Qed.

(** The first input block of a text that opens with white space and the
    line. *)
Lemma first_input_block (pre wsp body post : string) :
  first_after Char.eqb_nocase pre "VAR_INPUT" = true ->
  all Char.isspace wsp = true ->
  exists u bs,
    findall1 var_input_re
             (pre ++ "VAR_INPUT" ++ wsp ++ counter_line ++ nl ++ body
                  ++ "END_VAR" ++ post)
    = (wsp ++ counter_line ++ nl ++ u) :: bs.
Proof.
  intros Hpre Hws. unfold findall1, finditer.
  set (R := wsp ++ counter_line ++ nl ++ body ++ "END_VAR" ++ post).
  assert (D : dead var_input_re pre ("VAR_INPUT" ++ R)).
  { apply (dead_before_first Char.eqb_nocase "VAR_INPUT");
      [discriminate | exact Hpre]. }
  rewrite (scan_dead _ _ _ D).
  assert (M : exists m u,
             match_at var_input_re ("VAR_INPUT" ++ R) = Some m
             /\ m_groups m = [(1, wsp ++ counter_line ++ nl ++ u)]).
  { unfold var_input_re. rewrite match_at_block_re.
    change (eat Char.eqb_nocase "VAR_INPUT" ("VAR_INPUT" ++ R))
      with (Some ("VAR_INPUT", R)).
    set (acc0 := push "VAR_INPUT" []). unfold R.
    rewrite (star_lazy_skip Char.anychar Char.isspace);
      [| apply all_anychar | exact Hws
       | intros; apply block_end_space; assumption].
    change (counter_line ++ nl ++ body ++ "END_VAR" ++ post)
      with ((counter_line ++ nl) ++ (body ++ "END_VAR" ++ post)).
    rewrite star_lazy_kdead;
      [| apply all_anychar | repeat split; intros; reflexivity].
    edestruct (star_lazy_reach Char.anychar (block_end acc0) [] body
                               ("END_VAR" ++ post) (all_anychar body)
                               (push (counter_line ++ nl) (push wsp acc0)))
      as (u1 & u2 & y & Hb & Hs & Hy); [reflexivity|].
    exists y, u1. split; [exact Hs|].
    unfold block_end in Hy.
    destruct (eat Char.eqb_nocase "END_VAR" (u2 ++ "END_VAR" ++ post))
      as [[m' r']|]; [|discriminate].
    unfold accept in Hy. injection Hy as <-. cbn [m_groups].
    do 2 f_equal.
    change (text_since acc0
              (push u1 (push (counter_line ++ nl) (push wsp acc0)))
            = wsp ++ counter_line ++ nl ++ u1).
    rewrite <- !push_app, text_since_push, !append_assoc. reflexivity. }
  destruct M as (m & u & M & G).
  destruct (scan_head _ _ _ M) as [ms S]. rewrite S.
  exists u, (List.map (fun m0 => match group m0 1 with
                                 | Some g => g
                                 | None => EmptyString
                                 end) ms).
  cbn [List.map]. unfold group. rewrite G. reflexivity.
Qed.

(** The fields of a block that opens with white space and the line. *)
Lemma block_with_counter_line (wsp u : string) :
  all Char.isspace wsp = true ->
  exists fs,
    block_variables (wsp ++ counter_line ++ nl ++ u) = counter_field :: fs.
Proof.
  intros Hws. unfold block_variables, finditer.
  rewrite (scan_dead var_pattern wsp);
    [| apply (dead_class _ Char.isspace);
       [intros; apply var_pattern_space; assumption | exact Hws]].
  rewrite (scan_match var_pattern counter_line (nl ++ u)
                      (MObj counter_line
                            [(4, "counter"); (3, "10"); (2, "DINT ");
                             (1, "nCount")]));
    [| vm_compute; reflexivity | reflexivity | discriminate].
  eexists. reflexivity.
Qed.

(** *** Structures *)

(** The members are those of the first block that the pattern finds. *)
Lemma struct_members_first (text b : string) (bs : list string) :
  findall1 struct_re text = b :: bs ->
  _extract_struct_members text = struct_members b.
Proof.
  unfold _extract_struct_members, findall1. rewrite search_finditer.
  pose proof (scan_matches struct_re _ struct_match_group text 0) as F.
  fold (finditer struct_re text) in F.
  destruct (finditer struct_re text) as [|m ms]; [discriminate|].
  apply Forall_inv in F as [g G]. cbn [List.map hd_error].
  unfold group. rewrite G. cbn [lookup Nat.eqb]. intros [= <- _].
  reflexivity.
Qed.

(** A match of the pattern for structures: the open marker, the white
    space, then the lazy search of the closing marker. *)
Lemma match_at_struct_re (s : string) :
  match_at struct_re s
  = match eat Char.eqb_nocase "STRUCT" s with
    | Some (m, r) =>
        star_greedy ws
          (fun s1 acc1 c1 =>
             star_lazy Char.anychar (struct_end acc1) s1 acc1 c1)
          r (push m []) []
    | None => None
    end.
Proof.
  unfold match_at, struct_re, lit_i. cbn [seq rmatch].
  rewrite rmatch_word.
  destruct (eat Char.eqb_nocase "STRUCT" s) as [[m r]|]; [|reflexivity].
  apply star_greedy_ext. intros s1 acc1 c1.
  apply star_lazy_ext. intros s' acc' c'. rewrite rmatch_word. reflexivity.
Qed.

Lemma absent_kdead (acc0 : list ascii) (u rest : string) (c : caps) :
  absent Char.eqb_nocase "END_STRUCT" u rest ->
  kdead (struct_end acc0) u rest c.
Proof.
  induction u as [|a u IH]; cbn [absent kdead]; [auto|].
  intros [H A]. split; [|apply IH, A].
  intros acc. unfold struct_end. rewrite H. reflexivity.
Qed.

(** The first structure block of a text: its content, stripped on the
    left, is group 1 of what [re.search] finds, whatever follows the
    block. *)
Lemma first_struct_block (pre body rest : string) :
  first_after Char.eqb_nocase pre "STRUCT" = true ->
  first_after Char.eqb_nocase body "END_STRUCT" = true ->
  exists m,
    search struct_re (pre ++ "STRUCT" ++ body ++ "END_STRUCT" ++ rest)
    = Some m
    /\ m_groups m = [(1, Str.lstrip body)].
Proof.
  intros Hpre Hbody.
  destruct struct_re_word as [r R].
  assert (D : dead struct_re pre
                   ("STRUCT" ++ body ++ "END_STRUCT" ++ rest)).
  { rewrite R. apply absent_dead, absent_before_first;
      [discriminate | exact Hpre]. }
  rewrite (search_dead _ _ _ D).
  destruct (lstrip_split body) as (sp & E & Hsp).
  set (b := Str.lstrip body) in *.
  assert (Hb : first_after Char.eqb_nocase b "END_STRUCT" = true).
  { unfold first_after in *. apply negb_true_iff in Hbody.
    apply negb_true_iff. rewrite E, append_assoc in Hbody.
    eapply occurs_suffix, Hbody. }
  pose proof (absent_before_first Char.eqb_nocase "END_STRUCT" b rest
                ltac:(discriminate) Hb) as A.
  set (T := b ++ "END_STRUCT" ++ rest).
  set (acc0 := push "STRUCT" []).
  assert (K : star_lazy Char.anychar (struct_end (push sp acc0)) T
                        (push sp acc0) []
              = Some (MObj (text_since [] (push "END_STRUCT"
                                             (push b (push sp acc0))))
                           [(1, b)])).
  { unfold T. rewrite star_lazy_kdead;
      [| apply all_anychar | apply absent_kdead, A].
    assert (X : struct_end (push sp acc0) ("END_STRUCT" ++ rest)
                           (push b (push sp acc0)) []
                = Some (MObj (text_since [] (push "END_STRUCT"
                                               (push b (push sp acc0))))
                             [(1, b)])).
    { unfold struct_end.
      change (eat Char.eqb_nocase "END_STRUCT" ("END_STRUCT" ++ rest))
        with (Some ("END_STRUCT", rest)).
      unfold accept. rewrite text_since_push. reflexivity. }
    change ("END_STRUCT" ++ rest)
      with (String "E" ("ND_STRUCT" ++ rest)) in *.
    cbn [star_lazy]. rewrite X. reflexivity. }
  assert (M : match_at struct_re ("STRUCT" ++ body ++ "END_STRUCT" ++ rest)
              = Some (MObj (text_since [] (push "END_STRUCT"
                                             (push b (push sp acc0))))
                           [(1, b)])).
  { rewrite match_at_struct_re.
    change (eat Char.eqb_nocase "STRUCT"
                ("STRUCT" ++ body ++ "END_STRUCT" ++ rest))
      with (Some ("STRUCT", body ++ "END_STRUCT" ++ rest)).
    fold acc0. rewrite E, append_assoc. fold T.
    apply star_greedy_run; [exact Hsp|].
    assert (S : forall k acc c,
               @star_greedy mobj ws k T acc c = k T acc c).
    { intros k acc c. unfold T. destruct b as [|a t] eqn:Eb.
      - reflexivity.
      - cbn [append star_greedy]. unfold ws.
        rewrite (lstrip_head body a t Eb). reflexivity. }
    rewrite S. exact K. }
  exists (MObj (text_since [] (push "END_STRUCT" (push b (push sp acc0))))
               [(1, b)]).
  split; [|reflexivity].
  change ("STRUCT" ++ body ++ "END_STRUCT" ++ rest)
    with (String "S" ("TRUCT" ++ body ++ "END_STRUCT" ++ rest)) in *.
  cbn [search]. rewrite M. reflexivity.
Qed.

(** The members of a text are those of its first structure block. *)
Lemma first_struct_members (pre body rest : string) :
  first_after Char.eqb_nocase pre "STRUCT" = true ->
  first_after Char.eqb_nocase body "END_STRUCT" = true ->
  _extract_struct_members (pre ++ "STRUCT" ++ body ++ "END_STRUCT" ++ rest)
  = struct_members (Str.lstrip body).
Proof.
  intros Hpre Hbody.
  destruct (first_struct_block pre body rest Hpre Hbody) as (m & S & G).
  unfold _extract_struct_members, group. rewrite S, G. reflexivity.
Qed.

(** *** Comments *)

Lemma match_at_comment_block_re (s : string) :
  match_at comment_block_re s
  = match eat Ascii.eqb comment_open s with
    | Some (m, r) =>
        star_greedy ws
          (fun s1 acc1 c1 =>
             star_lazy Char.anychar
               (fun s2 acc2 c2 =>
                  star_greedy ws comment_end s2 acc2
                              ((1, text_since acc1 acc2) :: c2))
               s1 acc1 c1)
          r (push m []) []
    | None => None
    end.
Proof.
  unfold match_at, comment_block_re, lit. cbn [seq rmatch].
  rewrite rmatch_word.
  destruct (eat Ascii.eqb comment_open s) as [[m r]|]; [|reflexivity].
  apply star_greedy_ext. intros s1 acc1 c1.
  apply star_lazy_ext. intros s2 acc2 c2.
  apply star_greedy_ext. intros s3 acc3 c3.
  rewrite rmatch_word. reflexivity.
Qed.

(** White space and then the closing marker are not found where the
    marker is absent and a character that is no white space stands
    before it. *)
Lemma greedy_close_none (u rest : string) (acc : list ascii) (c : caps) :
  absent Ascii.eqb comment_close u rest ->
  all Char.isspace u = false ->
  star_greedy ws comment_end (u ++ rest) acc c = None.
Proof.
  revert acc. induction u as [|a u IH]; intros acc A N; [discriminate|].
  cbn [absent] in A. destruct A as [A0 A]. cbn [append] in A0.
  assert (C : comment_end (String a (u ++ rest)) acc c = None)
    by (unfold comment_end; rewrite A0; reflexivity).
  cbn [append star_greedy]. unfold ws at 1.
  cbn [all] in N. destruct (Char.isspace a); [|exact C].
  cbn [andb] in N. rewrite (IH _ A N). exact C.
Qed.

Lemma greedy_close_found (tl post : string) (acc : list ascii) (c : caps) :
  all Char.isspace tl = true ->
  star_greedy ws comment_end (tl ++ comment_close ++ post) acc c
  = Some (MObj (text_since [] (push comment_close (push tl acc))) c).
Proof.
  intros H. apply star_greedy_run; [exact H|]. reflexivity.
Qed.

(** The first block comment of a text: group 1 is its text, stripped. *)
Lemma first_comment_block (pre body post : string) :
  first_after Ascii.eqb pre comment_open = true ->
  first_after Ascii.eqb body comment_close = true ->
  exists bs,
    findall1 comment_block_re
             (pre ++ comment_open ++ body ++ comment_close ++ post)
    = Str.strip body :: bs.
Proof.
  intros Hpre Hbody. unfold findall1, finditer.
  destruct comment_block_re_word as [r R].
  assert (D : dead comment_block_re pre
                   (comment_open ++ body ++ comment_close ++ post)).
  { rewrite R. apply dead_before_first; [discriminate | exact Hpre]. }
  rewrite (scan_dead _ _ _ D).
  pose proof (absent_before_first Ascii.eqb comment_close body post
                ltac:(discriminate) Hbody) as A.
  destruct (lstrip_split body) as (sp & E & Hsp).
  destruct (rstrip_split (Str.lstrip body)) as (tl & E' & Htl).
  fold (Str.strip body) in E'. set (g := Str.strip body) in *.
  set (b := Str.lstrip body) in *.
  set (acc0 := push comment_open []).
  set (rest := comment_close ++ post) in *.
  assert (Ab : absent Ascii.eqb comment_close b rest).
  { rewrite E in A. eapply absent_tail, A. }
  assert (M : exists t,
             match_at comment_block_re (comment_open ++ body ++ rest)
             = Some (MObj t [(1, g)])).
  { rewrite match_at_comment_block_re.
    change (eat Ascii.eqb comment_open (comment_open ++ body ++ rest))
      with (Some (comment_open, body ++ rest)).
    fold acc0. rewrite E, append_assoc.
    eexists. apply star_greedy_run; [exact Hsp|].
    set (acc1 := push sp acc0).
    set (K := fun s2 acc2 c2 =>
                star_greedy ws comment_end s2 acc2
                            ((1, text_since acc1 acc2) :: c2)).
    assert (L : star_lazy Char.anychar K (b ++ rest) acc1 []
                = Some (MObj (text_since [] (push comment_close
                                               (push tl (push g acc1))))
                             [(1, g)])).
    { rewrite E', append_assoc.
      rewrite star_lazy_kdead; [| apply all_anychar |].
      - assert (X : K (tl ++ rest) (push g acc1) []
                    = Some (MObj (text_since [] (push comment_close
                                                   (push tl (push g acc1))))
                                 [(1, g)])).
        { unfold K, rest. rewrite greedy_close_found; [|exact Htl].
          rewrite text_since_push. reflexivity. }
        destruct (tl ++ rest); cbn [star_lazy]; rewrite X; reflexivity.
      - rewrite E' in Ab.
        assert (P : forall u v, g = u ++ v -> v <> EmptyString ->
                                all Char.isspace v = false).
        { intros u v H. apply (rstrip_ends (Str.lstrip body) u v).
          exact H. }
        clear -P Ab. revert P Ab. generalize g. intros h.
        induction h as [|a h IH]; intros P Ab; [exact I|].
        cbn [kdead]. split.
        + intros acc. unfold K. rewrite <- append_assoc.
          apply greedy_close_none; [exact Ab|].
          rewrite all_app. rewrite (P EmptyString (String a h) eq_refl);
            [reflexivity | discriminate].
        + apply IH.
          * intros u v H. apply (P (String a u) v). simpl. congruence.
          * cbn [append absent] in Ab. apply Ab. }
    destruct (b ++ rest) as [|x T] eqn:EB.
    - cbn [star_greedy]. exact L.
    - cbn [star_greedy]. unfold ws at 1.
      assert (Hx : Char.isspace x = false).
      { destruct b as [|y b'] eqn:Eb.
        - unfold rest, comment_close in EB. simpl in EB.
          injection EB as <- _. reflexivity.
        - simpl in EB. injection EB as <- _.
          apply (lstrip_head body y b'). exact Eb. }
      rewrite Hx. exact L. }
  destruct M as (t & M).
  destruct (scan_head _ _ _ M) as [ms S]. rewrite S.
  eexists. cbn [List.map]. reflexivity.
Qed.

(** A comment line that opens with the author's label in any case: it
    bears the label, and its value is what follows, stripped. *)
Lemma author_line (lbl value : string) :
  Str.lower lbl = "author:" ->
  has_label Author (lbl ++ value) = true
  /\ label_value (lbl ++ value) = Str.strip value
  /\ all Char.notnl lbl = true
  /\ exists a t, lbl = String a t /\ Char.isspace a = false.
Proof.
  intros H.
  pose proof (all_lower lbl) as (N & S & C). rewrite H in N, S, C.
  assert (L : exists p, lbl = p ++ String ":" EmptyString
                        /\ has_char ":" p = false).
  { clear N S. revert H C. unfold Str.lower.
    destruct lbl as [|x1 [|x2 [|x3 [|x4 [|x5 [|x6 [|x7 [|x8 t]]]]]]]];
      try discriminate.
    cbn [Str.map]. intros [= H1 H2 H3 H4 H5 H6 H7] _.
    exists (String x1 (String x2 (String x3 (String x4 (String x5
              (String x6 EmptyString)))))).
    assert (E : x7 = ":"%char).
    { apply Ascii.eqb_eq. rewrite <- lower_colon, H7. reflexivity. }
    subst x7. split; [reflexivity|]. cbn [has_char].
    rewrite <- (lower_colon x1), <- (lower_colon x2), <- (lower_colon x3),
      <- (lower_colon x4), <- (lower_colon x5), <- (lower_colon x6).
    rewrite H1, H2, H3, H4, H5, H6. reflexivity. }
  destruct L as (p & Lp & Hp).
  split; [|split; [|split]].
  - unfold has_label. rewrite lower_app, H. unfold Str.strip.
    change (Str.lstrip ("author:" ++ Str.lower value))
      with ("author:" ++ Str.lower value).
    rewrite rstrip_app_nonspace; [|reflexivity|discriminate].
    apply startswith_app.
  - unfold label_value. rewrite Lp, append_assoc.
    change (String ":" EmptyString ++ value) with (String ":" value).
    rewrite (split1_app ":" p value Hp). reflexivity.
  - symmetry. rewrite <- N. reflexivity.
  - destruct lbl as [|a t]; [discriminate|]. exists a, t.
    split; [reflexivity|]. cbn [all] in S.
    destruct (Char.isspace a); [discriminate S | reflexivity].
Qed.

Lemma match_at_comment_line_re (s : string) :
  match_at comment_line_re s
  = match eat Ascii.eqb "//" s with
    | Some (m, r) =>
        star_greedy ws
          (fun s1 acc1 c1 =>
             star_greedy Char.notnl
               (fun s2 acc2 c2 =>
                  accept s2 acc2 ((1, text_since acc1 acc2) :: c2))
               s1 acc1 c1)
          r (push m []) []
    | None => None
    end.
Proof.
  unfold match_at, comment_line_re, lit. cbn [seq rmatch].
  rewrite rmatch_word.
  destruct (eat Ascii.eqb "//" s) as [[m r]|]; reflexivity.
Qed.

(** The first line comment of a text, when it does not open with white
    space and ends its line: its text is a comment line, and the scan
    goes on behind the line. *)
Lemma first_comment_line (pre sp line post : string) :
  first_after Ascii.eqb pre "//" = true ->
  all Char.isspace sp = true ->
  all Char.notnl line = true ->
  (exists a t, line = String a t /\ Char.isspace a = false) ->
  findall1 comment_line_re (pre ++ "//" ++ sp ++ line ++ nl ++ post)
  = line :: findall1 comment_line_re post.
Proof.
  intros Hpre Hsp Hline (a & t & El & Ha). unfold findall1, finditer.
  destruct comment_line_re_word as [r R].
  assert (D : dead comment_line_re pre
                   ("//" ++ sp ++ line ++ nl ++ post)).
  { rewrite R. apply dead_before_first; [discriminate | exact Hpre]. }
  rewrite (scan_dead _ _ _ D).
  set (acc0 := push "//" []).
  assert (M : match_at comment_line_re
                       (("//" ++ sp ++ line) ++ nl ++ post)
              = Some (MObj ("//" ++ sp ++ line) [(1, line)])).
  { rewrite match_at_comment_line_re.
    change (("//" ++ sp ++ line) ++ nl ++ post)
      with ("//" ++ (sp ++ line) ++ nl ++ post).
    change (eat Ascii.eqb "//" ("//" ++ (sp ++ line) ++ nl ++ post))
      with (Some ("//", (sp ++ line) ++ nl ++ post)).
    fold acc0. rewrite append_assoc.
    apply star_greedy_run; [exact Hsp|].
    assert (G : star_greedy Char.notnl
                  (fun s2 acc2 c2 =>
                     accept s2 acc2
                            ((1, text_since (push sp acc0) acc2) :: c2))
                  (line ++ nl ++ post) (push sp acc0) []
                = Some (MObj ("//" ++ sp ++ line) [(1, line)])).
    { apply star_greedy_run; [exact Hline|].
      change (nl ++ post) with (String Char.LF post).
      cbn [star_greedy]. change (Char.notnl Char.LF) with false.
      unfold accept. rewrite text_since_push. do 2 f_equal.
      unfold acc0. rewrite <- !push_app.
      change [] with (push EmptyString []) at 1.
      rewrite text_since_push. reflexivity. }
    rewrite El in *. cbn [append star_greedy]. unfold ws at 1.
    rewrite Ha. exact G. }
  change ("//" ++ sp ++ line ++ nl ++ post)
    with ("//" ++ (sp ++ line ++ nl ++ post)).
  rewrite <- (append_assoc sp), <- (append_assoc "//").
  rewrite (scan_match _ _ _ _ M); [|reflexivity|discriminate].
  change (nl ++ post) with (String Char.LF post). cbn [scan].
  change (match_at comment_line_re (String Char.LF post)) with (@None mobj).
  reflexivity.
Qed.

End ParserFacts.

(** ** The texts and the groups of a match *)

Module LanguageFacts.

Import Re Spec Shape StrFacts ReFacts.

Section Sound.

Context {A : Type}.

Implicit Types (k : @kont A).

Lemma star_greedy_sound p k :
  forall s acc c x,
    star_greedy p k s acc c = Some x ->
    exists w s',
      s = w ++ s' /\ all p w = true /\ k s' (push w acc) c = Some x.
Proof.
  intros s; induction s as [|a s IH]; intros acc c x; cbn [star_greedy].
  - intros H. exists EmptyString, EmptyString. auto.
  - destruct (p a) eqn:P.
    + destruct (star_greedy p k s (a :: acc) c) eqn:E.
      * intros [= <-]. apply IH in E as (w & s' & -> & W & K).
        exists (String a w), s'. cbn. rewrite P, W. auto.
      * intros H. exists EmptyString, (String a s). auto.
    + intros H. exists EmptyString, (String a s). auto.
Qed.

(** A lazy repetition stops at the first place where what follows
    succeeds. *)
Lemma star_lazy_sound p k :
  forall s acc c x,
    star_lazy p k s acc c = Some x ->
    exists w s',
      s = w ++ s' /\ all p w = true /\ k s' (push w acc) c = Some x
      /\ forall u v, w = u ++ v -> v <> EmptyString ->
                     k (v ++ s') (push u acc) c = None.
Proof.
  intros s; induction s as [|a s IH]; intros acc c x; cbn [star_lazy].
  - destruct (k EmptyString acc c) eqn:E; [|discriminate].
    intros [= <-]. exists EmptyString, EmptyString.
    repeat split; auto. intros [|b u] v; cbn; [|discriminate].
    intros <- N. destruct N; reflexivity.
  - destruct (k (String a s) acc c) eqn:E.
    + intros [= <-]. exists EmptyString, (String a s).
      repeat split; auto. intros [|b u] v; cbn; [|discriminate].
      intros <- N. destruct N; reflexivity.
    + destruct (p a) eqn:P; [|discriminate]. intros H.
      apply IH in H as (w & s' & -> & W & K & F).
      exists (String a w), s'. cbn [all append push]. rewrite P, W.
      repeat split; auto. intros [|b u] v; cbn [append push].
      * intros <- _. exact E.
      * intros [= <- ->] N. apply F; auto.
Qed.

(** A result of the matcher is a result of its continuation after a text
    of the pattern, with the groups that the pattern sets. *)
Lemma rmatch_sound r :
  forall k s acc c x,
    rmatch r s acc c k = Some x ->
    exists w s' c',
      s = w ++ s' /\ lang r w /\ caps_lang r c c'
      /\ k s' (push w acc) c' = Some x.
Proof.
  induction r as [|p|r1 IH1 r2 IH2|r1 IH1 r2 IH2|g p|n r IH|];
    intros k s acc c x; cbn [rmatch lang caps_lang].
  - intros H. exists EmptyString, s, c. auto.
  - destruct s as [|a s]; [discriminate|].
    destruct (p a) eqn:P; [|discriminate]. intros H.
    exists (String a EmptyString), s, c. repeat split; eauto.
  - intros H. apply IH1 in H as (w1 & s1 & c1 & -> & L1 & C1 & H).
    apply IH2 in H as (w2 & s2 & c2 & -> & L2 & C2 & H).
    exists (w1 ++ w2), s2, c2. rewrite append_assoc, push_app.
    repeat split; eauto.
  - destruct (rmatch r1 s acc c k) eqn:E.
    + intros [= <-]. apply IH1 in E as (w & s' & c' & -> & L & C & H).
      exists w, s', c'. auto.
    + intros H. apply IH2 in H as (w & s' & c' & -> & L & C & H).
      exists w, s', c'. auto.
  - destruct g; intros H.
    + apply star_greedy_sound in H as (w & s' & -> & W & H).
      exists w, s', c. auto.
    + apply star_lazy_sound in H as (w & s' & -> & W & H & _).
      exists w, s', c. auto.
  - intros H. apply IH in H as (w & s' & c' & -> & L & C & H).
    rewrite text_since_push in H.
    exists w, s', ((n, w) :: c'). repeat split; eauto.
  - destruct (at_end s); [|discriminate]. intros H.
    exists EmptyString, s, c. auto.
Qed.

End Sound.

(** A match is a text of the pattern at the head of the subject. *)
Lemma match_at_sound (r : regex) (s : string) (m : mobj) :
  match_at r s = Some m ->
  lang r (m_text m) /\ caps_lang r [] (m_groups m)
  /\ exists rest, s = m_text m ++ rest.
Proof.
  unfold match_at. intros H.
  apply rmatch_sound in H as (w & s' & c' & -> & L & C & H).
  unfold accept in H. rewrite text_since_push in H. injection H as <-.
  cbn [m_text m_groups]. eauto.
Qed.

Lemma caps_lang_word eq (w : string) (c c' : caps) :
  caps_lang (word eq w) c c' -> c' = c.
Proof.
  revert c c'. induction w as [|x w IH]; intros c c'; [auto|].
  destruct w as [|y w]; [auto|].
  intros (c1 & -> & H). apply IH, H.
Qed.

(** A text of a literal word reads as the word. *)
Lemma lang_word eq (w t rest : string) :
  lang (word eq w) t -> eat eq w (t ++ rest) = Some (t, rest).
Proof.
  revert t. induction w as [|x w IH]; intros t.
  - cbn. intros ->. reflexivity.
  - destruct w as [|y w].
    + cbn. intros (a & -> & E). cbn. rewrite E. reflexivity.
    + cbn [word lang]. intros (u & v & -> & (a & -> & E) & L).
      change (eat eq (String x (String y w))
                  ((String a EmptyString ++ v) ++ rest))
        with (if eq x a
              then match eat eq (String y w) (v ++ rest) with
                   | Some (m, r) => Some (String a m, r)
                   | None => None
                   end
              else None).
      rewrite E, (IH v L). reflexivity.
Qed.

(** Reading goes on as it did when text is added at the end. *)
Lemma eat_app eq (w s t m r : string) :
  eat eq w s = Some (m, r) -> eat eq w (s ++ t) = Some (m, r ++ t).
Proof.
  revert s m. induction w as [|x w IH]; intros s m; cbn.
  - intros [= <- <-]. reflexivity.
  - destruct s as [|a s]; [discriminate|]. cbn.
    destruct (eq x a); [|discriminate].
    destruct (eat eq w s) as [[m' r']|] eqn:E; [|discriminate].
    intros [= <- <-]. rewrite (IH _ _ E). reflexivity.
Qed.

(** A word read somewhere in a text occurs in it. *)
Lemma occurs_at eq (w u v : string) (x : string * string) :
  eat eq w v = Some x -> occurs eq w (u ++ v) = true.
Proof.
  intros H. induction u as [|a u IH].
  - cbn [append]. destruct v; cbn [occurs]; rewrite H; reflexivity.
  - cbn [append occurs]. rewrite IH.
    destruct (eat eq w (String a (u ++ v))); reflexivity.
Qed.

(** A word that is read at no place of [u] when [t] follows does not
    occur in [u]. *)
Lemma occurs_nowhere eq (w u t : string) :
  w <> EmptyString ->
  (forall u1 u2, u = u1 ++ u2 -> u2 <> EmptyString ->
                 eat eq w (u2 ++ t) = None) ->
  occurs eq w u = false.
Proof.
  intros N. induction u as [|a u IH]; intros H.
  - destruct w; [destruct N; reflexivity | reflexivity].
  - cbn [occurs].
    destruct (eat eq w (String a u)) as [[m r]|] eqn:E.
    + assert (D : String a u <> EmptyString) by discriminate.
      specialize (H EmptyString (String a u) eq_refl D).
      rewrite (eat_app _ _ _ t _ _ E) in H. discriminate H.
    + apply IH. intros u1 u2 -> N2.
      apply (H (String a u1) u2); auto.
Qed.

(** Without an occurrence of a word in the text, a pattern whose matches
    hold the word finds nothing. *)
Lemma scan_without (r : regex) eq (w : string) :
  (forall s m, match_at r s = Some m -> occurs eq w s = true) ->
  forall s skip, occurs eq w s = false -> scan r s skip = [].
Proof.
  intros H s. induction s as [|a s IH]; intros skip O.
  - destruct skip; cbn [scan]; [|reflexivity].
    destruct (match_at r EmptyString) eqn:E; [|reflexivity].
    apply H in E. congruence.
  - assert (O' : occurs eq w s = false)
      by (apply (occurs_suffix eq w (String a EmptyString) s); exact O).
    destruct skip; cbn [scan]; [|auto].
    destruct (match_at r (String a s)) eqn:E; [|auto].
    apply H in E. congruence.
Qed.

End LanguageFacts.

(** ** The fields of a declaration *)

Module FieldFacts.

Import Re TwinCATParser Spec Shape StrFacts ReFacts GroupFacts LanguageFacts.

Lemma all_lstrip (p : ascii -> bool) (s : string) :
  all p s = true -> all p (Str.lstrip s) = true.
Proof.
  induction s as [|a s IH]; cbn [Str.lstrip]; [auto|].
  destruct (Char.isspace a); [|auto].
  cbn [all]. intros H. apply andb_true_iff in H. tauto.
Qed.

Lemma all_rstrip (p : ascii -> bool) (s : string) :
  all p s = true -> all p (Str.rstrip s) = true.
Proof.
  induction s as [|a s IH]; cbn [Str.rstrip all]; [auto|].
  intros H. apply andb_true_iff in H as [Ha Hs]. specialize (IH Hs).
  destruct (Str.rstrip s) as [|b r].
  - destruct (Char.isspace a); cbn [all]; [reflexivity|].
    rewrite Ha. reflexivity.
  - cbn [all] in *. rewrite Ha. exact IH.
Qed.

Lemma all_strip (p : ascii -> bool) (s : string) :
  all p s = true -> all p (Str.strip s) = true.
Proof. intros H. apply all_rstrip, all_lstrip, H. Qed.

Lemma has_char_strip (c : ascii) (s : string) :
  has_char c s = false -> has_char c (Str.strip s) = false.
Proof.
  intros H. destruct (has_char c (Str.strip s)) eqn:E; [|reflexivity].
  apply has_char_rstrip, has_char_lstrip in E. congruence.
Qed.

(** Stripping a text without white space changes nothing. *)
Lemma strip_no_space (s : string) :
  all (fun a => negb (Char.isspace a)) s = true -> Str.strip s = s.
Proof.
  unfold Str.strip. intros H.
  assert (L : Str.lstrip s = s).
  { destruct s as [|a s]; [reflexivity|]. cbn [all] in H.
    apply andb_true_iff in H as [Ha _]. cbn [Str.lstrip].
    destruct (Char.isspace a); [discriminate Ha | reflexivity]. }
  rewrite L. clear L. induction s as [|a s IH]; [reflexivity|].
  cbn [all] in H. apply andb_true_iff in H as [Ha Hs].
  cbn [Str.rstrip]. rewrite (IH Hs).
  destruct s; [|reflexivity].
  destruct (Char.isspace a); [discriminate Ha | reflexivity].
Qed.

Lemma all_implies (p q : ascii -> bool) (s : string) :
  (forall a, p a = true -> q a = true) -> all p s = true -> all q s = true.
Proof.
  intros I. induction s as [|a s IH]; cbn [all]; [auto|].
  intros H. apply andb_true_iff in H as [Ha Hs].
  rewrite (I a Ha), (IH Hs). reflexivity.
Qed.

Lemma all_has_char (p : ascii -> bool) (c : ascii) (s : string) :
  p c = false -> all p s = true -> has_char c s = false.
Proof.
  intros P. induction s as [|a s IH]; cbn [all has_char]; [auto|].
  intros H. apply andb_true_iff in H as [Ha Hs]. rewrite (IH Hs).
  destruct (Ascii.eqb_spec a c) as [->|]; [congruence | reflexivity].
Qed.

Lemma isword_not_space (a : ascii) :
  Char.isword a = true -> negb (Char.isspace a) = true.
Proof.
  intros H. destruct (Char.isspace a) eqn:E; [|reflexivity].
  rewrite (isspace_not_word a E) in H. discriminate H.
Qed.

(** A text of [p+] is not empty and is made of characters of [p]. *)
Lemma lang_plus (p : ascii -> bool) (g : string) :
  lang (plus p) g -> g <> EmptyString /\ all p g = true.
Proof.
  cbn. intros (u & v & -> & (a & -> & P) & V). cbn.
  rewrite P, V. split; [discriminate | reflexivity].
Qed.

Lemma caps_lang_plus (p : ascii -> bool) (c c' : caps) :
  caps_lang (plus p) c c' -> c' = c.
Proof. cbn. intros (c1 & -> & ->). reflexivity. Qed.

Lemma stripped_strip (s : string) : stripped (Str.strip s).
Proof. apply strip_idem. Qed.

(** The groups of a match of the pattern for declarations: the name, the
    type, and the default and the comment when they are there. *)
Lemma var_pattern_shape (s : string) (m : mobj) :
  match_at var_pattern s = Some m ->
  exists g1 g2,
    group m 1 = Some g1 /\ group m 2 = Some g2
    /\ (g1 <> EmptyString /\ all Char.isword g1 = true)
    /\ all (Char.noneof [";"; ":"; "="]%char) g2 = true
    /\ match group m 3 with
       | Some g3 => all (Char.noneof [";"]%char) g3 = true
       | None => True
       end
    /\ match group m 4 with
       | Some g4 => all Char.notnl g4 = true
       | None => True
       end.
Proof.
  intros H. apply match_at_sound in H as (_ & H & _). unfold group.
  unfold var_pattern, opt, ch in H. cbn [seq caps_lang] in H.
  repeat match goal with
         | H : exists _, _ |- _ => destruct H
         | H : _ /\ _ |- _ => destruct H
         | H : caps_lang (lit _) _ _ |- _ => apply caps_lang_word in H
         | H : caps_lang (plus _) _ _ |- _ => apply caps_lang_plus in H
         | H : lang (plus _) _ |- _ => apply lang_plus in H
         end.
  subst.
  repeat match goal with
         | H : _ \/ _ |- _ => destruct H
         | H : exists _, _ |- _ => destruct H
         | H : _ /\ _ |- _ => destruct H
         | H : caps_lang (lit _) _ _ |- _ => apply caps_lang_word in H
         | H : caps_lang (plus _) _ _ |- _ => apply caps_lang_plus in H
         | H : lang (plus _) _ |- _ => apply lang_plus in H
         end; subst;
    match goal with
    | H : m_groups m = _ |- _ => rewrite H
    end; cbn [lookup Nat.eqb]; eexists _, _; repeat split; eauto.
Qed.

(** Every field made of a match of the pattern is well formed. *)
Lemma field_of_match_well_formed (s : string) (m : mobj) :
  match_at var_pattern s = Some m -> well_formed (field_of_match m).
Proof.
  intros H.
  destruct (var_pattern_shape s m H) as (g1 & g2 & G1 & G2 & [N W] & T & D & C).
  unfold well_formed, field_of_match, group_strip, group_strip_or_empty.
  cbn [name type default comment]. rewrite G1, G2.
  assert (S1 : Str.strip g1 = g1).
  { apply strip_no_space. revert W. apply all_implies, isword_not_space. }
  rewrite S1. split; [split; assumption|].
  split; [split; [apply all_strip, T | apply stripped_strip]|].
  split.
  - destruct (group m 3) as [g3|]; [|split; reflexivity].
    destruct (Str.nonempty g3); [|split; reflexivity].
    split; [|apply stripped_strip].
    apply has_char_strip. revert D. apply all_has_char. reflexivity.
  - destruct (group m 4) as [g4|]; [|split; reflexivity].
    destruct (Str.nonempty g4); [|split; reflexivity].
    split; [|apply stripped_strip].
    apply has_char_strip. revert C. apply all_has_char. reflexivity.
Qed.

(** The fields of the matches in a text are well formed. *)
Lemma fields_of_matches (content : string) :
  Forall well_formed
         (List.map field_of_match (finditer var_pattern content)).
Proof.
  apply Forall_map. unfold finditer.
  apply scan_matches. exact field_of_match_well_formed.
Qed.

Lemma Forall_filter {A : Type} (P : A -> Prop) (q : A -> bool)
      (l : list A) :
  Forall P l -> Forall P (filter q l).
Proof.
  intros H. apply Forall_forall. intros x I.
  apply filter_In in I as [I _]. revert x I. apply Forall_forall, H.
Qed.

Lemma filter_all {A : Type} (q : A -> bool) (l : list A) :
  Forall (fun x => q x = true) l -> filter q l = l.
Proof.
  induction 1 as [|x l Q _ IH]; cbn; [reflexivity|].
  rewrite Q, IH. reflexivity.
Qed.

(** No match of the pattern gives an empty name: the test of the name in
    [_extract_struct_members] never rejects. *)
Lemma struct_members_all (content : string) :
  struct_members content
  = List.map field_of_match (finditer var_pattern content).
Proof.
  unfold struct_members. apply filter_all.
  generalize (fields_of_matches content). apply Forall_impl.
  intros f ((N & _) & _). unfold keep_member.
  destruct (name f); [destruct N; reflexivity | reflexivity].
Qed.

Lemma block_variables_members (block : string) :
  block_variables block
  = filter (fun f => negb (is_keyword f)) (struct_members block).
Proof.
  rewrite struct_members_all. unfold block_variables.
  apply filter_ext_in. intros f I.
  assert (W : well_formed f).
  { revert f I. apply Forall_forall, fields_of_matches. }
  destruct W as ((N & _) & _). unfold keep_variable, is_keyword.
  destruct (name f); [destruct N; reflexivity | reflexivity].
Qed.

Lemma block_variables_well_formed (block : string) :
  Forall well_formed (block_variables block).
Proof. apply Forall_filter, fields_of_matches. Qed.

Lemma struct_members_well_formed (content : string) :
  Forall well_formed (struct_members content).
Proof. apply Forall_filter, fields_of_matches. Qed.

Lemma Forall_flat_map_intro {A B : Type} (P : B -> Prop) (f : A -> list B)
      (l : list A) :
  (forall x, Forall P (f x)) -> Forall P (flat_map f l).
Proof.
  intros H. induction l as [|x l IH]; cbn; [constructor|].
  apply Forall_app. auto.
Qed.

End FieldFacts.

(** ** Blocks *)

Module BlockFacts.

Import Re TwinCATParser Spec Shape StrFacts ReFacts GroupFacts LanguageFacts
       FieldFacts.

Lemma occurs_after eq (w u v : string) :
  occurs eq w v = true -> occurs eq w (u ++ v) = true.
Proof.
  intros H. induction u as [|a u IH]; [exact H|].
  cbn [append occurs]. rewrite IH.
  destruct (eat eq w (String a (u ++ v))); reflexivity.
Qed.

(** A text of a pattern that ends with a word holds the word. *)
Lemma closes_occurs eq (w : string) (r : regex) :
  closes eq w r ->
  forall t rest, lang r t -> occurs eq w (t ++ rest) = true.
Proof.
  induction r as [|p|r1 _ r2 IH2|r1 _ r2 _|g p|n r _|]; cbn [closes];
    try contradiction.
  intros [->|C] t rest (u & v & -> & _ & L); rewrite append_assoc.
  - eapply occurs_at, lang_word, L.
  - apply occurs_after, IH2; assumption.
Qed.

(** Where such a pattern matches, the word occurs. *)
Lemma match_at_closes eq (w : string) (r : regex) (s : string) (m : mobj) :
  closes eq w r -> match_at r s = Some m -> occurs eq w s = true.
Proof.
  intros C H. apply match_at_sound in H as (L & _ & rest & ->).
  apply closes_occurs with (r := r); assumption.
Qed.

(** Without the word, it finds nothing. *)
Lemma findall1_closes eq (w : string) (r : regex) (text : string) :
  closes eq w r -> occurs eq w text = false -> findall1 r text = [].
Proof.
  intros C O. unfold findall1, finditer.
  rewrite (scan_without r eq w); [reflexivity | | exact O].
  intros s m. apply match_at_closes, C.
Qed.

Lemma block_patterns_close (is_global : bool) (r : regex) :
  In r (block_patterns is_global) -> closes Char.eqb_nocase "END_VAR" r.
Proof.
  destruct is_global; cbn; intros H;
    repeat (destruct H as [<-|H]; [cbn; auto|]); destruct H.
Qed.

Lemma var_blocks_patterns (text : string) (is_global : bool) :
  var_blocks text is_global
  = flat_map (fun r => findall1 r text) (block_patterns is_global).
Proof.
  unfold var_blocks, block_patterns. destruct is_global; cbn [flat_map];
    rewrite ?app_nil_r; reflexivity.
Qed.

(** A text without closing marker has no block. *)
Lemma var_blocks_unclosed (text : string) (is_global : bool) :
  occurs Char.eqb_nocase "END_VAR" text = false ->
  var_blocks text is_global = [].
Proof.
  intros O.
  assert (F : forall r,
             In r (block_patterns true) \/ In r (block_patterns false) ->
             findall1 r text = []).
  { intros r [I|I]; apply (findall1_closes Char.eqb_nocase "END_VAR");
      try exact O; eapply block_patterns_close, I. }
  unfold var_blocks. destruct is_global.
  - apply F. left. simpl; auto.
  - rewrite !F; [reflexivity | right; simpl; auto ..].
Qed.

(** The end of a pattern for blocks: what the lazy group holds has no
    occurrence of the word that closes it. *)
Lemma lazy_group_first (n : nat) (p : ascii -> bool) eq (w s : string)
      (acc : list ascii) (c : caps) (m : mobj) :
  w <> EmptyString ->
  rmatch (Seq (Group n (Star false p)) (word eq w)) s acc c accept = Some m ->
  exists u, m_groups m = (n, u) :: c /\ occurs eq w u = false.
Proof.
  intros N H. cbn [rmatch] in H.
  apply star_lazy_sound in H as (u & s' & -> & _ & H & F).
  exists u. rewrite rmatch_word, text_since_push in H. split.
  - destruct (eat eq w s') as [[m0 r]|]; [|discriminate].
    unfold accept in H. injection H as <-. reflexivity.
  - apply occurs_nowhere with (t := s'); [exact N|].
    intros u1 u2 E N2. specialize (F u1 u2 E N2).
    rewrite rmatch_word in F.
    destruct (eat eq w (u2 ++ s')) as [[m0 r]|]; [discriminate F | reflexivity].
Qed.

(** The same after an opening that sets no group. *)
Lemma block_first (pre : regex) (n : nat) (p : ascii -> bool) eq
      (w s : string) (m : mobj) :
  (forall c c', caps_after pre c c' -> c' = c) ->
  w <> EmptyString ->
  match_at (Seq pre (Seq (Group n (Star false p)) (word eq w))) s = Some m ->
  exists u, m_groups m = [(n, u)] /\ occurs eq w u = false.
Proof.
  intros P N H. unfold match_at in H. cbn [rmatch] in H.
  apply rmatch_result in H as (s' & acc' & c' & H & C & _).
  apply P in C. subst c'.
  apply (lazy_group_first n p eq w s' acc' [] m N). exact H.
Qed.

Lemma block_patterns_first (is_global : bool) (r : regex) (s : string)
      (m : mobj) :
  In r (block_patterns is_global) -> match_at r s = Some m ->
  exists u,
    m_groups m = [(1, u)] /\ occurs Char.eqb_nocase "END_VAR" u = false.
Proof.
  assert (B : forall open_marker,
             match_at (block_re open_marker) s = Some m ->
             exists u,
               m_groups m = [(1, u)]
               /\ occurs Char.eqb_nocase "END_VAR" u = false).
  { intros open_marker. apply block_first; [|discriminate].
    intros c c'. apply caps_after_word. }
  destruct is_global; cbn [block_patterns In]; intros H;
    repeat (destruct H as [<-|H]; [try apply B|]); try destruct H.
  intros H.
  change (match_at
            (Seq (Seq (lit_i "VAR") (Alt (Chr ws) Dollar))
                 (Seq (Group 1 (Star false Char.anychar)) (lit_i "END_VAR")))
            s = Some m) in H.
  revert H. apply block_first; [|discriminate].
  intros c c' (c1 & C1 & C2). apply caps_after_word in C1. subst c1.
  destruct C2 as [C2|C2]; exact C2.
Qed.

(** The blocks of a text hold no closing marker. *)
Lemma var_blocks_closed (text : string) (is_global : bool) :
  Forall (fun b => occurs Char.eqb_nocase "END_VAR" b = false)
         (var_blocks text is_global).
Proof.
  rewrite var_blocks_patterns. apply Forall_flat_map. apply Forall_forall.
  intros r I. unfold findall1. apply Forall_map. unfold finditer.
  apply scan_matches. intros s m H.
  destruct (block_patterns_first is_global r s m I H) as (u & G & O).
  unfold group. rewrite G. exact O.
Qed.

Lemma search_some (r : regex) (s : string) (m : mobj) :
  search r s = Some m -> exists s', match_at r s' = Some m.
Proof.
  induction s as [|a s IH]; cbn [search].
  - destruct (match_at r EmptyString) eqn:E; [|discriminate].
    intros [= <-]. eauto.
  - destruct (match_at r (String a s)) eqn:E; [|exact IH].
    intros [= <-]. eauto.
Qed.

(** The content of the structure that is read holds no closing
    marker. *)
Lemma struct_content_closed (text : string) (m : mobj) :
  search struct_re text = Some m ->
  exists u,
    m_groups m = [(1, u)] /\ occurs Char.eqb_nocase "END_STRUCT" u = false.
Proof.
  intros H. apply search_some in H as [s H].
  change (match_at
            (Seq (Seq (lit_i "STRUCT") (Star true ws))
                 (Seq (Group 1 (Star false Char.anychar))
                      (lit_i "END_STRUCT")))
            s = Some m) in H.
  revert H. apply block_first; [|discriminate].
  intros c c' (c1 & C1 & C2). apply caps_after_word in C1. subst c1.
  exact C2.
Qed.

End BlockFacts.

(** ** Documentation *)

Module DocFacts.

Import Re TwinCATParser Spec Shape StrFacts ReFacts GroupFacts LanguageFacts
       FieldFacts ParserFacts.

Lemma comments_doc_step (d : DocInfo) (line : string) :
  comments (doc_step d line) = comments d.
Proof.
  unfold doc_step.
  repeat match goal with
         | |- context [if ?b then _ else _] => destruct b
         end; reflexivity.
Qed.

Lemma comments_fold (l : list string) (d : DocInfo) :
  comments (fold_left doc_step l d) = comments d.
Proof.
  revert d. induction l as [|x l IH]; intros d; cbn [fold_left];
    [reflexivity|].
  rewrite IH. apply comments_doc_step.
Qed.

(** The comments of the record are what the pattern for line comments
    finds. *)
Lemma comments_found (text : string) :
  comments (_extract_documentation text) = findall1 comment_line_re text.
Proof.
  unfold _extract_documentation.
  destruct (findall1 comment_block_re text); cbn [comments set_description];
    rewrite comments_fold; reflexivity.
Qed.

Lemma label_value_stripped (line : string) : stripped (label_value line).
Proof. apply strip_idem. Qed.

Lemma fold_stripped (l : list string) (d : DocInfo) :
  (forall lbl, stripped (field lbl d)) ->
  forall lbl, stripped (field lbl (fold_left doc_step l d)).
Proof.
  revert d. induction l as [|x l IH]; intros d H; cbn [fold_left];
    [exact H|].
  apply IH. intros lbl. rewrite doc_step_field.
  destruct (has_label lbl x); [apply label_value_stripped | apply H].
Qed.

(** A comment line holds no line feed. *)
Lemma comment_line_shape (s : string) (m : mobj) :
  match_at comment_line_re s = Some m ->
  exists g, m_groups m = [(1, g)] /\ has_char Char.LF g = false.
Proof.
  intros H. apply match_at_sound in H as (_ & H & _).
  unfold comment_line_re in H. cbn [seq caps_lang] in H.
  destruct H as (c1 & H1 & c2 & -> & c3 & g & -> & L & ->).
  apply caps_lang_word in H1. subst c1. exists g. split; [reflexivity|].
  cbn [lang] in L. revert L. apply all_has_char. reflexivity.
Qed.

Lemma comment_lines_one_line (text : string) :
  Forall one_line (findall1 comment_line_re text).
Proof.
  unfold findall1. apply Forall_map. unfold finditer.
  apply scan_matches. intros s m H.
  destruct (comment_line_shape s m H) as (g & G & N).
  unfold group. rewrite G. exact N.
Qed.

Lemma documentation_stripped (text : string) (l : label) :
  stripped (field l (_extract_documentation text)).
Proof.
  unfold _extract_documentation.
  set (d := fold_left doc_step _ _).
  assert (S : forall lbl, stripped (field lbl d)).
  { apply fold_stripped. intros []; reflexivity. }
  destruct (findall1 comment_block_re text) as [|b bs]; [apply S|].
  destruct l; cbn [field set_description description author version date];
    [apply stripped_strip | apply (S Author) | apply (S Version)
     | apply (S Date)].
Qed.

Lemma documentation_comments (text : string) :
  Forall one_line (comments (_extract_documentation text)).
Proof. rewrite comments_found. apply comment_lines_one_line. Qed.

(** Where a pattern that opens with a word matches, the word occurs. *)
Lemma match_at_opens eq (w : string) (r : regex) (s : string) (m : mobj) :
  match_at (Seq (word eq w) r) s = Some m -> occurs eq w s = true.
Proof.
  intros H. destruct (eat eq w s) as [x|] eqn:E.
  - destruct s; cbn [occurs]; rewrite E; reflexivity.
  - rewrite (match_at_word eq w r s E) in H. discriminate H.
Qed.

Lemma findall1_opens eq (w : string) (r : regex) (text : string) :
  occurs eq w text = false -> findall1 (Seq (word eq w) r) text = [].
Proof.
  intros O. unfold findall1, finditer.
  rewrite (scan_without _ eq w); [reflexivity | | exact O].
  intros s m. apply match_at_opens.
Qed.

End DocFacts.

(** ** The order of the included files *)

Module OrderFacts.

Import TwinCATParser Spec Shape ScannerFacts.

Lemma compare_trans (x y z : string) :
  String.compare x y = Lt -> String.compare y z = Lt ->
  String.compare x z = Lt.
Proof.
  intros H1 H2.
  apply OrderedTypeEx.String_as_OT.cmp_lt in H1, H2.
  apply OrderedTypeEx.String_as_OT.cmp_lt.
  eapply OrderedTypeEx.String_as_OT.lt_trans; eassumption.
Qed.

Lemma compare_irrefl (x : string) : String.compare x x <> Lt.
Proof.
  intros H. pose proof (String.compare_antisym x x) as A.
  rewrite H in A. discriminate A.
Qed.

Lemma compare_gt (x y : string) :
  String.compare x y = Gt -> String.compare y x = Lt.
Proof.
  intros H. rewrite String.compare_antisym, H. reflexivity.
Qed.

Lemma insert_sorted_In (x y : string) (l : list string) :
  In y (insert_sorted x l) <-> y = x \/ In y l.
Proof.
  induction l as [|z l IH]; cbn [insert_sorted].
  - cbn. intuition.
  - destruct (String.compare x z) eqn:E; cbn [In].
    + apply String.compare_eq_iff in E. subst z. intuition.
    + intuition.
    + rewrite IH. intuition.
Qed.

Lemma sorted_set_In (x : string) (l : list string) :
  In x (sorted_set l) <-> In x l.
Proof.
  induction l as [|y l IH]; cbn [sorted_set fold_right]; [reflexivity|].
  fold (sorted_set l). rewrite insert_sorted_In, IH. cbn. intuition.
Qed.

Lemma insert_sorted_increasing (x : string) (l : list string) :
  increasing l -> increasing (insert_sorted x l).
Proof.
  unfold increasing. induction 1 as [|y l S IH F]; cbn [insert_sorted].
  - repeat constructor.
  - destruct (String.compare x y) eqn:E.
    + constructor; assumption.
    + constructor; [constructor; assumption|].
      constructor; [exact E|].
      revert F. apply Forall_impl. intros z. apply compare_trans, E.
    + constructor; [exact IH|].
      apply Forall_forall. intros z I. apply insert_sorted_In in I as [->|I].
      * apply compare_gt, E.
      * revert z I. apply Forall_forall, F.
Qed.

Lemma sorted_set_increasing (l : list string) : increasing (sorted_set l).
Proof.
  induction l as [|x l IH]; cbn [sorted_set fold_right].
  - constructor.
  - apply insert_sorted_increasing, IH.
Qed.

Lemma increasing_NoDup (l : list string) : increasing l -> NoDup l.
Proof.
  induction 1 as [|x l S IH F]; constructor; [|exact IH].
  intros I. rewrite Forall_forall in F. apply (compare_irrefl x), F, I.
Qed.

(** An increasing list is determined by its elements. *)
Lemma increasing_unique (l1 l2 : list string) :
  increasing l1 -> increasing l2 ->
  (forall x, In x l1 <-> In x l2) -> l1 = l2.
Proof.
  intros S1. revert l2.
  induction S1 as [|a l1 S1 IH F1]; intros l2 S2 E.
  - destruct l2 as [|b l2]; [reflexivity|].
    destruct (proj2 (E b)). left; reflexivity.
  - destruct S2 as [|b l2 S2 F2].
    + destruct (proj1 (E a)). left; reflexivity.
    + rewrite Forall_forall in F1, F2.
      assert (A : a = b).
      { destruct (proj1 (E a)) as [A|A]; [left; reflexivity | auto |].
        destruct (proj2 (E b)) as [B|B]; [left; reflexivity | auto |].
        exfalso. apply (compare_irrefl a).
        apply compare_trans with (y := b); auto. }
      subst b. f_equal. apply IH; [exact S2|].
      intros x. split; intros I.
      * destruct (proj1 (E x)) as [X|X]; [right; exact I | | exact X].
        subst x. exfalso. apply (compare_irrefl a). auto.
      * destruct (proj2 (E x)) as [X|X]; [right; exact I | | exact X].
        subst x. exfalso. apply (compare_irrefl a). auto.
Qed.

(** What the manifests give to the reader. *)
Lemma included_In (p : Project) (x : string) :
  In x (fst (_get_project_included_files p))
  <-> exists proj,
        In proj (project_files p) /\ In x (fst (manifest_includes proj)).
Proof.
  unfold _get_project_included_files. cbn [fst].
  rewrite sorted_set_In, in_flat_map. split.
  - intros (y & I & X). apply in_map_iff in I as (proj & <- & I). eauto.
  - intros (proj & I & X). exists (manifest_includes proj).
    split; [apply in_map, I | exact X].
Qed.

(** A manifest that parses logs nothing; one that does not gives nothing
    and logs one warning. *)
Lemma manifest_includes_cases (proj : SourceFile) :
  (parses proj = true /\ snd (manifest_includes proj) = [])
  \/ (parses proj = false /\ fst (manifest_includes proj) = []
      /\ exists r, snd (manifest_includes proj) = [r] /\ fst r = WARNING).
Proof.
  unfold parses, manifest_includes.
  destruct (content proj); [left | right | right]; repeat split;
    eexists; split; reflexivity.
Qed.

Lemma includes_of_parsing (l : list SourceFile) :
  flat_map fst (List.map manifest_includes l)
  = flat_map fst (List.map manifest_includes (filter parses l)).
Proof.
  induction l as [|proj l IH]; [reflexivity|].
  cbn [List.map flat_map filter].
  destruct (manifest_includes_cases proj) as [[P _]|(P & F & _)]; rewrite P.
  - cbn [List.map flat_map]. rewrite IH. reflexivity.
  - rewrite F. exact IH.
Qed.

Lemma warnings_of_parsing (l : list SourceFile) :
  flat_map snd (List.map manifest_includes (filter parses l)) = []
  /\ List.length (flat_map snd (List.map manifest_includes l))
     = List.length (filter (fun f => negb (parses f)) l)
  /\ Forall (fun r => fst r = WARNING)
            (flat_map snd (List.map manifest_includes l)).
Proof.
  induction l as [|proj l (IH1 & IH2 & IH3)]; [repeat split; constructor|].
  cbn [List.map flat_map filter].
  destruct (manifest_includes_cases proj) as [[P S]|(P & _ & r & S & W)];
    rewrite P, S; cbn [negb List.map flat_map app List.length].
  - rewrite S. auto.
  - rewrite IH2. repeat split; [exact IH1|]. constructor; assumption.
Qed.

(** ** Paths *)

Lemma has_char_normalize (path : string) :
  has_char backslash (normalize path) = false.
Proof.
  unfold normalize, Str.replace.
  induction path as [|a s IH]; cbn [Str.map has_char]; [reflexivity|].
  rewrite IH. destruct (Ascii.eqb_spec a backslash) as [->|N].
  - reflexivity.
  - destruct (Ascii.eqb_spec a backslash); [contradiction | reflexivity].
Qed.

Lemma normalize_fixed (path : string) :
  has_char backslash path = false -> normalize path = path.
Proof.
  unfold normalize, Str.replace.
  induction path as [|a s IH]; cbn [Str.map has_char]; [reflexivity|].
  destruct (Ascii.eqb a backslash); [discriminate|].
  cbn [orb]. intros H. rewrite (IH H). reflexivity.
Qed.

Lemma includes_of_normalized (items : list ET.element) :
  Forall (fun x => x <> EmptyString /\ has_char backslash x = false)
         (includes_of items).
Proof.
  unfold includes_of. apply Forall_flat_map. apply Forall_forall.
  intros item _. destruct (ET.get "Include" (ET.attrib item)) as [inc|];
    [|constructor].
  destruct inc as [|a inc]; cbn [Str.nonempty]; constructor; [|constructor].
  split; [|apply has_char_normalize]. discriminate.
Qed.

Lemma manifest_includes_normalized (proj : SourceFile) :
  Forall (fun x => x <> EmptyString /\ has_char backslash x = false)
         (fst (manifest_includes proj)).
Proof.
  unfold manifest_includes. destruct (content proj); cbn [fst];
    [|constructor|constructor].
  apply Forall_app. split; apply includes_of_normalized.
Qed.

(** ** Extensions *)

Lemma endswith_same_length (s e1 e2 : string) :
  String.length e1 = String.length e2 ->
  endswith s e1 = true -> endswith s e2 = true -> e1 = e2.
Proof.
  unfold endswith. intros L H1 H2.
  apply andb_true_iff in H1 as [_ H1]. apply andb_true_iff in H2 as [_ H2].
  apply String.eqb_eq in H1, H2. rewrite <- L in H2. congruence.
Qed.

Lemma extensions_disjoint (s e1 e2 : string) :
  In e1 extensions -> In e2 extensions ->
  endswith s e1 = true -> endswith s e2 = true -> e1 = e2.
Proof.
  intros I1 I2. apply endswith_same_length.
  cbn in I1, I2.
  repeat (destruct I1 as [<-|I1]); try destruct I1;
    repeat (destruct I2 as [<-|I2]); try destruct I2; reflexivity.
Qed.

Lemma enumerate_In (p : Project) (inc : list string) (ext : string)
      (f : SourceFile) :
  In f (enumerate p inc ext) ->
  In f (source_files p) /\ endswith (rel_path f) ext = true.
Proof.
  unfold enumerate, glob. destruct inc as [|x inc]; intros I.
  - apply filter_In in I. exact I.
  - apply filter_In in I as [I _]. apply filter_In in I. exact I.
Qed.

(** With a list of included files, the files enumerated are on it. *)
Lemma enumerate_included (p : Project) (inc : list string) (ext : string)
      (f : SourceFile) :
  inc <> [] -> In f (enumerate p inc ext) ->
  In (normalize (rel_path f)) inc.
Proof.
  unfold enumerate. destruct inc as [|x inc]; [intros N; destruct N; reflexivity|].
  intros _ I. apply filter_In in I as [_ I]. unfold is_included in I.
  apply existsb_exists in I as (y & I & E). apply String.eqb_eq in E.
  rewrite E. exact I.
Qed.

Lemma NoDup_map_filter {A B : Type} (f : A -> B) (q : A -> bool)
      (l : list A) :
  NoDup (List.map f l) -> NoDup (List.map f (filter q l)).
Proof.
  induction l as [|x l IH]; cbn [List.map filter]; [auto|].
  intros H. inversion H as [|y l' N D]; subst.
  destruct (q x); cbn [List.map]; [|auto].
  constructor; [|auto]. intros I. apply N.
  apply in_map_iff in I as (z & E & I). apply filter_In in I as [I _].
  rewrite <- E. apply in_map, I.
Qed.

Lemma enumerate_NoDup (p : Project) (inc : list string) (ext : string) :
  NoDup (List.map rel_path (source_files p)) ->
  NoDup (List.map rel_path (enumerate p inc ext)).
Proof.
  intros H. unfold enumerate, glob. destruct inc as [|x inc].
  - apply NoDup_map_filter, H.
  - apply NoDup_map_filter, NoDup_map_filter, H.
Qed.

End OrderFacts.

(** ** The records of a project *)

Module RecordFacts.

Import TwinCATParser Spec Shape LoopFacts OrderFacts.

(** The records that the files of a kind give. *)
Lemma parse_pous_state (p : Project) (st : state) :
  pous (_parse_pous p st)
  = (pous st
     ++ flat_map (fun f => fst (contribution "POU" _parse_pou_file f))
                 (enumerate p (included_files st) ".TcPOU"))%list
  /\ duts (_parse_pous p st) = duts st
  /\ gvls (_parse_pous p st) = gvls st
  /\ included_files (_parse_pous p st) = included_files st.
Proof.
  unfold _parse_pous. rewrite loop_contributions. repeat split.
Qed.

Lemma parse_duts_state (p : Project) (st : state) :
  duts (_parse_duts p st)
  = (duts st
     ++ flat_map (fun f => fst (contribution "DUT" _parse_dut_file f))
                 (enumerate p (included_files st) ".TcDUT"))%list
  /\ pous (_parse_duts p st) = pous st
  /\ gvls (_parse_duts p st) = gvls st
  /\ included_files (_parse_duts p st) = included_files st.
Proof.
  unfold _parse_duts. rewrite loop_contributions. repeat split.
Qed.

Lemma parse_gvls_state (p : Project) (st : state) :
  gvls (_parse_gvls p st)
  = (gvls st
     ++ flat_map (fun f => fst (contribution "GVL" _parse_gvl_file f))
                 (enumerate p (included_files st) ".TcGVL"))%list
  /\ pous (_parse_gvls p st) = pous st
  /\ duts (_parse_gvls p st) = duts st
  /\ included_files (_parse_gvls p st) = included_files st.
Proof.
  unfold _parse_gvls. rewrite loop_contributions. repeat split.
Qed.

(** What [parse_project] returns and leaves in the parser. *)
Lemma parse_project_records (p : Project) (st : state) :
  let d := fst (parse_project p st) in
  let st' := snd (parse_project p st) in
  (doc_pous d
   = (pous st
      ++ flat_map (fun f => fst (contribution "POU" _parse_pou_file f))
                  (enumerate p (included_files st) ".TcPOU"))%list
   /\ doc_duts d
      = (duts st
         ++ flat_map (fun f => fst (contribution "DUT" _parse_dut_file f))
                     (enumerate p (included_files st) ".TcDUT"))%list
   /\ doc_gvls d
      = (gvls st
         ++ flat_map (fun f => fst (contribution "GVL" _parse_gvl_file f))
                     (enumerate p (included_files st) ".TcGVL"))%list)
  /\ (pous st' = doc_pous d /\ duts st' = doc_duts d
      /\ gvls st' = doc_gvls d /\ included_files st' = included_files st)
  /\ (pou_count (project_info d) = List.length (doc_pous d)
      /\ dut_count (project_info d) = List.length (doc_duts d)
      /\ gvl_count (project_info d) = List.length (doc_gvls d)).
Proof.
  unfold parse_project.
  set (st0 := mkState (pous st) (duts st) (gvls st) (included_files st)
                      (log st ++ [(INFO, ParsingProject)])%list).
  set (st1 := _parse_pous p st0).
  set (st2 := _parse_duts p st1).
  set (st3 := _parse_gvls p st2).
  destruct (parse_pous_state p st0) as (P1 & D1 & G1 & I1).
  destruct (parse_duts_state p st1) as (D2 & P2 & G2 & I2).
  destruct (parse_gvls_state p st2) as (G3 & P3 & D3 & I3).
  fold st1 in P1, D1, G1, I1. fold st2 in P2, D2, G2, I2.
  fold st3 in P3, D3, G3, I3.
  assert (C : pou_count (fst (_get_project_info p st3))
              = List.length (pous st3)
              /\ dut_count (fst (_get_project_info p st3))
                 = List.length (duts st3)
              /\ gvl_count (fst (_get_project_info p st3))
                 = List.length (gvls st3)).
  { unfold _get_project_info.
    destruct (project_files p) as [|proj l]; [repeat split|].
    destruct (content proj) as [root|e|e]; [|repeat split..].
    destruct (ET.find_desc "Name" root) as [el|]; [|repeat split].
    destruct (ET.text el) as [t|]; [|repeat split].
    destruct (Str.nonempty t); repeat split. }
  destruct (_get_project_info p st3) as [info l].
  cbn [fst snd doc_pous doc_duts doc_gvls project_info pous duts gvls
       included_files] in *.
  rewrite P3, P2, P1, D3, D2, D1, G3, G2, G1, I3, I2, I1.
  subst st0. cbn [pous duts gvls included_files].
  rewrite I2, I1 in G3. rewrite I1 in D2.
  cbn [pous duts gvls included_files] in *.
  rewrite P3, P2, P1, D3, D2, D1, G3, G2, G1 in C.
  repeat split; try assumption; try tauto.
Qed.

(** A record bears the path of its file. *)
Lemma pou_contribution_path (f : SourceFile) :
  List.map pou_file_path (fst (contribution "POU" _parse_pou_file f))
  = [] \/
  List.map pou_file_path (fst (contribution "POU" _parse_pou_file f))
  = [rel_path f].
Proof.
  unfold contribution, try_file, _parse_pou_file.
  destruct (content f) as [root|e|e]; [|left; reflexivity..].
  destruct (ET.find_desc "POU" root); [right|left]; reflexivity.
Qed.

Lemma dut_contribution_path (f : SourceFile) :
  List.map dut_file_path (fst (contribution "DUT" _parse_dut_file f))
  = [] \/
  List.map dut_file_path (fst (contribution "DUT" _parse_dut_file f))
  = [rel_path f].
Proof.
  unfold contribution, try_file, _parse_dut_file.
  destruct (content f) as [root|e|e]; [|left; reflexivity..].
  destruct (ET.find_desc "DUT" root); [right|left]; reflexivity.
Qed.

Lemma gvl_contribution_path (f : SourceFile) :
  List.map gvl_file_path (fst (contribution "GVL" _parse_gvl_file f))
  = [] \/
  List.map gvl_file_path (fst (contribution "GVL" _parse_gvl_file f))
  = [rel_path f].
Proof.
  unfold contribution, try_file, _parse_gvl_file.
  destruct (content f) as [root|e|e]; [|left; reflexivity..].
  destruct (ET.find_desc "GVL" root); [right|left]; reflexivity.
Qed.

(** The paths of the records of a loop are the paths of some of its
    files, in their order. *)
Lemma loop_paths {A : Type} (path : A -> string)
      (give : SourceFile -> list A) (files : list SourceFile) :
  (forall f, List.map path (give f) = []
             \/ List.map path (give f) = [rel_path f]) ->
  exists q,
    List.map path (flat_map give files) = List.map rel_path (filter q files).
Proof.
  intros H.
  exists (fun f => match List.map path (give f) with
                   | [] => false
                   | _ => true
                   end).
  induction files as [|f files IH]; cbn [flat_map filter]; [reflexivity|].
  rewrite map_app, IH.
  destruct (H f) as [E|E]; rewrite E; reflexivity.
Qed.

End RecordFacts.

(** ** The statistics and the pages *)

Module WikiFacts.

Import TwinCATParser Spec Shape WikiGenerator StrFacts FieldFacts DocFacts.

Lemma count_of_type_cons {A : Type} (type_of : A -> string) (t : string)
      (x : A) (l : list A) :
  count_of_type type_of t (x :: l)
  = (if String.eqb (type_of x) t then 1 else 0) + count_of_type type_of t l.
Proof.
  unfold count_of_type. cbn [filter].
  destruct (String.eqb (type_of x) t); reflexivity.
Qed.

(** When every type is one of two, the two counts make the total. *)
Lemma count_two {A : Type} (type_of : A -> string) (t1 t2 : string)
      (l : list A) :
  t1 <> t2 ->
  Forall (fun x => type_of x = t1 \/ type_of x = t2) l ->
  count_of_type type_of t1 l + count_of_type type_of t2 l = List.length l.
Proof.
  intros N. induction 1 as [|x l H _ IH]; [reflexivity|].
  rewrite !count_of_type_cons. cbn [List.length]. rewrite <- IH.
  destruct H as [H|H]; rewrite H, String.eqb_refl.
  - destruct (String.eqb_spec t1 t2); [contradiction | lia].
  - destruct (String.eqb_spec t2 t1); [congruence | lia].
Qed.

(** The three counts of the program units, and when they make the
    total. *)
Lemma count_three (l : list POUInfo) :
  count_of_type pou_type "PROGRAM" l
  + count_of_type pou_type "FUNCTION_BLOCK" l
  + count_of_type pou_type "FUNCTION" l <= List.length l
  /\ (count_of_type pou_type "PROGRAM" l
      + count_of_type pou_type "FUNCTION_BLOCK" l
      + count_of_type pou_type "FUNCTION" l = List.length l
      <-> Forall (fun pou => In (pou_type pou) counted_kinds) l).
Proof.
  induction l as [|x l [L E]]; [split; [cbn; lia | split; auto]|].
  rewrite !count_of_type_cons. cbn [List.length].
  assert (K : (In (pou_type x) counted_kinds
               /\ (if String.eqb (pou_type x) "PROGRAM" then 1 else 0)
                  + (if String.eqb (pou_type x) "FUNCTION_BLOCK"
                     then 1 else 0)
                  + (if String.eqb (pou_type x) "FUNCTION" then 1 else 0)
                  = 1)
              \/ (~ In (pou_type x) counted_kinds
                  /\ (if String.eqb (pou_type x) "PROGRAM" then 1 else 0)
                     + (if String.eqb (pou_type x) "FUNCTION_BLOCK"
                        then 1 else 0)
                     + (if String.eqb (pou_type x) "FUNCTION" then 1 else 0)
                     = 0)).
  { unfold counted_kinds. cbn [In].
    destruct (String.eqb_spec (pou_type x) "PROGRAM") as [->|N1];
      [left; split; [auto | reflexivity]|].
    destruct (String.eqb_spec (pou_type x) "FUNCTION_BLOCK") as [->|N2];
      [left; split; [auto | reflexivity]|].
    destruct (String.eqb_spec (pou_type x) "FUNCTION") as [->|N3];
      [left; split; [auto | reflexivity]|].
    right. split; [|reflexivity].
    intros [H|[H|[H|[]]]]; congruence. }
  split; [destruct K as [[_ K]|[_ K]]; lia|].
  split.
  - intros H. destruct K as [[I K]|[_ K]]; [|lia].
    constructor; [exact I|]. apply E. lia.
  - intros H. inversion H as [|y l' I F]; subst.
    apply E in F. destruct K as [[_ K]|[N _]]; [lia | contradiction].
Qed.

Lemma stripped_text_stripped (e : option ET.element) :
  stripped (stripped_text e).
Proof.
  unfold stripped_text. destruct e as [e|]; [|reflexivity].
  destruct (ET.text e) as [t|]; [|reflexivity].
  destruct (Str.nonempty t); [apply stripped_strip | reflexivity].
Qed.

(** The records that one file gives are well formed. *)
Lemma pou_contribution_well_formed (f : SourceFile) :
  Forall pou_well_formed (fst (contribution "POU" _parse_pou_file f)).
Proof.
  unfold contribution, try_file, _parse_pou_file.
  destruct (content f) as [root|e|e]; [|constructor..].
  destruct (ET.find_desc "POU" root); [|constructor].
  cbn [fst app]. constructor; [|constructor]. unfold pou_well_formed.
  cbn [pou_description pou_author pou_version pou_date pou_implementation
       pou_variables pou_comments].
  repeat split.
  - apply (documentation_stripped _ Description).
  - apply (documentation_stripped _ Author).
  - apply (documentation_stripped _ Version).
  - apply (documentation_stripped _ Date).
  - apply stripped_text_stripped.
  - unfold _extract_variables. apply Forall_flat_map_intro.
    apply block_variables_well_formed.
  - apply documentation_comments.
Qed.

Lemma dut_contribution_well_formed (f : SourceFile) :
  Forall dut_well_formed (fst (contribution "DUT" _parse_dut_file f)).
Proof.
  unfold contribution, try_file, _parse_dut_file.
  destruct (content f) as [root|e|e]; [|constructor..].
  destruct (ET.find_desc "DUT" root); [|constructor].
  cbn [fst app]. constructor; [|constructor]. unfold dut_well_formed.
  cbn [dut_description dut_author dut_version dut_type dut_members
       dut_comments].
  repeat split.
  - apply (documentation_stripped _ Description).
  - apply (documentation_stripped _ Author).
  - apply (documentation_stripped _ Version).
  - destruct (Str.contains "TYPE" _ && Str.contains "ENUM" _); auto.
  - unfold _extract_struct_members.
    destruct (Re.search struct_re _) as [m|]; [|constructor].
    destruct (Re.group m 1); [|constructor].
    apply struct_members_well_formed.
  - apply documentation_comments.
Qed.

Lemma gvl_contribution_well_formed (f : SourceFile) :
  Forall gvl_well_formed (fst (contribution "GVL" _parse_gvl_file f)).
Proof.
  unfold contribution, try_file, _parse_gvl_file.
  destruct (content f) as [root|e|e]; [|constructor..].
  destruct (ET.find_desc "GVL" root); [|constructor].
  cbn [fst app]. constructor; [|constructor]. unfold gvl_well_formed.
  cbn [gvl_description gvl_variables gvl_comments].
  repeat split.
  - apply (documentation_stripped _ Description).
  - unfold _extract_variables. apply Forall_flat_map_intro.
    apply block_variables_well_formed.
  - apply documentation_comments.
Qed.

(** The type of a record of a data type is one of two words. *)
Lemma dut_records_type (l : list DUTInfo) :
  Forall dut_well_formed l ->
  Forall (fun d => dut_type d = "STRUCT" \/ dut_type d = "ENUM") l.
Proof. apply Forall_impl. intros d (_ & T & _). exact T. Qed.

(** ** File names *)

Lemma append_inj_l (u v w : string) : u ++ w = v ++ w -> u = v.
Proof.
  revert v. induction u as [|a u IH]; intros [|b v]; cbn [append].
  - reflexivity.
  - intros H. apply (f_equal String.length) in H. cbn in H.
    rewrite length_append in H. lia.
  - intros H. apply (f_equal String.length) in H. cbn in H.
    rewrite length_append in H. lia.
  - intros [= -> H]. rewrite (IH _ H). reflexivity.
Qed.

Lemma page_name_inj (prefix : string) (x y : string) :
  prefix ++ x ++ ".md" = prefix ++ y ++ ".md" -> x = y.
Proof.
  induction prefix as [|a prefix IH]; cbn [append].
  - apply append_inj_l.
  - intros [= H]. apply IH, H.
Qed.

Lemma NoDup_map_finer {A B C : Type} (f : A -> B) (g : A -> C)
      (l : list A) :
  (forall x y, g x = g y -> f x = f y) ->
  NoDup (List.map f l) -> NoDup (List.map g l).
Proof.
  intros H. induction l as [|x l IH]; cbn [List.map]; [constructor|].
  intros N. inversion N as [|y l' I D]; subst.
  constructor; [|auto]. intros J. apply I.
  apply in_map_iff in J as (z & E & J). apply H in E. rewrite <- E.
  apply in_map, J.
Qed.

Lemma pou_pages_prefix (l : list POUInfo) (x : string) :
  In x (List.map pou_page l) -> exists n, x = "POU-" ++ n.
Proof. intros I. apply in_map_iff in I as (y & <- & _). eexists. reflexivity. Qed.

Lemma dut_pages_prefix (l : list DUTInfo) (x : string) :
  In x (List.map dut_page l) -> exists n, x = "DUT-" ++ n.
Proof. intros I. apply in_map_iff in I as (y & <- & _). eexists. reflexivity. Qed.

Lemma gvl_pages_prefix (l : list GVLInfo) (x : string) :
  In x (List.map gvl_page l) -> exists n, x = "GVL-" ++ n.
Proof. intros I. apply in_map_iff in I as (y & <- & _). eexists. reflexivity. Qed.

End WikiFacts.

(** ** Letter case *)

Module CaseFacts.

Import Re TwinCATParser Spec Shape StrFacts ReFacts GroupFacts ParserFacts.

Lemma lower_lower (a : ascii) : Char.lower (Char.lower a) = Char.lower a.
Proof. destruct a as [[] [] [] [] [] [] [] []]; reflexivity. Qed.

Lemma isword_lower (a : ascii) : Char.isword (Char.lower a) = Char.isword a.
Proof. destruct a as [[] [] [] [] [] [] [] []]; reflexivity. Qed.

(** Lowering changes word characters only. *)
Lemma lower_word (a : ascii) :
  Char.lower a = a \/ Char.isword a = true.
Proof. destruct a as [[] [] [] [] [] [] [] []]; auto. Qed.

Lemma eqb_nocase_lower (x a : ascii) :
  Char.eqb_nocase x (Char.lower a) = Char.eqb_nocase x a.
Proof. unfold Char.eqb_nocase. rewrite lower_lower. reflexivity. Qed.

(** A character that is no word character is met in lower case where it
    is met. *)
Lemma eqb_lower (x a : ascii) :
  Char.isword x = false -> Ascii.eqb x (Char.lower a) = Ascii.eqb x a.
Proof.
  intros W. destruct (lower_word a) as [->|A]; [reflexivity|].
  destruct (Ascii.eqb_spec x (Char.lower a)) as [E|_].
  - rewrite E, isword_lower, A in W. discriminate W.
  - destruct (Ascii.eqb_spec x a) as [E|_]; [|reflexivity].
    rewrite E, A in W. discriminate W.
Qed.

Lemma noneof_lower (l : list ascii) (a : ascii) :
  forallb (fun x => negb (Char.isword x)) l = true ->
  Char.noneof l (Char.lower a) = Char.noneof l a.
Proof.
  unfold Char.noneof. intros H. f_equal.
  induction l as [|x l IH]; [reflexivity|].
  cbn [forallb] in H. apply andb_true_iff in H as [X H].
  cbn [existsb]. rewrite (IH H), !(Ascii.eqb_sym _ x), eqb_lower;
    [reflexivity|].
  destruct (Char.isword x); [discriminate X | reflexivity].
Qed.

Lemma length_lower (s : string) :
  String.length (Str.lower s) = String.length s.
Proof.
  unfold Str.lower. induction s as [|a s IH]; cbn; congruence.
Qed.

Lemma lower_string_of_list (l : list ascii) :
  string_of_list_ascii (List.map Char.lower l)
  = Str.lower (string_of_list_ascii l).
Proof.
  unfold Str.lower. induction l as [|a l IH]; cbn; congruence.
Qed.

Lemma text_since_lower (acc0 acc : list ascii) :
  text_since (List.map Char.lower acc0) (List.map Char.lower acc)
  = Str.lower (text_since acc0 acc).
Proof.
  unfold text_since.
  rewrite !length_map, firstn_map, <- map_rev. apply lower_string_of_list.
Qed.

Lemma at_end_lower (s : string) : at_end (Str.lower s) = at_end s.
Proof.
  destruct s as [|a [|b s]]; cbn; [reflexivity | | reflexivity].
  destruct a as [[] [] [] [] [] [] [] []]; reflexivity.
Qed.

Lemma star_greedy_lower (p : ascii -> bool) (k k' : @kont mobj) :
  (forall a, p (Char.lower a) = p a) -> lowered k k' ->
  lowered (star_greedy p k) (star_greedy p k').
Proof.
  unfold lowered. intros P K s. induction s as [|a s IH]; intros acc c.
  - apply (K EmptyString).
  - cbn [Str.lower Str.map star_greedy]. rewrite P.
    destruct (p a); [|apply (K (String a s))].
    change (Str.map Char.lower s) with (Str.lower s).
    change (Char.lower a :: List.map Char.lower acc)
      with (List.map Char.lower (a :: acc)).
    rewrite IH. destruct (star_greedy p k s (a :: acc) c); [reflexivity|].
    apply (K (String a s)).
Qed.

Lemma star_lazy_lower (p : ascii -> bool) (k k' : @kont mobj) :
  (forall a, p (Char.lower a) = p a) -> lowered k k' ->
  lowered (star_lazy p k) (star_lazy p k').
Proof.
  unfold lowered. intros P K s. induction s as [|a s IH]; intros acc c.
  - cbn [Str.lower Str.map star_lazy]. rewrite (K EmptyString).
    destruct (k EmptyString acc c); reflexivity.
  - cbn [Str.lower Str.map star_lazy].
    change (String (Char.lower a) (Str.map Char.lower s))
      with (Str.lower (String a s)).
    rewrite K. destruct (k (String a s) acc c); [reflexivity|].
    cbn [option_map]. rewrite P. destruct (p a); [|reflexivity].
    change (Str.map Char.lower s) with (Str.lower s).
    change (Char.lower a :: List.map Char.lower acc)
      with (List.map Char.lower (a :: acc)).
    apply IH.
Qed.

(** The matcher does in lower case what it does on the text. *)
Lemma rmatch_lower (r : regex) :
  caseless r ->
  forall k k' : @kont mobj,
    lowered k k' ->
    lowered (fun s acc c => rmatch r s acc c k)
            (fun s acc c => rmatch r s acc c k').
Proof.
  induction r as [|p|r1 IH1 r2 IH2|r1 IH1 r2 IH2|g p|n r IH|];
    cbn [caseless]; intros C k k' K s acc c; cbn [rmatch].
  - apply K.
  - destruct s as [|a s]; [reflexivity|].
    cbn [Str.lower Str.map]. rewrite C. destruct (p a); [|reflexivity].
    apply (K s (a :: acc)).
  - destruct C as [C1 C2]. apply (IH1 C1). intros s' acc' c'.
    apply (IH2 C2 k k' K).
  - destruct C as [C1 C2]. rewrite (IH1 C1 k k' K).
    destruct (rmatch r1 s acc c k); [reflexivity|].
    apply (IH2 C2 k k' K).
  - destruct g; [apply star_greedy_lower | apply star_lazy_lower];
      assumption.
  - apply (IH C). intros s' acc' c'. rewrite text_since_lower.
    apply (K s' acc' ((n, text_since acc acc') :: c')).
  - rewrite at_end_lower. destruct (at_end s); [apply K | reflexivity].
Qed.

Lemma match_at_lower (r : regex) (s : string) :
  caseless r ->
  match_at r (Str.lower s) = option_map lower_mobj (match_at r s).
Proof.
  intros C. unfold match_at.
  apply (rmatch_lower r C accept accept) with (acc := []) (c := []).
  intros s' acc' c'. unfold accept, lower_mobj.
  cbn [option_map m_text m_groups].
  rewrite <- (text_since_lower [] acc'). reflexivity.
Qed.

Lemma scan_lower (r : regex) :
  caseless r ->
  forall s skip,
    scan r (Str.lower s) skip = List.map lower_mobj (scan r s skip).
Proof.
  intros C s. induction s as [|a s IH]; intros skip.
  - destruct skip; [|reflexivity].
    change (Str.lower EmptyString) with EmptyString. cbn [scan].
    change (match_at r EmptyString) with (match_at r (Str.lower EmptyString))
      at 1.
    rewrite (match_at_lower r EmptyString C).
    destruct (match_at r EmptyString); reflexivity.
  - change (Str.lower (String a s))
      with (String (Char.lower a) (Str.lower s)).
    destruct skip; [|apply IH]. cbn [scan].
    change (String (Char.lower a) (Str.lower s))
      with (Str.lower (String a s)).
    rewrite (match_at_lower r (String a s) C).
    destruct (match_at r (String a s)) as [m|]; cbn [option_map List.map].
    + rewrite IH. cbn [lower_mobj m_text]. rewrite length_lower.
      reflexivity.
    + apply IH.
Qed.

Lemma lookup_lower (n : nat) (c : caps) :
  lookup n (lower_caps c) = option_map Str.lower (lookup n c).
Proof.
  induction c as [|[i g] c IH]; [reflexivity|].
  cbn [lower_caps List.map lookup fst snd]. destruct (Nat.eqb i n);
    [reflexivity | exact IH].
Qed.

Lemma findall1_lower (r : regex) (text : string) :
  caseless r ->
  findall1 r (Str.lower text) = List.map Str.lower (findall1 r text).
Proof.
  intros C. unfold findall1, finditer. rewrite (scan_lower r C), !map_map.
  apply map_ext. intros m. unfold group. cbn [lower_mobj m_groups].
  rewrite lookup_lower. destruct (lookup 1 (m_groups m)); reflexivity.
Qed.

Lemma search_lower (r : regex) (text : string) :
  caseless r ->
  search r (Str.lower text) = option_map lower_mobj (search r text).
Proof.
  intros C. rewrite !search_finditer. unfold finditer.
  rewrite (scan_lower r C). destruct (scan r text 0); reflexivity.
Qed.

(** *** The patterns *)

Lemma caseless_word_nocase (w : string) : caseless (lit_i w).
Proof.
  unfold lit_i. induction w as [|x w IH]; [exact I|].
  destruct w as [|y w]; cbn [word caseless].
  - intros a. apply eqb_nocase_lower.
  - split; [intros a; apply eqb_nocase_lower | exact IH].
Qed.

Lemma caseless_word (w : string) :
  all (fun x => negb (Char.isword x)) w = true -> caseless (lit w).
Proof.
  unfold lit. induction w as [|x w IH]; [intros; exact I|].
  cbn [all]. intros H. apply andb_true_iff in H as [X H].
  assert (W : Char.isword x = false)
    by (destruct (Char.isword x); [discriminate X | reflexivity]).
  destruct w as [|y w]; cbn [word caseless].
  - intros a. apply eqb_lower, W.
  - split; [intros a; apply eqb_lower, W | apply IH, H].
Qed.

(** A class of a pattern of the parser. *)
Ltac caseless_class :=
  let a := fresh "a" in
  intros a;
  first [ reflexivity
        | apply eqb_nocase_lower
        | apply isspace_of_lower
        | apply isword_lower
        | apply notnl_of_lower
        | apply noneof_lower; reflexivity
        | apply eqb_lower; reflexivity ].

Lemma caseless_patterns (r : regex) : In r patterns -> caseless r.
Proof.
  assert (B : forall open_marker, caseless (block_re open_marker)).
  { intros open_marker. unfold block_re. cbn [seq caseless].
    repeat split; try apply caseless_word_nocase; caseless_class. }
  unfold patterns. cbn [In].
  intros [<-|[<-|[<-|[<-|[<-|[<-|[<-|[<-|[]]]]]]]]]; try apply B.
  - unfold comment_line_re. cbn [seq caseless].
    repeat split; try (apply caseless_word; reflexivity); caseless_class.
  - unfold comment_block_re. cbn [seq caseless].
    repeat split; try (apply caseless_word; reflexivity); caseless_class.
  - unfold var_pattern, opt, plus, ch. cbn [seq caseless].
    repeat split; try (apply caseless_word; reflexivity); caseless_class.
  - unfold var_re. cbn [seq caseless].
    repeat split; try apply caseless_word_nocase; caseless_class.
  - unfold struct_re. cbn [seq caseless].
    repeat split; try apply caseless_word_nocase; caseless_class.
Qed.

(** *** String methods *)

Lemma lstrip_lower (s : string) :
  Str.lstrip (Str.lower s) = Str.lower (Str.lstrip s).
Proof.
  induction s as [|a s IH]; [reflexivity|].
  cbn [Str.lower Str.map Str.lstrip]. rewrite isspace_of_lower.
  destruct (Char.isspace a); [exact IH | reflexivity].
Qed.

Lemma rstrip_lower (s : string) :
  Str.rstrip (Str.lower s) = Str.lower (Str.rstrip s).
Proof.
  induction s as [|a s IH]; [reflexivity|].
  cbn [Str.lower Str.map Str.rstrip].
  change (Str.map Char.lower s) with (Str.lower s). rewrite IH.
  destruct (Str.rstrip s) as [|b t]; cbn [Str.lower Str.map].
  - rewrite isspace_of_lower. destruct (Char.isspace a); reflexivity.
  - reflexivity.
Qed.

Lemma strip_lower (s : string) :
  Str.strip (Str.lower s) = Str.lower (Str.strip s).
Proof. unfold Str.strip. rewrite lstrip_lower, rstrip_lower. reflexivity. Qed.

Lemma nonempty_lower (s : string) :
  Str.nonempty (Str.lower s) = Str.nonempty s.
Proof. destruct s; reflexivity. Qed.

Lemma upper_lower (s : string) : Str.upper (Str.lower s) = Str.upper s.
Proof.
  induction s as [|a s IH]; [reflexivity|].
  cbn [Str.lower Str.map]. change (Str.map Char.lower s) with (Str.lower s).
  cbn [Str.upper]. rewrite IH.
  destruct a as [[] [] [] [] [] [] [] []]; reflexivity.
Qed.

(** *** Fields *)

Lemma field_of_match_lower (m : mobj) :
  field_of_match (lower_mobj m) = lower_field (field_of_match m).
Proof.
  unfold field_of_match, lower_field, group_strip, group_strip_or_empty,
    group.
  cbn [lower_mobj m_groups name type default comment].
  rewrite !lookup_lower.
  destruct (lookup 1 (m_groups m)), (lookup 2 (m_groups m)),
    (lookup 3 (m_groups m)) as [g3|], (lookup 4 (m_groups m)) as [g4|];
    cbn [option_map]; rewrite ?nonempty_lower, ?strip_lower;
    try destruct (Str.nonempty g3); try destruct (Str.nonempty g4);
    reflexivity.
Qed.

Lemma keep_variable_lower (f : FieldInfo) :
  keep_variable (lower_field f) = keep_variable f.
Proof.
  unfold keep_variable, lower_field. cbn [name].
  rewrite nonempty_lower, upper_lower. reflexivity.
Qed.

Lemma filter_map_lower {A : Type} (q : A -> bool) (g : A -> A)
      (l : list A) :
  (forall x, q (g x) = q x) ->
  filter q (List.map g l) = List.map g (filter q l).
Proof.
  intros H. induction l as [|x l IH]; [reflexivity|].
  cbn [List.map filter]. rewrite H, IH. destruct (q x); reflexivity.
Qed.

Lemma var_pattern_caseless : caseless var_pattern.
Proof. apply caseless_patterns. unfold patterns. simpl; auto. Qed.

Lemma matches_lower (content : string) :
  List.map field_of_match (finditer var_pattern (Str.lower content))
  = List.map lower_field
             (List.map field_of_match (finditer var_pattern content)).
Proof.
  unfold finditer. rewrite (scan_lower _ var_pattern_caseless), !map_map.
  apply map_ext, field_of_match_lower.
Qed.

Lemma block_variables_lower (block : string) :
  block_variables (Str.lower block)
  = List.map lower_field (block_variables block).
Proof.
  unfold block_variables. rewrite matches_lower.
  apply filter_map_lower, keep_variable_lower.
Qed.

Lemma struct_members_lower (content : string) :
  struct_members (Str.lower content)
  = List.map lower_field (struct_members content).
Proof.
  unfold struct_members. rewrite matches_lower.
  apply filter_map_lower. intros f. unfold keep_member, lower_field.
  cbn [name]. apply nonempty_lower.
Qed.

Lemma flat_map_lower (l : list string) :
  flat_map block_variables (List.map Str.lower l)
  = List.map lower_field (flat_map block_variables l).
Proof.
  induction l as [|b l IH]; [reflexivity|].
  cbn [List.map flat_map]. rewrite map_app, IH, block_variables_lower.
  reflexivity.
Qed.

Lemma var_blocks_lower (text : string) (is_global : bool) :
  var_blocks (Str.lower text) is_global
  = List.map Str.lower (var_blocks text is_global).
Proof.
  unfold var_blocks. destruct is_global; rewrite ?map_app;
    rewrite !findall1_lower; try reflexivity;
    apply caseless_patterns; unfold patterns; simpl; auto 10.
Qed.

(** *** Documentation *)

Lemma lower_idem (s : string) : Str.lower (Str.lower s) = Str.lower s.
Proof.
  unfold Str.lower. induction s as [|a s IH]; cbn [Str.map];
    [reflexivity|].
  rewrite lower_lower, IH. reflexivity.
Qed.

Lemma split1_lower (s : string) :
  Str.split1 ":" (Str.lower s) = List.map Str.lower (Str.split1 ":" s).
Proof.
  induction s as [|a s IH]; [reflexivity|].
  cbn [Str.lower Str.map Str.split1]. rewrite lower_colon.
  destruct (Ascii.eqb a ":"); [reflexivity|].
  change (Str.map Char.lower s) with (Str.lower s). rewrite IH.
  destruct (Str.split1 ":" s); reflexivity.
Qed.

Lemma label_value_lower (line : string) :
  label_value (Str.lower line) = Str.lower (label_value line).
Proof.
  unfold label_value. rewrite split1_lower, <- strip_lower. f_equal.
  change EmptyString with (Str.lower EmptyString) at 1. apply map_nth.
Qed.

Lemma doc_step_lower (d : DocInfo) (line : string) :
  doc_step (lower_doc d) (Str.lower line) = lower_doc (doc_step d line).
Proof.
  unfold doc_step. rewrite lower_idem, label_value_lower.
  repeat match goal with
         | |- context [if ?b then _ else _] => destruct b
         end; reflexivity.
Qed.

Lemma fold_doc_step_lower (l : list string) (d : DocInfo) :
  fold_left doc_step (List.map Str.lower l) (lower_doc d)
  = lower_doc (fold_left doc_step l d).
Proof.
  revert d. induction l as [|x l IH]; intros d; [reflexivity|].
  cbn [List.map fold_left]. rewrite doc_step_lower. apply IH.
Qed.

Lemma documentation_lower (text : string) :
  _extract_documentation (Str.lower text)
  = lower_doc (_extract_documentation text).
Proof.
  unfold _extract_documentation.
  rewrite !findall1_lower
    by (apply caseless_patterns; unfold patterns; simpl; auto).
  cbn [description author version date].
  change (mkDocInfo EmptyString EmptyString EmptyString EmptyString
                    (List.map Str.lower (findall1 comment_line_re text)))
    with (lower_doc
            (mkDocInfo EmptyString EmptyString EmptyString EmptyString
                       (findall1 comment_line_re text))).
  rewrite fold_doc_step_lower.
  destruct (findall1 comment_block_re text) as [|b bs]; [reflexivity|].
  cbn [List.map]. unfold set_description, lower_doc.
  cbn [description author version date comments]. rewrite strip_lower.
  reflexivity.
Qed.

End CaseFacts.

(** ** Declaration lines *)

Module LineFacts.

Import Re TwinCATParser Spec Examples Shape Lines.
Import StrFacts ReFacts GroupFacts ParserFacts FieldFacts.

(** *** The steps of a match that goes through *)

Section Steps.

Context {A : Type}.

Implicit Types (k : @kont A) (r : regex) (s u rest : string)
         (acc : list ascii) (c : caps) (x : A).

Lemma star_greedy_stops p k rest acc c :
  stops p rest = true -> star_greedy p k rest acc c = k rest acc c.
Proof.
  destruct rest as [|a t]; [reflexivity|]. cbn [stops star_greedy].
  destruct (p a); [discriminate | reflexivity].
Qed.

(** A repetition takes all of [u] when what follows goes through
    behind it. *)
Lemma star_step p r k u rest acc c x :
  all p u = true -> stops p rest = true ->
  rmatch r rest (push u acc) c k = Some x ->
  rmatch (Seq (Star true p) r) (u ++ rest) acc c k = Some x.
Proof.
  intros U S H. cbn [rmatch]. apply star_greedy_run; [exact U|].
  rewrite star_greedy_stops; assumption.
Qed.

Lemma group_plus_last n p k u rest acc c x :
  u <> EmptyString -> all p u = true -> stops p rest = true ->
  k rest (push u acc) ((n, u) :: c) = Some x ->
  rmatch (Group n (plus p)) (u ++ rest) acc c k = Some x.
Proof.
  intros N U S H. destruct u as [|a u]; [destruct N; reflexivity|].
  cbn [all] in U. apply andb_true_iff in U as [Pa U].
  unfold plus. cbn [rmatch append]. rewrite Pa.
  apply star_greedy_run; [exact U|].
  rewrite star_greedy_stops; [|exact S].
  change (push u (a :: acc)) with (push (String a u) acc).
  rewrite text_since_push. exact H.
Qed.

Lemma group_plus_step n p r k u rest acc c x :
  u <> EmptyString -> all p u = true -> stops p rest = true ->
  rmatch r rest (push u acc) ((n, u) :: c) k = Some x ->
  rmatch (Seq (Group n (plus p)) r) (u ++ rest) acc c k = Some x.
Proof.
  intros N U S H.
  change (rmatch (Seq (Group n (plus p)) r) (u ++ rest) acc c k)
    with (rmatch (Group n (plus p)) (u ++ rest) acc c
                 (fun s' acc' c' => rmatch r s' acc' c' k)).
  apply group_plus_last; assumption.
Qed.

Lemma chr_step a r k rest acc c x :
  rmatch r rest (a :: acc) c k = Some x ->
  rmatch (Seq (ch a) r) (String a rest) acc c k = Some x.
Proof.
  intros H. unfold ch. cbn [rmatch]. rewrite Ascii.eqb_refl. exact H.
Qed.

Lemma opt_take r1 r k s acc c x :
  rmatch r1 s acc c (fun s' acc' c' => rmatch r s' acc' c' k) = Some x ->
  rmatch (Seq (opt r1) r) s acc c k = Some x.
Proof. intros H. unfold opt. cbn [rmatch]. rewrite H. reflexivity. Qed.

Lemma opt_skip r1 r k s acc c x :
  rmatch r1 s acc c (fun s' acc' c' => rmatch r s' acc' c' k) = None ->
  rmatch r s acc c k = Some x ->
  rmatch (Seq (opt r1) r) s acc c k = Some x.
Proof. intros N H. unfold opt. cbn [rmatch]. rewrite N. exact H. Qed.

Lemma opt_take_last r1 k s acc c x :
  rmatch r1 s acc c k = Some x -> rmatch (opt r1) s acc c k = Some x.
Proof. intros H. unfold opt. cbn [rmatch]. rewrite H. reflexivity. Qed.

Lemma opt_skip_last r1 k s acc c x :
  rmatch r1 s acc c k = None -> k s acc c = Some x ->
  rmatch (opt r1) s acc c k = Some x.
Proof. intros N H. unfold opt. cbn [rmatch]. rewrite N. exact H. Qed.

Lemma word_step eq w r k s m rest acc c x :
  eat eq w s = Some (m, rest) ->
  rmatch r rest (push m acc) c k = Some x ->
  rmatch (Seq (word eq w) r) s acc c k = Some x.
Proof.
  intros E H.
  change (rmatch (Seq (word eq w) r) s acc c k)
    with (rmatch (word eq w) s acc c
                 (fun s' acc' c' => rmatch r s' acc' c' k)).
  rewrite rmatch_word, E. exact H.
Qed.

Lemma group_star_last n p k u rest acc c x :
  all p u = true -> stops p rest = true ->
  k rest (push u acc) ((n, u) :: c) = Some x ->
  rmatch (Group n (Star true p)) (u ++ rest) acc c k = Some x.
Proof.
  intros U S H. cbn [rmatch]. apply star_greedy_run; [exact U|].
  rewrite star_greedy_stops; [|exact S]. rewrite text_since_push. exact H.
Qed.

End Steps.

(** *** Plain parts *)

Lemma length_lstrip (s : string) :
  String.length (Str.lstrip s) <= String.length s.
Proof.
  destruct (lstrip_split s) as (sp & E & _).
  rewrite E at 2. rewrite length_append. lia.
Qed.

Lemma length_rstrip (s : string) :
  String.length (Str.rstrip s) <= String.length s.
Proof.
  destruct (rstrip_split s) as (tl & E & _).
  rewrite E at 2. rewrite length_append. lia.
Qed.

Lemma plain_parts (s : string) :
  plain s = true ->
  s <> EmptyString /\ Str.strip s = s
  /\ (forall rest, stops ws (s ++ rest) = true) /\ Str.rstrip s = s.
Proof.
  unfold plain. intros H. apply andb_true_iff in H as [N E].
  apply String.eqb_eq in E.
  destruct s as [|a t]; [discriminate N|].
  assert (Ha : Char.isspace a = false).
  { destruct (Char.isspace a) eqn:Ha; [|reflexivity]. exfalso.
    apply (f_equal String.length) in E. unfold Str.strip in E.
    cbn [Str.lstrip] in E. rewrite Ha in E.
    pose proof (length_rstrip (Str.lstrip t)).
    pose proof (length_lstrip t). cbn [String.length] in E. lia. }
  split; [discriminate|]. split; [exact E|]. split.
  - intros rest. cbn [append stops]. unfold ws. rewrite Ha. reflexivity.
  - unfold Str.strip in E. cbn [Str.lstrip] in E. rewrite Ha in E. exact E.
Qed.

Lemma rstrip_space (e : string) :
  all Char.isspace e = true -> Str.rstrip e = EmptyString.
Proof.
  induction e as [|a e IH]; [reflexivity|]. cbn [all Str.rstrip].
  intros H. apply andb_true_iff in H as [Ha He]. rewrite (IH He), Ha.
  reflexivity.
Qed.

Lemma rstrip_app_space (s e : string) :
  all Char.isspace e = true -> Str.rstrip (s ++ e) = Str.rstrip s.
Proof.
  intros H. induction s as [|a s IH]; [apply rstrip_space, H|].
  cbn [append Str.rstrip]. rewrite IH. reflexivity.
Qed.

(** A plain part followed by white space is what [strip] gives back. *)
Lemma strip_plain (s e : string) :
  plain s = true -> all Char.isspace e = true -> Str.strip (s ++ e) = s.
Proof.
  intros P E. destruct (plain_parts s P) as (N & _ & S & R).
  destruct s as [|a t]; [destruct N; reflexivity|].
  specialize (S e). cbn [append stops] in S. unfold ws in S.
  unfold Str.strip. cbn [append Str.lstrip].
  destruct (Char.isspace a); [discriminate S|].
  change (String a (t ++ e)) with (String a t ++ e).
  rewrite rstrip_app_space; assumption.
Qed.

(** *** The end of a declaration *)

(** An optional character that is there is taken. *)
Lemma opt_chr_step {A : Type} (a : ascii) (r : regex) (k : @kont A)
      (rest : string) (acc : list ascii) (c : caps) (x : A) :
  rmatch r rest (a :: acc) c k = Some x ->
  rmatch (Seq (opt (ch a)) r) (String a rest) acc c k = Some x.
Proof.
  intros H. apply opt_take. unfold ch. cbn [rmatch].
  rewrite Ascii.eqb_refl. exact H.
Qed.

(** With a comment: the match ends with the line. *)
Lemma end_with_comment (c rest : string) (acc : list ascii) (cs : caps) :
  plain c = true -> all Char.notnl c = true ->
  stops Char.notnl rest = true ->
  rmatch declaration_end ("; // " ++ c ++ rest) acc cs accept
  = Some (MObj (text_since [] (push ("; // " ++ c) acc)) ((4, c) :: cs)).
Proof.
  intros P N S. destruct (plain_parts c P) as (_ & _ & Sc & _).
  unfold declaration_end. cbn [seq].
  apply (star_step ws _ _ EmptyString); [reflexivity | reflexivity|].
  apply opt_chr_step.
  apply (star_step ws _ _ " "); [reflexivity | reflexivity|].
  apply opt_take_last.
  apply (word_step Ascii.eqb "//" _ _ _ "//" (" " ++ c ++ rest));
    [reflexivity|].
  apply (star_step ws _ _ " "); [reflexivity | apply Sc|].
  apply group_star_last; [exact N | exact S|].
  unfold accept. rewrite !push_app. reflexivity.
Qed.

(** Without comment: the match takes the white space behind the
    semicolon. *)
Lemma end_without_comment (wsp rest : string) (acc : list ascii)
      (cs : caps) :
  all Char.isspace wsp = true -> stops ws rest = true ->
  eat Ascii.eqb "//" rest = None ->
  rmatch declaration_end (";" ++ wsp ++ rest) acc cs accept
  = Some (MObj (text_since [] (push (";" ++ wsp) acc)) cs).
Proof.
  intros W S E. unfold declaration_end. cbn [seq].
  apply (star_step ws _ _ EmptyString); [reflexivity | reflexivity|].
  apply opt_chr_step.
  apply (star_step ws _ _ wsp); [exact W | exact S|].
  apply opt_skip_last.
  - change (rmatch (Seq (lit "//") (Seq (Star true ws)
                                        (Group 4 (Star true Char.notnl))))
                   rest (push wsp (";"%char :: push EmptyString acc)) cs
                   accept)
      with (rmatch (lit "//") rest
                   (push wsp (";"%char :: push EmptyString acc)) cs
                   (fun s' acc' c' =>
                      rmatch (Seq (Star true ws)
                                  (Group 4 (Star true Char.notnl)))
                             s' acc' c' accept)).
    unfold lit. rewrite rmatch_word, E. reflexivity.
  - unfold accept. rewrite !push_app. reflexivity.
Qed.

(** Without semicolon, at the end of the block. *)
Lemma end_of_block (acc : list ascii) (cs : caps) :
  rmatch declaration_end EmptyString acc cs accept
  = Some (MObj (text_since [] acc) cs).
Proof. reflexivity. Qed.

(** *** The front of a declaration *)

(** No default is read in front of a semicolon or at the end of the
    block. *)
Lemma no_default (tl : string) (acc : list ascii) (cs : caps)
      (k : @kont mobj) :
  tl = EmptyString \/ (exists t, tl = String ";" t) ->
  rmatch (seq [Star true ws; lit ":="; Star true ws;
               Group 3 (plus (Char.noneof [";"]%char))])
         tl acc cs k = None.
Proof. intros [->|[t ->]]; reflexivity. Qed.

Lemma stops_at_end (p : ascii -> bool) (tl : string) :
  p ";"%char = false ->
  tl = EmptyString \/ (exists t, tl = String ";" t) -> stops p tl = true.
Proof. intros P [->|[t ->]]; cbn [stops]; [|rewrite P]; reflexivity. Qed.

(** A name, a colon and a type, and the end [tl]. *)
Lemma front_without_default (n g2 tl consumed : string) (cc : caps) :
  n <> EmptyString -> all Char.isword n = true ->
  g2 <> EmptyString -> all (Char.noneof [";"; ":"; "="]%char) g2 = true ->
  stops ws (g2 ++ tl) = true ->
  tl = EmptyString \/ (exists t, tl = String ";" t) ->
  (forall acc cs,
      rmatch declaration_end tl acc cs accept
      = Some (MObj (text_since [] (push consumed acc)) (cc ++ cs)%list)) ->
  match_at var_pattern (n ++ " : " ++ g2 ++ tl)
  = Some (MObj (n ++ " : " ++ g2 ++ consumed)
               (cc ++ [(2, g2); (1, n)])%list).
Proof.
  intros Nn Wn N2 W2 S2 T H. unfold match_at, var_pattern. cbn [seq].
  apply group_plus_step; [exact Nn | exact Wn | reflexivity|].
  apply (star_step ws _ _ " "); [reflexivity | reflexivity|].
  apply chr_step.
  apply (star_step ws _ _ " "); [reflexivity | exact S2|].
  apply group_plus_step;
    [exact N2 | exact W2 | apply stops_at_end; [reflexivity | exact T] |].
  apply opt_skip; [apply no_default, T|].
  change (rmatch declaration_end tl
                 (push g2 (push " " (":"%char :: push " " (push n []))))
                 [(2, g2); (1, n)] accept
          = Some (MObj (n ++ " : " ++ g2 ++ consumed)
                       (cc ++ [(2, g2); (1, n)])%list)).
  rewrite H. do 2 f_equal.
  change (push consumed
               (push g2 (push " " (":"%char :: push " " (push n [])))))
    with (push consumed (push g2 (push " : " (push n [])))).
  rewrite <- !push_app. apply (text_since_push _ []).
Qed.

(** A name, a colon, a type and a default, and the end [tl]. *)
Lemma front_with_default (n ty g3 tl consumed : string) (cc : caps) :
  n <> EmptyString -> all Char.isword n = true ->
  ty <> EmptyString -> all (Char.noneof [";"; ":"; "="]%char) ty = true ->
  stops ws (ty ++ " := " ++ g3 ++ tl) = true ->
  g3 <> EmptyString -> all (Char.noneof [";"]%char) g3 = true ->
  stops ws (g3 ++ tl) = true ->
  tl = EmptyString \/ (exists t, tl = String ";" t) ->
  (forall acc cs,
      rmatch declaration_end tl acc cs accept
      = Some (MObj (text_since [] (push consumed acc)) (cc ++ cs)%list)) ->
  match_at var_pattern (n ++ " : " ++ ty ++ " := " ++ g3 ++ tl)
  = Some (MObj (n ++ " : " ++ ty ++ " := " ++ g3 ++ consumed)
               (cc ++ [(3, g3); (2, (ty ++ " ")%string); (1, n)])%list).
Proof.
  intros Nn Wn Nt Wt St N3 W3 S3 T H. unfold match_at, var_pattern.
  cbn [seq].
  apply group_plus_step; [exact Nn | exact Wn | reflexivity|].
  apply (star_step ws _ _ " "); [reflexivity | reflexivity|].
  apply chr_step.
  apply (star_step ws _ _ " "); [reflexivity | exact St|].
  change (ty ++ " := " ++ g3 ++ tl) with (ty ++ " " ++ ":= " ++ g3 ++ tl).
  rewrite <- (append_assoc ty " ").
  apply group_plus_step.
  - destruct ty; discriminate.
  - rewrite all_app, Wt. reflexivity.
  - reflexivity.
  - apply opt_take. cbn [seq].
    apply (star_step ws _ _ EmptyString); [reflexivity | reflexivity|].
    apply (word_step Ascii.eqb ":=" _ _ _ ":=" (" " ++ g3 ++ tl));
      [reflexivity|].
    apply (star_step ws _ _ " "); [reflexivity | exact S3|].
    apply group_plus_last;
      [exact N3 | exact W3 | apply stops_at_end; [reflexivity | exact T] |].
    cbn beta.
    change (rmatch declaration_end tl
                   (push g3 (push " " (push ":=" (push EmptyString
                      (push (ty ++ " ")
                            (push " " (":"%char :: push " " (push n []))))))))
                   [(3, g3); (2, (ty ++ " ")%string); (1, n)] accept
            = Some (MObj (n ++ " : " ++ ty ++ " := " ++ g3 ++ consumed)
                         (cc ++ [(3, g3); (2, (ty ++ " ")%string); (1, n)])%list)).
    rewrite H. do 2 f_equal.
    change (push consumed
              (push g3 (push " " (push ":=" (push EmptyString
                 (push (ty ++ " ")
                       (push " " (":"%char :: push " " (push n [])))))))))
      with (push consumed
              (push g3 (push ":= " (push (ty ++ " ")
                                          (push " : " (push n [])))))).
    rewrite <- !push_app, !append_assoc. apply (text_since_push _ []).
Qed.

(** *** Declarations *)

(** What follows a line: no white space and no comment at its front. *)
Lemma word_start (s rest : string) :
  s <> EmptyString -> all Char.isword s = true ->
  stops ws (s ++ rest) = true
  /\ eat Ascii.eqb "//" (s ++ rest) = None.
Proof.
  destruct s as [|a s]; [congruence|]. intros _ H.
  cbn [all] in H. apply andb_prop in H as [H _]. split.
  - cbn [append stops]. apply isword_not_space, H.
  - cbn [append eat]. destruct (Ascii.eqb_spec "/" a) as [<-|]; 
      [discriminate H | reflexivity].
Qed.

Lemma well_formed_parts (d : Declaration) :
  well_formed_declaration d = true ->
  d_name d <> EmptyString /\ all Char.isword (d_name d) = true
  /\ keep_variable (decl_field d) = true
  /\ plain (d_type d) = true
  /\ all (Char.noneof [";"; ":"; "="]%char) (d_type d) = true
  /\ (forall v, d_default d = Some v ->
                plain v = true /\ all (Char.noneof [";"]%char) v = true)
  /\ (forall c, d_comment d = Some c ->
                plain c = true /\ all Char.notnl c = true).
Proof.
  unfold well_formed_declaration. intros H.
  apply andb_prop in H as [H Hc]. apply andb_prop in H as [H Hd].
  apply andb_prop in H as [H Ht]. apply andb_prop in H as [H Hp].
  apply andb_prop in H as [H Hk]. apply andb_prop in H as [Hn Hw].
  split; [destruct (d_name d); [discriminate Hn | discriminate]|].
  split; [exact Hw|].
  split; [unfold keep_variable, decl_field; cbn [name];
          rewrite Hn, Hk; reflexivity|].
  split; [exact Hp|]. split; [exact Ht|]. split.
  - intros v E. rewrite E in Hd. apply andb_prop, Hd.
  - intros c E. rewrite E in Hc. apply andb_prop, Hc.
Qed.

Lemma all_space_noneof (l : list ascii) (e : string) :
  forallb (fun a => negb (Char.isspace a)) l = true ->
  all Char.isspace e = true -> all (Char.noneof l) e = true.
Proof.
  intros L. induction e as [|a e IH]; [reflexivity|].
  cbn [all]. intros H. apply andb_prop in H as [Ha He].
  rewrite (IH He), andb_true_r. unfold Char.noneof.
  apply negb_true_iff. destruct (existsb (Ascii.eqb a) l) eqn:E;
    [|reflexivity].
  apply existsb_exists in E as (x & I & E).
  apply Ascii.eqb_eq in E. subst x.
  rewrite forallb_forall in L. specialize (L a I). rewrite Ha in L.
  discriminate L.
Qed.

(** The match of the pattern at a declaration that the white space [e]
    and the end [tl] follow. *)
Lemma decl_match (d : Declaration) (e tl consumed : string) (cc : caps) :
  well_formed_declaration d = true ->
  all Char.isspace e = true ->
  tl = EmptyString \/ (exists t, tl = String ";" t) ->
  (forall acc cs,
      rmatch declaration_end tl acc cs accept
      = Some (MObj (text_since [] (push consumed acc)) (cc ++ cs)%list)) ->
  match_at var_pattern (decl_front d ++ e ++ tl)
  = Some (MObj (decl_front d ++ e ++ consumed)
               (cc ++ front_groups d e)%list).
Proof.
  intros W E T H.
  destruct (well_formed_parts d W) as (Nn & Wn & _ & Pt & Wt & Dv & _).
  destruct (plain_parts _ Pt) as (Nt & _ & St & _).
  unfold decl_front, front_groups.
  destruct (d_default d) as [v|].
  - destruct (Dv v eq_refl) as [Pv Wv].
    destruct (plain_parts _ Pv) as (Nv & _ & Sv & _).
    rewrite !append_assoc.
    change ((" := " ++ v) ++ e ++ tl) with (" := " ++ v ++ e ++ tl).
    change ((" := " ++ v) ++ e ++ consumed)
      with (" := " ++ v ++ e ++ consumed).
    rewrite <- (append_assoc v e tl), <- (append_assoc v e consumed).
    apply front_with_default; try assumption.
    + apply St.
    + destruct v; [congruence | discriminate].
    + rewrite all_app, Wv. apply all_space_noneof; [reflexivity | exact E].
    + rewrite append_assoc. apply Sv.
  - rewrite !append_assoc. cbn [append].
    rewrite <- (append_assoc (d_type d) e tl),
      <- (append_assoc (d_type d) e consumed).
    apply front_without_default; try assumption.
    + destruct (d_type d); [congruence | discriminate].
    + rewrite all_app, Wt. apply all_space_noneof; [reflexivity | exact E].
    + rewrite append_assoc. apply St.
Qed.

(** The field of the match: the parts of the declaration, and the empty
    string for a part that is absent. *)
Lemma decl_match_field (d : Declaration) (e t : string) :
  well_formed_declaration d = true ->
  all Char.isspace e = true ->
  field_of_match
    (MObj t (match d_comment d with
             | Some c => [(4, c)]
             | None => []
             end ++ front_groups d e)%list)
  = decl_field d.
Proof.
  intros W E.
  destruct (well_formed_parts d W) as (Nn & Wn & _ & Pt & Wt & Dv & Dc).
  assert (Sn : Str.strip (d_name d) = d_name d).
  { apply strip_no_space.
    clear - Wn. induction (d_name d) as [|a s IH]; [reflexivity|].
    cbn [all] in *. apply andb_prop in Wn as [Ha Hs].
    rewrite (isword_not_space a Ha). apply IH, Hs. }
  unfold field_of_match, decl_field, group_strip, group_strip_or_empty,
    group, front_groups. cbn [m_groups].
  destruct (d_comment d) as [c|], (d_default d) as [v|];
    cbn [app lookup Nat.eqb or_empty].
  - destruct (Dc c eq_refl) as [Pc _], (Dv v eq_refl) as [Pv _].
    destruct (plain_parts _ Pc) as (Nc & Sc & _).
    destruct (plain_parts _ Pv) as (Nv & _).
    rewrite Sn, (strip_plain _ " " Pt eq_refl), (strip_plain _ e Pv E), Sc.
    destruct c; [congruence|]. destruct v; [congruence|]. reflexivity.
  - destruct (Dc c eq_refl) as [Pc _].
    destruct (plain_parts _ Pc) as (Nc & Sc & _).
    rewrite Sn, (strip_plain _ e Pt E), Sc.
    destruct c; [congruence|]. reflexivity.
  - destruct (Dv v eq_refl) as [Pv _].
    destruct (plain_parts _ Pv) as (Nv & _).
    rewrite Sn, (strip_plain _ " " Pt eq_refl), (strip_plain _ e Pv E).
    destruct v; [congruence|]. reflexivity.
  - rewrite Sn, (strip_plain _ e Pt E). reflexivity.
Qed.

(** *** Lines *)

(** A declaration with its semicolon and what is left of its line: one
    match, and the scan goes on behind the white space. *)
Lemma scan_line (d : Declaration) (after rest : string) :
  well_formed_declaration d = true ->
  all Char.isspace after = true ->
  stops ws rest = true -> eat Ascii.eqb "//" rest = None ->
  exists m,
    scan var_pattern (decl_text true d ++ nl ++ after ++ rest) 0
    = m :: scan var_pattern rest 0
    /\ field_of_match m = decl_field d.
Proof.
  intros W A S E.
  destruct (well_formed_parts d W) as (Nn & _ & _ & _ & _ & _ & Dc).
  assert (Nf : forall x, decl_front d ++ x <> EmptyString).
  { intros x. unfold decl_front. destruct (d_name d); [congruence|].
    discriminate. }
  assert (Dead : forall x, all Char.isspace x = true ->
                           scan var_pattern (x ++ rest) 0
                           = scan var_pattern rest 0).
  { intros x X. apply scan_dead, (dead_class _ Char.isspace);
      [intros; apply var_pattern_space; assumption | exact X]. }
  pose proof (decl_match_field d EmptyString) as F.
  unfold decl_text. destruct (d_comment d) as [c|] eqn:C.
  - destruct (Dc c eq_refl) as [Pc Nc].
    eexists. split; [|apply F; [exact W | reflexivity]].
    rewrite !append_assoc.
    change (";" ++ (" // " ++ c) ++ nl ++ after ++ rest)
      with (EmptyString ++ ("; // " ++ c ++ nl ++ after ++ rest)).
    assert (M := decl_match d EmptyString
                  ("; // " ++ c ++ nl ++ after ++ rest)
                  ("; // " ++ c) [(4, c)] W eq_refl
                  ltac:(right; eexists; reflexivity)
                  (fun acc cs =>
                     end_with_comment c (nl ++ after ++ rest) acc cs Pc Nc
                                      eq_refl)).
    cbn [append] in M.
    change (decl_front d
            ++ String ";" (String " " (String "/" (String "/" (String " "
                 (c ++ nl ++ after ++ rest))))))
      with (decl_front d ++ ("; // " ++ c) ++ (nl ++ after ++ rest)) in M.
    cbn [append]. 
    change (decl_front d
            ++ String ";" (String " " (String "/" (String "/" (String " "
                 (c ++ nl ++ after ++ rest))))))
      with (decl_front d ++ ("; // " ++ c) ++ (nl ++ after ++ rest)).
    rewrite <- append_assoc in M |- *.
    rewrite (scan_match _ _ _ _ M); [| reflexivity | apply Nf].
    f_equal. rewrite <- (append_assoc nl after rest). apply Dead.
    rewrite all_app, A. reflexivity.
  - eexists. split; [|apply F; [exact W | reflexivity]].
    assert (A' : all Char.isspace (nl ++ after) = true)
      by (rewrite all_app, A; reflexivity).
    assert (M := decl_match d EmptyString
                  (";" ++ (nl ++ after) ++ rest)
                  (";" ++ nl ++ after) [] W eq_refl
                  ltac:(right; eexists; reflexivity)
                  (fun acc cs =>
                     end_without_comment (nl ++ after) rest acc cs
                                         A' S E)).
    unfold nl in M |- *. rewrite !append_assoc. cbn [append] in M |- *.
    change (decl_front d ++ String ";" (String Char.LF (after ++ rest)))
      with (decl_front d ++ String ";" (String Char.LF after) ++ rest)
      in M |- *.
    rewrite <- append_assoc in M |- *.
    rewrite (scan_match _ _ _ _ M); [reflexivity | reflexivity | apply Nf].
Qed.

Lemma append_nil_r (s : string) : s ++ EmptyString = s.
Proof. induction s as [|a s IH]; cbn; congruence. Qed.

(** The last declaration of a block, without semicolon and without
    comment: one match, which takes the white space that follows. *)
Lemma scan_last (d : Declaration) (tail : string) :
  well_formed_declaration d = true -> d_comment d = None ->
  all Char.isspace tail = true ->
  exists m,
    scan var_pattern (decl_text false d ++ tail) 0 = [m]
    /\ field_of_match m = decl_field d.
Proof.
  intros W C T.
  destruct (well_formed_parts d W) as (Nn & _).
  pose proof (decl_match_field d tail) as F.
  assert (M := decl_match d tail EmptyString EmptyString [] W T
                 (or_introl eq_refl)
                 (fun acc cs => end_of_block acc cs)).
  assert (X : decl_text false d = decl_front d).
  { unfold decl_text. rewrite C. cbn [append]. apply append_nil_r. }
  rewrite C in F. rewrite X. rewrite !append_nil_r in M.
  exists (MObj (decl_front d ++ tail) ([] ++ front_groups d tail)%list).
  split; [|apply F; [exact W | exact T]].
  pose proof (scan_match var_pattern (decl_front d ++ tail) EmptyString
                         (MObj (decl_front d ++ tail)
                               ([] ++ front_groups d tail)%list)) as Sm.
  rewrite append_nil_r in Sm. apply Sm; [exact M | reflexivity|].
  unfold decl_front. destruct (d_name d); [congruence | discriminate].
Qed.

(** Lines begin with a word character. *)
Lemma lines_start (ls : list line) (rest : string) :
  forallb well_formed_line ls = true ->
  stops ws rest = true -> eat Ascii.eqb "//" rest = None ->
  stops ws (lines_text ls ++ rest) = true
  /\ eat Ascii.eqb "//" (lines_text ls ++ rest) = None.
Proof.
  destruct ls as [|[d after] ls]; [auto|]. intros H _ _.
  cbn [forallb] in H. apply andb_prop in H as [H _].
  apply andb_prop in H as [W _]. cbn [fst] in W.
  destruct (well_formed_parts d W) as (Nn & Wn & _).
  cbn [lines_text]. unfold decl_text, decl_front.
  rewrite !append_assoc. apply word_start; assumption.
Qed.

(** The matches in a sequence of lines are their declarations. *)
Lemma fields_of_lines (ls : list line) (rest : string) :
  forallb well_formed_line ls = true ->
  stops ws rest = true -> eat Ascii.eqb "//" rest = None ->
  List.map field_of_match (scan var_pattern (lines_text ls ++ rest) 0)
  = (List.map line_field ls
       ++ List.map field_of_match (scan var_pattern rest 0))%list.
Proof.
  intros H S E. induction ls as [|[d after] ls IH]; [reflexivity|].
  cbn [forallb] in H. apply andb_prop in H as [H Hls].
  apply andb_prop in H as [W A]. cbn [fst snd] in W, A.
  destruct (lines_start ls rest Hls S E) as [S' E'].
  destruct (scan_line d after (lines_text ls ++ rest) W A S' E')
    as (m & M & F).
  cbn [lines_text]. rewrite !append_assoc, M.
  cbn [List.map app]. rewrite F, (IH Hls). reflexivity.
Qed.

Lemma keep_lines (ls : list line) :
  forallb well_formed_line ls = true ->
  filter keep_variable (List.map line_field ls) = List.map line_field ls.
Proof.
  intros H. apply filter_all. apply Forall_forall. intros f I.
  apply in_map_iff in I as ([d after] & <- & I).
  rewrite forallb_forall in H. specialize (H _ I).
  apply andb_prop in H as [W _].
  apply (well_formed_parts d W).
Qed.

(** The fields of a block that begins with lines. *)
Lemma block_of_lines (indent : string) (ls : list line) (rest : string) :
  all Char.isspace indent = true ->
  forallb well_formed_line ls = true ->
  stops ws rest = true -> eat Ascii.eqb "//" rest = None ->
  block_variables (indent ++ lines_text ls ++ rest)
  = (List.map line_field ls ++ block_variables rest)%list.
Proof.
  intros I H S E. unfold block_variables, finditer.
  rewrite (scan_dead var_pattern indent);
    [| apply (dead_class _ Char.isspace);
       [intros; apply var_pattern_space; assumption | exact I]].
  rewrite (fields_of_lines ls rest H S E), filter_app, (keep_lines ls H).
  reflexivity.
Qed.

(** The fields of a block that ends with a declaration without
    semicolon. *)
Lemma block_of_last (d : Declaration) (tail : string) :
  well_formed_declaration d = true -> d_comment d = None ->
  all Char.isspace tail = true ->
  block_variables (decl_text false d ++ tail) = [decl_field d].
Proof.
  intros W C T. unfold block_variables, finditer.
  destruct (scan_last d tail W C T) as (m & -> & F).
  cbn [List.map filter]. rewrite F.
  destruct (well_formed_parts d W) as (_ & _ & -> & _). reflexivity.
Qed.

(** *** The first input block *)

Lemma absent_block_end (acc0 : list ascii) (u rest : string) (c : caps) :
  absent Char.eqb_nocase "END_VAR" u rest ->
  kdead (block_end acc0) u rest c.
Proof.
  induction u as [|a u IH]; cbn [absent kdead]; [auto|].
  intros [H A]. split; [|apply IH, A].
  intros acc. unfold block_end. rewrite H. reflexivity.
Qed.

(** The first input block of a text is what stands between the first
    open marker and the first closing marker behind it, and the search
    goes on behind that marker. *)
Lemma first_input_body (pre body post : string) :
  first_after Char.eqb_nocase pre "VAR_INPUT" = true ->
  first_after Char.eqb_nocase body "END_VAR" = true ->
  findall1 var_input_re (pre ++ "VAR_INPUT" ++ body ++ "END_VAR" ++ post)
  = body :: findall1 var_input_re post.
Proof.
  intros Hpre Hbody. unfold findall1, finditer.
  assert (D : dead var_input_re pre
                   ("VAR_INPUT" ++ body ++ "END_VAR" ++ post)).
  { apply (dead_before_first Char.eqb_nocase "VAR_INPUT");
      [discriminate | exact Hpre]. }
  rewrite (scan_dead _ _ _ D).
  pose proof (absent_before_first Char.eqb_nocase "END_VAR" body post
                ltac:(discriminate) Hbody) as A.
  set (acc0 := push "VAR_INPUT" []).
  set (m := MObj ("VAR_INPUT" ++ body ++ "END_VAR") [(1, body)]).
  assert (M : match_at var_input_re
                       (("VAR_INPUT" ++ body ++ "END_VAR") ++ post)
              = Some m).
  { unfold var_input_re. rewrite match_at_block_re, !append_assoc.
    change (eat Char.eqb_nocase "VAR_INPUT"
                ("VAR_INPUT" ++ body ++ "END_VAR" ++ post))
      with (Some ("VAR_INPUT", body ++ "END_VAR" ++ post)).
    cbv iota beta. fold acc0. rewrite star_lazy_kdead;
      [| apply all_anychar | apply absent_block_end, A].
    assert (X : block_end acc0 ("END_VAR" ++ post) (push body acc0) []
                = Some m).
    { unfold block_end.
      change (eat Char.eqb_nocase "END_VAR" ("END_VAR" ++ post))
        with (Some ("END_VAR", post)).
      unfold accept, m. rewrite text_since_push. f_equal. f_equal.
      unfold acc0. rewrite <- !push_app. apply (text_since_push _ []). }
    change ("END_VAR" ++ post) with (String "E" ("ND_VAR" ++ post)) in *.
    cbn [star_lazy]. rewrite X. reflexivity. }
  replace ("VAR_INPUT" ++ body ++ "END_VAR" ++ post)
    with (("VAR_INPUT" ++ body ++ "END_VAR") ++ post)
    by (rewrite !append_assoc; reflexivity).
  rewrite (scan_match _ _ _ _ M); [reflexivity | reflexivity | discriminate].
Qed.

(** The fields of the first input block come first. *)
Lemma first_input_fields (pre body post : string) :
  first_after Char.eqb_nocase pre "VAR_INPUT" = true ->
  first_after Char.eqb_nocase body "END_VAR" = true ->
  exists fs,
    _extract_variables (pre ++ "VAR_INPUT" ++ body ++ "END_VAR" ++ post)
                       false
    = (block_variables body ++ fs)%list.
Proof.
  intros Hpre Hbody. unfold _extract_variables, var_blocks.
  rewrite (first_input_body pre body post Hpre Hbody).
  cbn [app flat_map]. eexists. reflexivity.
Qed.

(** The fields of every input block are returned. *)
Lemma input_block_fields (text block : string) (f : FieldInfo) :
  In block (findall1 var_input_re text) ->
  In f (block_variables block) ->
  In f (_extract_variables text false).
Proof.
  intros B F. unfold _extract_variables, var_blocks.
  apply in_flat_map. exists block. split; [|exact F].
  apply in_or_app. left. exact B.
Qed.

(** *** What follows the lines *)

Lemma starts_line_parts (rest : string) :
  starts_line rest = true ->
  stops ws rest = true /\ eat Ascii.eqb "//" rest = None.
Proof.
  unfold starts_line. intros H. apply andb_prop in H as [S E].
  split; [exact S|]. destruct (eat Ascii.eqb "//" rest);
    [discriminate E | reflexivity].
Qed.

(** A declaration starts a line. *)
Lemma decl_starts_line (b : bool) (d : Declaration) (x : string) :
  well_formed_declaration d = true ->
  starts_line (decl_text b d ++ x) = true.
Proof.
  intros W. destruct (well_formed_parts d W) as (Nn & Wn & _).
  unfold decl_text, decl_front.
  destruct (d_name d) as [|a n]; [congruence|].
  cbn [all] in Wn. apply andb_prop in Wn as [Wa _].
  cbn [append]. unfold starts_line. cbn [stops eat].
  rewrite (isword_not_space a Wa).
  destruct (Ascii.eqb_spec "/" a) as [<-|]; [discriminate Wa | reflexivity].
Qed.

End LineFacts.

(** ** Labelled comments *)

Module CommentFacts.

Import Re TwinCATParser Spec Examples Shape Comments.
Import StrFacts ReFacts GroupFacts ParserFacts LanguageFacts DocFacts.

(** The fields that the loop sets are those of the record, but for the
    description when there is a block comment. *)
Lemma field_first_pass (l : label) (text : string) :
  (l = Description -> findall1 comment_block_re text = []) ->
  field l (_extract_documentation text)
  = field l (fold_left doc_step (findall1 comment_line_re text)
                       (first_doc_info (findall1 comment_line_re text))).
Proof.
  intros H. unfold _extract_documentation, first_doc_info.
  cbn [description author version date].
  destruct (findall1 comment_block_re text) as [|b bs]; [reflexivity|].
  destruct l; [specialize (H eq_refl); discriminate H | | |]; reflexivity.
Qed.

(** A label that no line bears leaves its field as it was. *)
Lemma fold_doc_step_none (l : label) (ls : list string) (d : DocInfo) :
  forallb (fun x => negb (has_label l x)) ls = true ->
  field l (fold_left doc_step ls d) = field l d.
Proof.
  revert d. induction ls as [|x ls IH]; intros d H; [reflexivity|].
  cbn [forallb] in H. apply andb_prop in H as [Hx H].
  cbn [fold_left]. rewrite (IH _ H), doc_step_field.
  apply negb_true_iff in Hx. rewrite Hx. reflexivity.
Qed.

(** The field of a label is the value of the last line that bears it. *)
Lemma field_of_last_line (l : label) (text : string)
      (before after : list string) (line : string) :
  findall1 comment_line_re text = (before ++ line :: after)%list ->
  has_label l line = true ->
  forallb (fun x => negb (has_label l x)) after = true ->
  (l = Description -> findall1 comment_block_re text = []) ->
  field l (_extract_documentation text) = label_value line.
Proof.
  intros E H N B. rewrite (field_first_pass l text B), E.
  apply fold_doc_step_last; assumption.
Qed.

(** The field of a label that no line bears is empty. *)
Lemma field_without_line (l : label) (text : string) :
  forallb (fun x => negb (has_label l x)) (findall1 comment_line_re text)
  = true ->
  (l = Description -> findall1 comment_block_re text = []) ->
  field l (_extract_documentation text) = EmptyString.
Proof.
  intros N B. rewrite (field_first_pass l text B), (fold_doc_step_none l _ _ N).
  destruct l; reflexivity.
Qed.

(** The comment lines of a text made of line comments. *)
Lemma comment_lines_of (cs : list Comment) (post : string) :
  forallb well_formed_comment cs = true ->
  occurs Ascii.eqb "//" post = false ->
  findall1 comment_line_re (comments_text cs ++ post)
  = List.map c_line cs.
Proof.
  intros W O. induction cs as [|c cs IH].
  - destruct comment_line_re_word as [r ->]. apply findall1_opens, O.
  - cbn [forallb] in W. apply andb_prop in W as [Wc W].
    unfold well_formed_comment in Wc.
    apply andb_prop in Wc as [Wc Hl]. apply andb_prop in Wc as [Wc Hn].
    apply andb_prop in Wc as [Wc _]. apply andb_prop in Wc as [Hb Hs].
    cbn [comments_text List.map]. unfold comment_text.
    rewrite !append_assoc.
    rewrite first_comment_line; [rewrite (IH W); reflexivity | | | |];
      try assumption.
    destruct (c_line c) as [|a t]; [discriminate Hl|].
    exists a, t. split; [reflexivity|].
    apply negb_true_iff, Hl.
Qed.

(** No block comment without its opening. *)
Lemma no_comment_block (text : string) :
  occurs Ascii.eqb comment_open text = false ->
  findall1 comment_block_re text = [].
Proof.
  intros O. destruct comment_block_re_word as [r ->].
  apply findall1_opens, O.
Qed.

(** In a text made of line comments, the field of a label is the value
    of the last comment that bears it. *)
Lemma field_of_last_comment (l : label) (cs1 cs2 : list Comment)
      (c : Comment) (post : string) :
  forallb well_formed_comment (cs1 ++ c :: cs2) = true ->
  occurs Ascii.eqb "//" post = false ->
  has_label l (c_line c) = true ->
  forallb (fun x => negb (has_label l (c_line x))) cs2 = true ->
  (l = Description ->
   occurs Ascii.eqb comment_open (comments_text (cs1 ++ c :: cs2) ++ post)
   = false) ->
  field l (_extract_documentation (comments_text (cs1 ++ c :: cs2) ++ post))
  = label_value (c_line c).
Proof.
  intros W O H N B.
  apply (field_of_last_line l _ (List.map c_line cs1) (List.map c_line cs2)).
  - rewrite (comment_lines_of _ post W O), map_app. reflexivity.
  - exact H.
  - rewrite forallb_forall in N |- *. intros x I.
    apply in_map_iff in I as (y & <- & I). apply N, I.
  - intros D. apply no_comment_block, B, D.
Qed.

End CommentFacts.

(** * The statements of the specification *)

Import Re TwinCATParser Spec Examples Lines Comments.
Import StrFacts ReFacts GroupFacts ScannerFacts LoopFacts ParserFacts.
Import LineFacts CommentFacts.

(** ** C1: the files of a kind *)

(** C1, as stated, fails: the manifest of [bare_manifest_project] is
    present and parses, the intersection of the files on disk with the
    files it lists is empty, and yet [enumerate] returns the file on
    disk. *)
Lemma C1_manifest_without_entries :
  manifest_present bare_manifest_project
  /\ filter (is_listed bare_manifest_project)
            (glob bare_manifest_project ".TcPOU") = []
  /\ enumerate bare_manifest_project
               (fst (_get_project_included_files bare_manifest_project))
               ".TcPOU"
     <> filter (is_listed bare_manifest_project)
               (glob bare_manifest_project ".TcPOU").
Proof.
  split; [|split].
  - eexists _, _. split; [left; reflexivity | reflexivity].
  - reflexivity.
  - vm_compute. discriminate.
Qed.

(** C1, amended: when the manifests that parse list at least one
    non-empty compile-include entry, [enumerate] returns exactly the
    files found on disk with the extension that are listed, in the order
    of the search, paths being compared after normalization of the
    separators (the intersection of the files on disk and of the files
    listed); when they list none it returns all the files found on
    disk with the extension, which is the case in particular when no
    manifest is found or none parses. *)
Theorem C1_enumerate (p : Project) (ext : string) :
  enumerate p (fst (_get_project_included_files p)) ext
  = match manifest_entries p with
    | _ :: _ => filter (is_listed p) (glob p ext)
    | [] => glob p ext
    end
  /\ (manifest_entries p <> [] ->
      forall f,
        In f (enumerate p (fst (_get_project_included_files p)) ext)
        <-> In f (glob p ext)
            /\ In (normalize (rel_path f)) (manifest_entries p))
  /\ (~ manifest_present p ->
      enumerate p (fst (_get_project_included_files p)) ext = glob p ext).
Proof.
  assert (E : enumerate p (fst (_get_project_included_files p)) ext
              = match manifest_entries p with
                | _ :: _ => filter (is_listed p) (glob p ext)
                | [] => glob p ext
                end).
  { unfold enumerate, _get_project_included_files. cbn [fst].
    rewrite includes_entries.
    destruct (manifest_entries p) as [|y m] eqn:M; [reflexivity|].
    destruct (sorted_set (y :: m)) as [|x l] eqn:S.
    - apply (proj1 (sorted_set_nil _)) in S. discriminate S.
    - rewrite <- S. apply filter_ext. intros f.
      unfold is_included, is_listed. rewrite M.
      apply existsb_sorted_set. }
  split; [exact E|]. split.
  - intros N f. rewrite E.
    destruct (manifest_entries p) as [|y m] eqn:M; [congruence|].
    rewrite filter_In. unfold is_listed. rewrite M, existsb_exists.
    split; intros [G L]; (split; [exact G|]).
    + destruct L as (x & I & X). apply String.eqb_eq in X.
      rewrite X. exact I.
    + eexists. split; [exact L | apply String.eqb_refl].
  - intros H. rewrite E, (no_manifest_no_entries p H). reflexivity.
Qed.

(** C1 on [manifestless_project], which has no manifest, and on
    [listing_project], whose manifest lists one file of three. *)
Lemma C1_enumerate_witness :
  enumerate manifestless_project
            (fst (_get_project_included_files manifestless_project))
            ".TcPOU"
  = glob manifestless_project ".TcPOU"
  /\ (forall f,
         In f (enumerate listing_project
                         (fst (_get_project_included_files listing_project))
                         ".TcPOU")
         <-> In f (glob listing_project ".TcPOU")
             /\ In (normalize (rel_path f)) ["POUs/A.TcPOU"]).
Proof.
  split.
  - apply (proj2 (proj2 (C1_enumerate manifestless_project ".TcPOU"))).
    intros (proj & root & [] & _).
  - apply (proj1 (proj2 (C1_enumerate listing_project ".TcPOU"))).
    discriminate.
Defined.

(** ** C2: the three passes over the blocks *)

(** C2: the fields are those of the input blocks, then those of the output
    blocks, then those of what the third pattern takes for plain blocks,
    each pass in the order of the text.  On [fb_declaration] the third
    pattern finds its open marker in the tail of the first [END_VAR] and
    takes the output block for a plain block, so that the output variable
    is collected twice. *)
Theorem C2_passes :
  (forall text,
      _extract_variables text false
      = (flat_map block_variables (findall1 var_input_re text)
         ++ flat_map block_variables (findall1 var_output_re text)
         ++ flat_map block_variables (findall1 var_re text))%list)
  /\ findall1 var_output_re fb_declaration
     = [lines [EmptyString; "    bRunning : BOOL;"; EmptyString]]
  /\ findall1 var_re fb_declaration
     = [lines ["VAR_OUTPUT"; "    bRunning : BOOL;"; EmptyString];
        lines ["    nState : INT;"; EmptyString]]
  /\ _extract_variables fb_declaration false
     = [mkField "bStart" "BOOL" EmptyString EmptyString;
        mkField "bRunning" "BOOL" EmptyString EmptyString;
        mkField "bRunning" "BOOL" EmptyString EmptyString;
        mkField "nState" "INT" EmptyString EmptyString].
Proof.
  split; [|repeat split; vm_compute; reflexivity].
  intros text. unfold _extract_variables, var_blocks.
  rewrite !flat_map_app. reflexivity.
Qed.

(** ** C3: the fields of a declaration line *)

(** C3: in a block made of declaration lines, each a name, a colon and a
    type, optionally a default and a comment, with its semicolon, the
    fields are the declarations of the lines, in their order, with the
    empty string for a default or a comment that is absent; the last
    declaration of a block can do without its semicolon.  The first input
    block of a text is what stands between the first open marker and the
    first closing marker behind it, and the fields of every input block
    are returned: so the line [nCount : DINT := 10; // counter] among the
    lines of an input block gives the field with the name [nCount], the
    type [DINT], the default [10] and the comment [counter].  The pattern
    is not bound to a line, though.  On [commented_input] the comment
    before the line has a colon; the type of the match that starts there
    runs over the line break, and the field of the line is not returned.
    A declaration without semicolon that is not the last takes the next
    line into its type, and a declaration without comment takes for its
    own the comment on the next line. *)
Theorem C3_declaration_lines :
  (forall indent ls rest,
      all Char.isspace indent = true ->
      forallb well_formed_line ls = true ->
      starts_line rest = true ->
      block_variables (indent ++ lines_text ls ++ rest)
      = (List.map line_field ls ++ block_variables rest)%list)
  /\ (forall indent ls,
         all Char.isspace indent = true ->
         forallb well_formed_line ls = true ->
         block_variables (indent ++ lines_text ls) = List.map line_field ls)
  /\ (forall indent ls d tail,
         all Char.isspace indent = true ->
         forallb well_formed_line ls = true ->
         well_formed_declaration d = true -> d_comment d = None ->
         all Char.isspace tail = true ->
         block_variables (indent ++ lines_text ls ++ decl_text false d ++ tail)
         = (List.map line_field ls ++ [decl_field d])%list)
  /\ (forall pre body post,
         first_after Char.eqb_nocase pre "VAR_INPUT" = true ->
         first_after Char.eqb_nocase body "END_VAR" = true ->
         findall1 var_input_re
                  (pre ++ "VAR_INPUT" ++ body ++ "END_VAR" ++ post)
         = body :: findall1 var_input_re post
         /\ exists fs,
             _extract_variables
               (pre ++ "VAR_INPUT" ++ body ++ "END_VAR" ++ post) false
             = (block_variables body ++ fs)%list)
  /\ (forall text block f,
         In block (findall1 var_input_re text) ->
         In f (block_variables block) ->
         In f (_extract_variables text false))
  /\ (forall text indent ls rest,
         In (indent ++ lines_text ls ++ rest) (findall1 var_input_re text) ->
         all Char.isspace indent = true ->
         forallb well_formed_line ls = true ->
         starts_line rest = true ->
         In counter_decl (List.map fst ls) ->
         In counter_field (_extract_variables text false))
  /\ (forall pre wsp body post,
         first_after Char.eqb_nocase pre "VAR_INPUT" = true ->
         all Char.isspace wsp = true ->
         exists fs,
           _extract_variables
             (pre ++ "VAR_INPUT" ++ wsp ++ counter_line ++ nl ++ body
                  ++ "END_VAR" ++ post) false
           = counter_field :: fs)
  /\ (decl_text true counter_decl = counter_line
      /\ decl_field counter_decl = counter_field)
  /\ (_extract_variables
        (lines ["VAR_INPUT"; "    nCount : DINT := 10;"; "END_VAR"]) false
      = [mkField "nCount" "DINT" "10" EmptyString]
      /\ _extract_variables
           (lines ["VAR_INPUT"; "    nCount : DINT; // counter"; "END_VAR"])
           false
         = [mkField "nCount" "DINT" EmptyString "counter"]
      /\ _extract_variables
           (lines ["VAR_INPUT"; "    nCount : DINT := 10"; "END_VAR"]) false
         = [mkField "nCount" "DINT" "10" EmptyString]
      /\ _extract_variables
           (lines ["VAR_INPUT"; "    nCount : DINT"; "END_VAR"]) false
         = [mkField "nCount" "DINT" EmptyString EmptyString])
  /\ (findall1 var_input_re commented_input
      = [lines [EmptyString; "    // Inputs: see manual";
                "    " ++ counter_line; EmptyString]]
      /\ _extract_variables commented_input false
         = [mkField "Inputs" (lines ["see manual"; "    nCount"])
                    EmptyString EmptyString]
      /\ ~ In counter_field (_extract_variables commented_input false))
  /\ _extract_variables
       (lines ["VAR_INPUT"; "    bStart : BOOL"; "    " ++ counter_line;
               "END_VAR"]) false
     = [mkField "bStart" (lines ["BOOL"; "    nCount"]) EmptyString
                EmptyString]
  /\ _extract_variables
       (lines ["VAR_INPUT"; "    bStart : BOOL;"; "    // the counter";
               "    " ++ counter_line; "END_VAR"]) false
     = [mkField "bStart" "BOOL" EmptyString "the counter"; counter_field].
Proof.
  assert (L : forall indent ls rest,
             all Char.isspace indent = true ->
             forallb well_formed_line ls = true ->
             starts_line rest = true ->
             block_variables (indent ++ lines_text ls ++ rest)
             = (List.map line_field ls ++ block_variables rest)%list).
  { intros indent ls rest I W R.
    destruct (starts_line_parts rest R) as [S E].
    apply block_of_lines; assumption. }
  assert (B : forall text block f,
             In block (findall1 var_input_re text) ->
             In f (block_variables block) ->
             In f (_extract_variables text false))
    by exact input_block_fields.
  split; [exact L|]. split.
  { intros indent ls I W.
    rewrite <- (append_nil_r (lines_text ls)), (L indent ls EmptyString I W);
      [apply app_nil_r | reflexivity]. }
  split.
  { intros indent ls d tail I W Wd C T.
    rewrite (L indent ls _ I W).
    - rewrite (block_of_last d tail Wd C T). reflexivity.
    - apply decl_starts_line, Wd. }
  split.
  { intros pre body post Hpre Hbody.
    split; [apply first_input_body; assumption
           | apply first_input_fields; assumption]. }
  split; [exact B|]. split.
  { intros text indent ls rest I Hi W R C.
    apply (B text _ counter_field I). rewrite (L indent ls rest Hi W R).
    apply in_or_app. left.
    apply in_map_iff in C as (l & E & C).
    apply in_map_iff. exists l. split; [|exact C].
    unfold line_field. rewrite E. reflexivity. }
  split.
  { intros pre wsp body post Hpre Hws.
    destruct (first_input_block pre wsp body post Hpre Hws) as (u & bs & F).
    destruct (block_with_counter_line wsp u Hws) as (fs & Bc).
    unfold _extract_variables, var_blocks. rewrite F.
    cbn [app flat_map]. rewrite Bc. eexists. reflexivity. }
  split; [split; reflexivity|].
  split; [repeat split; vm_compute; reflexivity|].
  assert (E : _extract_variables commented_input false
              = [mkField "Inputs" (lines ["see manual"; "    nCount"])
                         EmptyString EmptyString])
    by (vm_compute; reflexivity).
  split.
  { split; [vm_compute; reflexivity|]. split; [exact E|].
    rewrite E. intros [H|[]]. discriminate H. }
  split; vm_compute; reflexivity.
Qed.

(** C3 on a function block in which the line follows another
    declaration. *)
Lemma C3_declaration_lines_witness :
  In counter_field
     (_extract_variables
        (lines ["FUNCTION_BLOCK FB_Valve"; "VAR_INPUT";
                "    bStart : BOOL;"; "    " ++ counter_line; "END_VAR";
                "VAR"; "    nState : INT;"; "END_VAR"]) false).
Proof.
  apply (proj1 (proj2 (proj2 (proj2 (proj2 (proj2 C3_declaration_lines)))))
               _ (nl ++ "    ")
               [(mkDeclaration "bStart" "BOOL" None None, "    ");
                (counter_decl, EmptyString)]
               EmptyString).
  - vm_compute. left. reflexivity.
  - reflexivity.
  - reflexivity.
  - reflexivity.
  - right. left. reflexivity.
Defined.

(** ** C4: block comments *)

(** C4: when the pattern for block comments finds one, the description
    is the stripped text of the first, whatever the line comments set
    before.  In particular the description is the text long form for
    every text in which the block comment [long_form] comes before any
    other opening of a block comment; more generally, when the first
    opening of a block comment in the text is closed by the first
    closing after it, the description is what stands between the two,
    stripped.  On the text made of the line comment with
    [Description: short] and of [long_form] the first pass had set the
    description to short. *)
Theorem C4_block_comment_wins :
  (forall text b bs,
      findall1 comment_block_re text = b :: bs ->
      description (_extract_documentation text) = Str.strip b)
  /\ (forall pre post,
         first_after Ascii.eqb pre comment_open = true ->
         description (_extract_documentation (pre ++ long_form ++ post))
         = "long form")
  /\ (forall pre body post,
         first_after Ascii.eqb pre comment_open = true ->
         first_after Ascii.eqb body comment_close = true ->
         description
           (_extract_documentation
              (pre ++ comment_open ++ body ++ comment_close ++ post))
         = Str.strip body)
  /\ (let text := lines ["// Description: short"; long_form] in
      description (fold_left doc_step (findall1 comment_line_re text)
                             (mkDocInfo EmptyString EmptyString EmptyString
                                        EmptyString []))
      = "short"
      /\ description (_extract_documentation text) = "long form").
Proof.
  assert (G : forall text b bs,
             findall1 comment_block_re text = b :: bs ->
             description (_extract_documentation text) = Str.strip b).
  { intros text b bs H. unfold _extract_documentation. rewrite H.
    reflexivity. }
  split; [exact G|]. split; [|split; [|split; vm_compute; reflexivity]].
  2:{ intros pre body post Hpre Hbody.
      destruct (first_comment_block pre body post Hpre Hbody) as [bs F].
      rewrite (G _ _ _ F). apply strip_idem. }
  intros pre post H.
  assert (F : exists bs,
             findall1 comment_block_re (pre ++ long_form ++ post)
             = "long form" :: bs).
  { unfold findall1, finditer.
    destruct comment_block_re_word as [r R].
    assert (D : dead comment_block_re pre (long_form ++ post)).
    { rewrite R.
      change (long_form ++ post)
        with (comment_open ++ (" long form " ++ comment_close ++ post)).
      apply dead_before_first; [discriminate | exact H]. }
    rewrite (scan_dead _ _ _ D).
    rewrite (scan_match comment_block_re long_form post
                        (MObj long_form [(1, "long form")])).
    - eexists. reflexivity.
    - vm_compute. reflexivity.
    - reflexivity.
    - discriminate. }
  destruct F as [bs F]. rewrite (G _ _ _ F). reflexivity.
Qed.

(** C4 on a function block with a labelled line comment before the
    block comment. *)
Lemma C4_block_comment_wins_witness :
  description
    (_extract_documentation
       (lines ["// Purpose: drives the motor"; "FUNCTION_BLOCK FB_Motor";
               EmptyString]
        ++ long_form ++ lines [EmptyString; "VAR"; "END_VAR"]))
  = "long form".
Proof.
  apply (proj1 (proj2 C4_block_comment_wins)). reflexivity.
Defined.

(** ** C5: labelled line comments *)

(** C5: each comment line is tested for the four labels, and lines that
    differ in case only bear the same labels; a line bears at most one;
    the field of the label is set to the stripped remainder after the
    first colon, the other fields are left; after the loop the field
    holds the value of the last line that bears its label.  A line that
    bears a label has a colon, so that the remainder is there.  In the
    record that [_extract_documentation] returns, the author, the version
    and the date are the values of the last comment lines that bear
    their labels, and so is the description when the text has no block
    comment; the field of a label that no line bears is empty.  In a text
    made of line comments that are not empty, each on its line, the
    comment lines are the comments, and the field of a label is the value
    of the last comment that bears it.  In particular the author is Jane
    Doe when the comment lines have [Author: Jane Doe] and no line with
    that label after it, as in every text where the line comment [jane]
    comes first of all line comments, ends its line, and no later comment
    line bears the label.  The white space that the pattern skips behind
    the two slashes runs over line breaks, though: after an empty line
    comment the comment line is the whole next line, slashes included,
    and on the text made of an empty line comment and of [jane] the
    author is empty. *)
Theorem C5_labels :
  (forall l line line',
      Str.lower line = Str.lower line' ->
      has_label l line = has_label l line')
  /\ (forall l1 l2 line,
         has_label l1 line = true -> has_label l2 line = true -> l1 = l2)
  /\ (forall l d line,
         field l (doc_step d line)
         = if has_label l line then label_value line else field l d)
  /\ (forall l before line after d,
         has_label l line = true ->
         forallb (fun x => negb (has_label l x)) after = true ->
         field l (fold_left doc_step (before ++ line :: after) d)
         = label_value line)
  /\ (forall l line,
         has_label l line = true ->
         exists x y,
           Str.split1 ":" line = [x; y] /\ line = x ++ String ":" y
           /\ has_char ":" x = false /\ label_value line = Str.strip y)
  /\ (forall text before after,
         findall1 comment_line_re text
         = (before ++ "Author: Jane Doe" :: after)%list ->
         forallb (fun x => negb (has_label Author x)) after = true ->
         author (_extract_documentation text) = "Jane Doe")
  /\ (forall pre post,
         first_after Ascii.eqb pre "//" = true ->
         forallb (fun x => negb (has_label Author x))
                 (findall1 comment_line_re post) = true ->
         author (_extract_documentation (pre ++ jane ++ nl ++ post))
         = "Jane Doe")
  /\ (forall pre sp lbl value post,
         first_after Ascii.eqb pre "//" = true ->
         all Char.isspace sp = true ->
         Str.lower lbl = "author:" ->
         all Char.notnl value = true ->
         forallb (fun x => negb (has_label Author x))
                 (findall1 comment_line_re post) = true ->
         author
           (_extract_documentation
              (pre ++ "//" ++ sp ++ lbl ++ value ++ nl ++ post))
         = Str.strip value)
  /\ has_label Author "AUTHOR:   Jane Doe  " = true
  /\ label_value "AUTHOR:   Jane Doe  " = "Jane Doe"
  /\ label_value "Purpose: ratio 1:2" = "ratio 1:2"
  /\ (forall l text before line after,
         findall1 comment_line_re text = (before ++ line :: after)%list ->
         has_label l line = true ->
         forallb (fun x => negb (has_label l x)) after = true ->
         (l = Description -> findall1 comment_block_re text = []) ->
         field l (_extract_documentation text) = label_value line)
  /\ (forall l text,
         forallb (fun x => negb (has_label l x))
                 (findall1 comment_line_re text) = true ->
         (l = Description -> findall1 comment_block_re text = []) ->
         field l (_extract_documentation text) = EmptyString)
  /\ (forall cs post,
         forallb well_formed_comment cs = true ->
         occurs Ascii.eqb "//" post = false ->
         findall1 comment_line_re (comments_text cs ++ post)
         = List.map c_line cs)
  /\ (forall l cs1 c cs2 post,
         forallb well_formed_comment (cs1 ++ c :: cs2) = true ->
         occurs Ascii.eqb "//" post = false ->
         has_label l (c_line c) = true ->
         forallb (fun x => negb (has_label l (c_line x))) cs2 = true ->
         (l = Description ->
          occurs Ascii.eqb comment_open
                 (comments_text (cs1 ++ c :: cs2) ++ post) = false) ->
         field l (_extract_documentation
                    (comments_text (cs1 ++ c :: cs2) ++ post))
         = label_value (c_line c))
  /\ findall1 comment_line_re (lines ["//"; jane]) = [jane]
  /\ has_label Author jane = false
  /\ author (_extract_documentation (lines ["//"; jane])) = EmptyString.
Proof.
  split; [intros l line line' E; unfold has_label; rewrite E; reflexivity|].
  split; [exact label_unique|].
  split; [exact doc_step_field|].
  split; [intros l before line after; apply fold_doc_step_last|].
  split; [exact label_value_defined|].
  assert (G : forall text before after,
             findall1 comment_line_re text
             = (before ++ "Author: Jane Doe" :: after)%list ->
             forallb (fun x => negb (has_label Author x)) after = true ->
             author (_extract_documentation text) = "Jane Doe").
  { intros text before after E N. rewrite author_first_pass, E.
    apply (fold_doc_step_last Author before after "Author: Jane Doe");
      [reflexivity | exact N]. }
  split; [exact G|].
  split; [|split].
  2:{ intros pre sp lbl value post Hpre Hsp Hl Hv N.
      destruct (author_line lbl value Hl) as (L & V & Nl & a & t & -> & Ha).
      rewrite <- (append_assoc (String a t) value).
      rewrite author_first_pass, first_comment_line;
        [| exact Hpre | exact Hsp | rewrite all_app, Nl, Hv; reflexivity
         | exists a, (t ++ value); auto].
      rewrite <- V.
      apply (fold_doc_step_last Author [] (findall1 comment_line_re post));
        [exact L | exact N]. }
  2:{ split; [vm_compute; reflexivity|].
      split; [vm_compute; reflexivity|].
      split; [vm_compute; reflexivity|].
      split; [intros l text before line after;
              apply field_of_last_line|].
      split; [exact field_without_line|].
      split; [exact comment_lines_of|].
      split; [intros l cs1 c cs2 post; apply field_of_last_comment|].
      repeat split; vm_compute; reflexivity. }
  intros pre post H N.
  apply (G _ [] (findall1 comment_line_re post)); [|exact N].
  unfold findall1, finditer.
  destruct comment_line_re_word as [r R].
  assert (D : dead comment_line_re pre (jane ++ nl ++ post)).
  { rewrite R.
    change (jane ++ nl ++ post)
      with ("//" ++ (" Author: Jane Doe" ++ nl ++ post)).
    apply dead_before_first; [discriminate | exact H]. }
  rewrite (scan_dead _ _ _ D).
  rewrite (scan_match comment_line_re jane (nl ++ post)
                      (MObj jane [(1, "Author: Jane Doe")]));
    [| vm_compute; reflexivity | reflexivity | discriminate].
  reflexivity.
Qed.

(** C5 on a function block with three line comments, two of which bear
    the label of the version. *)
Lemma C5_labels_witness :
  version
    (_extract_documentation
       (lines ["FUNCTION_BLOCK FB_Motor"; jane; "// Version: 1.2";
               "  // version:  1.3 "; "VAR"; "END_VAR"]))
  = "1.3".
Proof.
  apply (proj1 (proj2 (proj2 (proj2 (proj2 (proj2 (proj2 (proj2 (proj2 (proj2
           (proj2 (proj2 (proj2 (proj2 (proj2 C5_labels))))))))))))))
           Version
           [mkComment (lines ["FUNCTION_BLOCK FB_Motor"; EmptyString])
                      " " "Author: Jane Doe";
            mkComment EmptyString " " "Version: 1.2"]
           (mkComment "  " " " "version:  1.3 ") []
           (lines ["VAR"; "END_VAR"])).
  - reflexivity.
  - reflexivity.
  - reflexivity.
  - reflexivity.
  - discriminate.
Defined.

(** ** C6: names that are dropped *)

(** C6: no field of [_extract_variables] has an empty name, nor, in any
    case, one of the four words [VAR], [END_VAR], [VAR_INPUT],
    [VAR_OUTPUT] that the function lists; the open marker [VAR_GLOBAL],
    for which the same function searches, is not among them, and on
    [gvl_declaration] a field of that name is returned. *)
Theorem C6_var_global_kept :
  (forall text is_global f,
      In f (_extract_variables text is_global) ->
      name f <> EmptyString /\ ~ In (Str.upper (name f)) keywords)
  /\ ~ In "VAR_GLOBAL" keywords
  /\ _extract_variables gvl_declaration true
     = [mkField "VAR_GLOBAL" "INT" EmptyString EmptyString;
        mkField "bReady" "BOOL" "TRUE" EmptyString].
Proof.
  split; [exact extracted_variable_name|].
  split; [|vm_compute; reflexivity].
  intros H. repeat (destruct H as [H|H]; [discriminate H|]). exact H.
Qed.

(** C6 on the second field of [gvl_declaration]. *)
Lemma C6_var_global_kept_witness :
  ~ In (Str.upper "bReady") keywords.
Proof.
  apply (proj1 C6_var_global_kept gvl_declaration true
               (mkField "bReady" "BOOL" "TRUE" EmptyString)).
  vm_compute. auto.
Defined.

(** ** C7: the name of a source unit *)

(** C7, as stated, fails: [nameless_pou_file] parses, and the name of
    its record is empty. *)
Lemma C7_empty_name :
  exists info,
    fst (_parse_pou_file nameless_pou_file) = Returns (Some info)
    /\ pou_name info = EmptyString.
Proof. eexists. split; reflexivity. Qed.

(** C7, amended: the record of a file that parses, of any of the three
    kinds, has for name the [Name] attribute of the top-level element
    when the attribute is there, and Unknown when it is absent; the name
    is non-empty unless the attribute is there and empty. *)
Theorem C7_name (file : SourceFile) :
  (forall info, fst (_parse_pou_file file) = Returns (Some info) ->
                named_after "POU" file (pou_name info))
  /\ (forall info, fst (_parse_dut_file file) = Returns (Some info) ->
                   named_after "DUT" file (dut_name info))
  /\ (forall info, fst (_parse_gvl_file file) = Returns (Some info) ->
                   named_after "GVL" file (gvl_name info)).
Proof.
  assert (N : forall el,
             let n := ET.get_default "Name" "Unknown" el in
             n = match ET.get "Name" (ET.attrib el) with
                 | Some v => v
                 | None => "Unknown"
                 end
             /\ (ET.get "Name" (ET.attrib el) <> Some EmptyString
                 -> n <> EmptyString)).
  { intros el. unfold ET.get_default.
    destruct (ET.get "Name" (ET.attrib el)) as [v|].
    - split; [reflexivity|]. intros H ->. apply H; reflexivity.
    - split; [reflexivity|]. discriminate. }
  unfold named_after, _parse_pou_file, _parse_dut_file, _parse_gvl_file.
  repeat split; intros info; destruct (content file) as [root|e|e];
    try discriminate.
  - destruct (ET.find_desc "POU" root) as [el|] eqn:F; [|discriminate].
    cbn [fst]. intros [= <-]. exists root, el. cbn [pou_name].
    repeat split; auto; apply N.
  - destruct (ET.find_desc "DUT" root) as [el|] eqn:F; [|discriminate].
    cbn [fst]. intros [= <-]. exists root, el. cbn [dut_name].
    repeat split; auto; apply N.
  - destruct (ET.find_desc "GVL" root) as [el|] eqn:F; [|discriminate].
    cbn [fst]. intros [= <-]. exists root, el. cbn [gvl_name].
    repeat split; auto; apply N.
Qed.

(** C7 on [anonymous_pou_file], which has no [Name]. *)
Lemma C7_name_witness :
  named_after "POU" anonymous_pou_file "Unknown".
Proof.
  exact (proj1 (C7_name anonymous_pou_file)
               (mkPOUInfo "Unknown" "PROGRAM" "POUs/MAIN.TcPOU" EmptyString
                          EmptyString EmptyString EmptyString [] EmptyString
                          [])
               eq_refl).
Defined.

(** ** C8: files that cannot be parsed *)

(** C8, as stated, fails: the file of [missing_pou_project] lacks its
    top-level element and is skipped, and no error is logged. *)
Lemma C8_missing_element_not_logged :
  let st := _parse_pous missing_pou_project (init missing_pou_project) in
  pous st = [] /\ forall ev, ~ In (ERROR, ev) (log st).
Proof.
  split; [reflexivity|]. intros ev [H|[]]. discriminate H.
Qed.

(** C8, amended: each loop adds to its records and to the log what each
    file contributes on its own, in the order of the files, so that no
    file keeps another from being processed.  A file that is not
    well-formed contributes no record and one error to the log, and so
    does a file on which parsing raises anything else; a file without its
    top-level element contributes no record and nothing to the log. *)
Theorem C8_skip (p : Project) (st : state) :
  (pous (_parse_pous p st)
   = (pous st
      ++ flat_map (fun f => fst (contribution "POU" _parse_pou_file f))
                  (enumerate p (included_files st) ".TcPOU"))%list
   /\ duts (_parse_duts p st)
      = (duts st
         ++ flat_map (fun f => fst (contribution "DUT" _parse_dut_file f))
                     (enumerate p (included_files st) ".TcDUT"))%list
   /\ gvls (_parse_gvls p st)
      = (gvls st
         ++ flat_map (fun f => fst (contribution "GVL" _parse_gvl_file f))
                     (enumerate p (included_files st) ".TcGVL"))%list)
  /\ (log (_parse_pous p st)
      = (log st
         ++ [(INFO, FoundFiles "POU"
                      (List.length (enumerate p (included_files st) ".TcPOU")))]
         ++ flat_map (fun f => snd (contribution "POU" _parse_pou_file f))
                     (enumerate p (included_files st) ".TcPOU"))%list
      /\ log (_parse_duts p st)
         = (log st
            ++ [(INFO, FoundFiles "DUT"
                         (List.length (enumerate p (included_files st) ".TcDUT")))]
            ++ flat_map (fun f => snd (contribution "DUT" _parse_dut_file f))
                        (enumerate p (included_files st) ".TcDUT"))%list
      /\ log (_parse_gvls p st)
         = (log st
            ++ [(INFO, FoundFiles "GVL"
                         (List.length (enumerate p (included_files st) ".TcGVL")))]
            ++ flat_map (fun f => snd (contribution "GVL" _parse_gvl_file f))
                        (enumerate p (included_files st) ".TcGVL"))%list)
  /\ (forall file e,
         content file = ET.ParseError e ->
         let err := [(ERROR, XmlParseError (rel_path file) e)] in
         contribution "POU" _parse_pou_file file = ([], err)
         /\ contribution "DUT" _parse_dut_file file = ([], err)
         /\ contribution "GVL" _parse_gvl_file file = ([], err))
  /\ (forall file e,
         content file = ET.OtherError e ->
         contribution "POU" _parse_pou_file file
         = ([], [(ERROR, ErrorParsingFile "POU" (rel_path file) e)])
         /\ contribution "DUT" _parse_dut_file file
            = ([], [(ERROR, ErrorParsingFile "DUT" (rel_path file) e)])
         /\ contribution "GVL" _parse_gvl_file file
            = ([], [(ERROR, ErrorParsingFile "GVL" (rel_path file) e)]))
  /\ (forall file root,
         content file = ET.Tree root ->
         (ET.find_desc "POU" root = None ->
          contribution "POU" _parse_pou_file file = ([], []))
         /\ (ET.find_desc "DUT" root = None ->
             contribution "DUT" _parse_dut_file file = ([], []))
         /\ (ET.find_desc "GVL" root = None ->
             contribution "GVL" _parse_gvl_file file = ([], []))).
Proof.
  split; [|split; [|split; [|split]]].
  - unfold _parse_pous, _parse_duts, _parse_gvls.
    rewrite !loop_contributions. cbn [fst snd pous duts gvls].
    repeat split.
  - unfold _parse_pous, _parse_duts, _parse_gvls.
    rewrite !loop_contributions. cbn [fst snd log].
    rewrite <- !app_assoc. repeat split.
  - intros file e H err.
    unfold contribution, try_file, _parse_pou_file, _parse_dut_file,
      _parse_gvl_file. rewrite H. repeat split.
  - intros file e H.
    unfold contribution, try_file, _parse_pou_file, _parse_dut_file,
      _parse_gvl_file. rewrite H. repeat split.
  - intros file root H.
    unfold contribution, try_file, _parse_pou_file, _parse_dut_file,
      _parse_gvl_file. rewrite H. repeat split; intros ->; reflexivity.
Qed.

(** C8 on [mixed_project]: of its four files the last alone gives a
    record. *)
Lemma C8_skip_witness :
  (contribution "POU" _parse_pou_file broken_file
   = ([], [(ERROR, XmlParseError "POUs/Broken.TcPOU" "mismatched tag")]))
  /\ (contribution "POU" _parse_pou_file unreadable_file
      = ([], [(ERROR, ErrorParsingFile "POU" "POUs/Locked.TcPOU"
                                       "Permission denied")]))
  /\ (contribution "POU" _parse_pou_file empty_file = ([], []))
  /\ List.map pou_name (pous (_parse_pous mixed_project (init mixed_project)))
     = ["MAIN"].
Proof.
  pose proof (C8_skip mixed_project (init mixed_project))
    as (Hr & _ & Hp & Ho & Ht).
  split; [|split; [|split]].
  - exact (proj1 (Hp broken_file _ eq_refl)).
  - exact (proj1 (Ho unreadable_file _ eq_refl)).
  - exact (proj1 (Ht empty_file _ eq_refl) eq_refl).
  - rewrite (proj1 Hr). reflexivity.
Defined.

(** ** C9 and C10: the members of a structure *)

(** C9: on [struct_xy], and on every text in which [struct_xy] comes
    before any other occurrence of the word [STRUCT],
    [_extract_struct_members] returns the two fields [x] of type [INT]
    and [y] of type [BOOL], in this order, with empty default and
    comment.  The pattern for declarations is applied to the content of
    the structure block and to nothing else: the result is made of the
    matches of the pattern in group 1 of what [re.search] finds, which
    for a text whose first [STRUCT] is closed by the first [END_STRUCT]
    after it is what stands between the two, less the white space in
    front.  When the text has no structure block, as when the word
    [STRUCT] does not occur in it, the result is empty. *)
Theorem C9_struct_members :
  _extract_struct_members struct_xy
  = [mkField "x" "INT" EmptyString EmptyString;
     mkField "y" "BOOL" EmptyString EmptyString]
  /\ (forall pre post,
         first_after Char.eqb_nocase pre "STRUCT" = true ->
         _extract_struct_members (pre ++ struct_xy ++ post)
         = [mkField "x" "INT" EmptyString EmptyString;
            mkField "y" "BOOL" EmptyString EmptyString])
  /\ (forall text m,
         search struct_re text = Some m ->
         exists content,
           group m 1 = Some content
           /\ _extract_struct_members text
              = filter keep_member
                       (List.map field_of_match
                                 (finditer var_pattern content)))
  /\ (forall pre body rest,
         first_after Char.eqb_nocase pre "STRUCT" = true ->
         first_after Char.eqb_nocase body "END_STRUCT" = true ->
         _extract_struct_members
           (pre ++ "STRUCT" ++ body ++ "END_STRUCT" ++ rest)
         = filter keep_member
                  (List.map field_of_match
                            (finditer var_pattern (Str.lstrip body))))
  /\ (forall text,
         search struct_re text = None -> _extract_struct_members text = [])
  /\ (forall text,
         occurs Char.eqb_nocase "STRUCT" text = false ->
         _extract_struct_members text = [])
  /\ _extract_struct_members enum_declaration = [].
Proof.
  split; [vm_compute; reflexivity|].
  split.
  { intros pre post H.
    change (pre ++ struct_xy ++ post)
      with (pre ++ "STRUCT" ++ " x: INT; y: BOOL; " ++ "END_STRUCT" ++ post).
    rewrite first_struct_members; [| exact H | reflexivity].
    vm_compute. reflexivity. }
  split.
  { intros text m H. unfold _extract_struct_members. rewrite H.
    assert (G : exists g, m_groups m = [(1, g)]).
    { clear -H. induction text as [|a text IH]; cbn [search] in H.
      - destruct (match_at struct_re EmptyString) eqn:E; [|discriminate].
        injection H as ->. eapply struct_match_group, E.
      - destruct (match_at struct_re (String a text)) eqn:E.
        + injection H as ->. eapply struct_match_group, E.
        + auto. }
    destruct G as [g G]. exists g. unfold group. rewrite G.
    split; reflexivity. }
  split; [exact first_struct_members|].
  split.
  { intros text H. unfold _extract_struct_members. rewrite H. reflexivity. }
  split.
  { intros text H. unfold _extract_struct_members.
    destruct struct_re_word as [r R]. rewrite R.
    rewrite (search_absent _ _ _ _ H). reflexivity. }
  vm_compute. reflexivity.
Qed.

(** C9 on a structure type and on an alias type. *)
Lemma C9_struct_members_witness :
  _extract_struct_members
    (lines ["TYPE ST_Point :"; EmptyString] ++ struct_xy
     ++ lines [EmptyString; "END_TYPE"])
  = [mkField "x" "INT" EmptyString EmptyString;
     mkField "y" "BOOL" EmptyString EmptyString]
  /\ _extract_struct_members "TYPE T_Axis : INT; END_TYPE" = [].
Proof.
  destruct C9_struct_members as (_ & H & _ & _ & N & _). split.
  - apply H. reflexivity.
  - apply N. reflexivity.
Defined.

(** C10: when the text has two structure blocks or more, the members
    returned are those of the first block.  The result is a function of
    the content of that block alone: for a text whose first [STRUCT] is
    closed by the first [END_STRUCT] after it, the members are those of
    what stands between the two, whatever follows, later blocks
    included.  [two_structs] is an instance. *)
Theorem C10_first_struct_only :
  (forall text b1 b2 bs,
      findall1 struct_re text = b1 :: b2 :: bs ->
      _extract_struct_members text = struct_members b1)
  /\ (forall pre body rest,
         first_after Char.eqb_nocase pre "STRUCT" = true ->
         first_after Char.eqb_nocase body "END_STRUCT" = true ->
         _extract_struct_members
           (pre ++ "STRUCT" ++ body ++ "END_STRUCT" ++ rest)
         = struct_members (Str.lstrip body))
  /\ findall1 struct_re two_structs = ["a: INT; "; "b: BOOL; "]
  /\ _extract_struct_members two_structs
     = [mkField "a" "INT" EmptyString EmptyString].
Proof.
  split; [|split; [exact first_struct_members|]];
    [|split; vm_compute; reflexivity].
  intros text b1 b2 bs H. eapply struct_members_first, H.
Qed.

(** C10 on [two_structs] and on a type with two structure blocks. *)
Lemma C10_first_struct_only_witness :
  _extract_struct_members two_structs = struct_members "a: INT; "
  /\ _extract_struct_members
       (lines ["TYPE ST_Axis :"; EmptyString] ++ "STRUCT"
        ++ lines [EmptyString; "    nPos : DINT;"; EmptyString]
        ++ "END_STRUCT"
        ++ lines [EmptyString; "STRUCT"; "    bHidden : BOOL;";
                  "END_STRUCT"; "END_TYPE"])
     = struct_members (lines ["nPos : DINT;"; EmptyString]).
Proof.
  split.
  - apply (proj1 C10_first_struct_only two_structs "a: INT; " "b: BOOL; " []).
    vm_compute. reflexivity.
  - apply (proj1 (proj2 C10_first_struct_only)); reflexivity.
Defined.

(** * Further statements about the code *)

Import WikiGenerator Shape Samples.
Import LanguageFacts FieldFacts BlockFacts DocFacts OrderFacts RecordFacts
       WikiFacts CaseFacts.

(** ** The manifest reader *)

(** X1: the list of included files that [_get_project_included_files]
    returns is strictly increasing in the order of the code points, so
    that it has no duplicate, and its elements are exactly the entries
    that the loop over the manifests collects. *)
Theorem included_files_increasing (p : Project) :
  let included := fst (_get_project_included_files p) in
  increasing included
  /\ NoDup included
  /\ forall x,
       In x included
       <-> exists proj,
             In proj (project_files p)
             /\ In x (fst (manifest_includes proj)).
Proof.
  assert (S : increasing (fst (_get_project_included_files p)))
    by apply sorted_set_increasing.
  split; [exact S|]. split; [apply increasing_NoDup, S|].
  apply included_In.
Qed.

(** X1 on [two_manifests]. *)
Lemma included_files_increasing_witness :
  NoDup (fst (_get_project_included_files two_manifests))
  /\ (In "DUTs/ST_Point.TcDUT" (fst (_get_project_included_files two_manifests))
      <-> exists proj,
            In proj (project_files two_manifests)
            /\ In "DUTs/ST_Point.TcDUT" (fst (manifest_includes proj))).
Proof.
  split.
  - apply (proj1 (proj2 (included_files_increasing two_manifests))).
  - apply (proj2 (proj2 (included_files_increasing two_manifests))).
Defined.

(** X2: every included file is a non-empty path without backslash, which
    normalization leaves as it is. *)
Theorem included_files_normalized (p : Project) :
  Forall (fun x => x <> EmptyString /\ has_char backslash x = false
                   /\ normalize x = x)
         (fst (_get_project_included_files p)).
Proof.
  apply Forall_forall. intros x I.
  apply included_In in I as (proj & _ & I).
  pose proof (manifest_includes_normalized proj) as F.
  rewrite Forall_forall in F. destruct (F x I) as [N B].
  repeat split; [exact N | exact B | apply normalize_fixed, B].
Qed.

(** X3: the included files do not depend on the order in which the
    manifests are found. *)
Theorem included_files_order_independent (p p' : Project) :
  Permutation (project_files p) (project_files p') ->
  fst (_get_project_included_files p)
  = fst (_get_project_included_files p').
Proof.
  intros P. apply increasing_unique; try apply sorted_set_increasing.
  intros x. rewrite !included_In.
  split; intros (proj & I & X); exists proj; (split; [|exact X]).
  - eapply Permutation_in; eassumption.
  - eapply Permutation_in; [apply Permutation_sym|]; eassumption.
Qed.

(** X3 on [two_manifests] and [two_manifests_swapped]. *)
Lemma included_files_order_independent_witness :
  fst (_get_project_included_files two_manifests)
  = fst (_get_project_included_files two_manifests_swapped).
Proof.
  apply (included_files_order_independent two_manifests
                                          two_manifests_swapped).
  apply perm_swap.
Defined.

(** X4: a manifest that cannot be parsed is passed over with one
    warning and keeps no other manifest from being read: the included
    files are those of the manifests that parse, for which nothing is
    logged, and the log has one record for each manifest that does not
    parse, all of them warnings. *)
Theorem manifest_failures (p : Project) :
  let good :=
    mkProject (filter parses (project_files p)) (source_files p) in
  let bad := filter (fun f => negb (parses f)) (project_files p) in
  fst (_get_project_included_files p)
  = fst (_get_project_included_files good)
  /\ snd (_get_project_included_files good) = []
  /\ List.length (snd (_get_project_included_files p)) = List.length bad
  /\ Forall (fun r => fst r = WARNING)
            (snd (_get_project_included_files p)).
Proof.
  cbn zeta. unfold _get_project_included_files.
  cbn [fst snd project_files].
  rewrite <- includes_of_parsing.
  split; [reflexivity|]. apply warnings_of_parsing.
Qed.

(** ** The files of a kind *)

(** X5: no file is enumerated for two of the three kinds. *)
Theorem kinds_disjoint (p : Project) (included : list string)
        (e1 e2 : string) (f : SourceFile) :
  In e1 extensions -> In e2 extensions -> e1 <> e2 ->
  In f (enumerate p included e1) -> ~ In f (enumerate p included e2).
Proof.
  intros I1 I2 N F1 F2.
  apply enumerate_In in F1 as [_ F1]. apply enumerate_In in F2 as [_ F2].
  apply N. exact (extensions_disjoint _ _ _ I1 I2 F1 F2).
Qed.

(** X5 on [three_units]: the function block is not taken for a data
    type. *)
Lemma kinds_disjoint_witness :
  ~ In motor_unit (enumerate three_units [] ".TcDUT").
Proof.
  apply (kinds_disjoint three_units [] ".TcPOU" ".TcDUT" motor_unit).
  - simpl; auto.
  - simpl; auto.
  - discriminate.
  - simpl; auto.
Defined.

(** ** The records of a project *)

(** X6: after [parse_project] on a new parser every record bears the
    path of a file on disk, and when the paths of the files on disk are
    distinct, so are the paths of all the records. *)
Theorem record_paths_distinct (p : Project) :
  let d := fst (parse_project p (init p)) in
  incl (record_paths d) (List.map rel_path (source_files p))
  /\ (NoDup (List.map rel_path (source_files p)) -> NoDup (record_paths d)).
Proof.
  cbn zeta.
  destruct (parse_project_records p (init p)) as ((P & D & G) & _).
  assert (E : pous (init p) = [] /\ duts (init p) = []
              /\ gvls (init p) = []).
  { unfold init. destruct (_get_project_included_files p). repeat split. }
  destruct E as (Ep & Ed & Eg). rewrite Ep in P. rewrite Ed in D.
  rewrite Eg in G. cbn [app] in P, D, G.
  set (inc := included_files (init p)) in *.
  destruct (loop_paths pou_file_path
              (fun f => fst (contribution "POU" _parse_pou_file f))
              (enumerate p inc ".TcPOU") pou_contribution_path) as [qp Qp].
  destruct (loop_paths dut_file_path
              (fun f => fst (contribution "DUT" _parse_dut_file f))
              (enumerate p inc ".TcDUT") dut_contribution_path) as [qd Qd].
  destruct (loop_paths gvl_file_path
              (fun f => fst (contribution "GVL" _parse_gvl_file f))
              (enumerate p inc ".TcGVL") gvl_contribution_path) as [qg Qg].
  unfold record_paths. rewrite P, D, G, Qp, Qd, Qg.
  assert (Src : forall q ext x,
             In x (List.map rel_path (filter q (enumerate p inc ext))) ->
             In x (List.map rel_path (source_files p))
             /\ endswith x ext = true).
  { intros q ext x I. apply in_map_iff in I as (f & <- & I).
    apply filter_In in I as [I _]. apply enumerate_In in I as [I E].
    split; [apply in_map, I | exact E]. }
  assert (Dis : forall q q' e1 e2 x,
             In e1 extensions -> In e2 extensions -> e1 <> e2 ->
             In x (List.map rel_path (filter q (enumerate p inc e1))) ->
             ~ In x (List.map rel_path (filter q' (enumerate p inc e2)))).
  { intros q q' e1 e2 x I1 I2 N X1 X2.
    apply Src in X1 as [_ X1]. apply Src in X2 as [_ X2].
    apply N. exact (extensions_disjoint _ _ _ I1 I2 X1 X2). }
  split.
  - intros x I. apply in_app_or in I as [I|I];
      [|apply in_app_or in I as [I|I]]; apply Src in I; apply I.
  - intros N. apply NoDup_app; [| apply NoDup_app |].
    + apply NoDup_map_filter, enumerate_NoDup, N.
    + apply NoDup_map_filter, enumerate_NoDup, N.
    + apply NoDup_map_filter, enumerate_NoDup, N.
    + intros x. apply Dis; [simpl; auto | simpl; auto | discriminate].
    + intros x X I. apply in_app_or in I as [I|I]; revert I.
      * apply (Dis qp qd ".TcPOU" ".TcDUT");
          [simpl; auto | simpl; auto | discriminate | exact X].
      * apply (Dis qp qg ".TcPOU" ".TcGVL");
          [simpl; auto | simpl; auto | discriminate | exact X].
Qed.

(** X6 on [three_units]. *)
Lemma record_paths_distinct_witness :
  NoDup (record_paths (fst (parse_project three_units (init three_units)))).
Proof.
  apply (proj2 (record_paths_distinct three_units)).
  repeat constructor; simpl; intuition discriminate.
Defined.

(** X7: when the manifests list files, every record of a project parsed
    by a new parser comes from a file that is listed: the path of the
    record, with its separators normalized, is one of the included
    files. *)
Theorem records_are_listed (p : Project) :
  let st := init p in
  let d := fst (parse_project p st) in
  included_files st <> [] ->
  Forall (fun path => In (normalize path) (included_files st))
         (record_paths d).
Proof.
  cbn zeta. intros N.
  destruct (parse_project_records p (init p)) as ((P & D & G) & _).
  assert (E : pous (init p) = [] /\ duts (init p) = []
              /\ gvls (init p) = []).
  { unfold init. destruct (_get_project_included_files p). repeat split. }
  destruct E as (Ep & Ed & Eg). rewrite Ep in P. rewrite Ed in D.
  rewrite Eg in G. cbn [app] in P, D, G.
  set (inc := included_files (init p)) in *.
  destruct (loop_paths pou_file_path
              (fun f => fst (contribution "POU" _parse_pou_file f))
              (enumerate p inc ".TcPOU") pou_contribution_path) as [qp Qp].
  destruct (loop_paths dut_file_path
              (fun f => fst (contribution "DUT" _parse_dut_file f))
              (enumerate p inc ".TcDUT") dut_contribution_path) as [qd Qd].
  destruct (loop_paths gvl_file_path
              (fun f => fst (contribution "GVL" _parse_gvl_file f))
              (enumerate p inc ".TcGVL") gvl_contribution_path) as [qg Qg].
  unfold record_paths. rewrite P, D, G, Qp, Qd, Qg.
  assert (L : forall q ext,
             Forall (fun path => In (normalize path) inc)
                    (List.map rel_path (filter q (enumerate p inc ext)))).
  { intros q ext. apply Forall_map, Forall_forall. intros f I.
    apply filter_In in I as [I _]. revert I. apply enumerate_included, N. }
  repeat (apply Forall_app; split); apply L.
Qed.

(** X7 on [two_manifests], which lists two of its three files. *)
Lemma records_are_listed_witness :
  Forall (fun path =>
            In (normalize path) (included_files (init two_manifests)))
         (record_paths (fst (parse_project two_manifests
                                           (init two_manifests)))).
Proof.
  apply (records_are_listed two_manifests). vm_compute. discriminate.
Defined.

(** X8: every record of a project parsed by a new parser is well formed.
    The description, the author, the version and the date are stripped,
    and so is the implementation of a program unit; the type of a data
    type is [STRUCT] or [ENUM]; the variables and the members are well
    formed fields; no comment holds a line feed. *)
Theorem records_well_formed (p : Project) :
  let d := fst (parse_project p (init p)) in
  Forall pou_well_formed (doc_pous d)
  /\ Forall dut_well_formed (doc_duts d)
  /\ Forall gvl_well_formed (doc_gvls d).
Proof.
  cbn zeta.
  destruct (parse_project_records p (init p)) as ((P & D & G) & _).
  assert (E : pous (init p) = [] /\ duts (init p) = []
              /\ gvls (init p) = []).
  { unfold init. destruct (_get_project_included_files p). repeat split. }
  destruct E as (Ep & Ed & Eg). rewrite Ep in P. rewrite Ed in D.
  rewrite Eg in G. cbn [app] in P, D, G. rewrite P, D, G.
  split; [|split]; apply Forall_flat_map_intro.
  - apply pou_contribution_well_formed.
  - apply dut_contribution_well_formed.
  - apply gvl_contribution_well_formed.
Qed.

(** X9: the parser never empties its lists: after a second call of
    [parse_project] on the same parser its lists hold twice every record
    that they held after the first call; the document returned holds
    these lists, and counts every record twice. *)
Theorem parse_project_twice (p : Project) :
  let st1 := snd (parse_project p (init p)) in
  let d2 := fst (parse_project p st1) in
  let st2 := snd (parse_project p st1) in
  (pous st2 = (pous st1 ++ pous st1)%list
   /\ duts st2 = (duts st1 ++ duts st1)%list
   /\ gvls st2 = (gvls st1 ++ gvls st1)%list)
  /\ (doc_pous d2 = pous st2 /\ doc_duts d2 = duts st2
      /\ doc_gvls d2 = gvls st2)
  /\ (pou_count (project_info d2) = 2 * List.length (pous st1)
      /\ dut_count (project_info d2) = 2 * List.length (duts st1)
      /\ gvl_count (project_info d2) = 2 * List.length (gvls st1)).
Proof.
  cbn zeta.
  destruct (parse_project_records p (init p))
    as ((P & D & G) & (Sp & Sd & Sg & Si) & _).
  destruct (parse_project_records p (snd (parse_project p (init p))))
    as ((P' & D' & G') & (Sp' & Sd' & Sg' & _) & (Cp' & Cd' & Cg')).
  assert (E : pous (init p) = [] /\ duts (init p) = []
              /\ gvls (init p) = []).
  { unfold init. destruct (_get_project_included_files p). repeat split. }
  destruct E as (Ep & Ed & Eg). rewrite Ep in P. rewrite Ed in D.
  rewrite Eg in G. cbn [app] in P, D, G.
  rewrite Si, <- P, <- Sp in P'. rewrite Si, <- D, <- Sd in D'.
  rewrite Si, <- G, <- Sg in G'.
  rewrite Cp', Cd', Cg', Sp', Sd', Sg', P', D', G', !length_app.
  repeat split; lia.
Qed.

(** X10: the three counts in the project information that [parse_project]
    returns are the lengths of the three lists it returns with them,
    whatever the parser held before. *)
Theorem project_info_counts (p : Project) (st : state) :
  let d := fst (parse_project p st) in
  pou_count (project_info d) = List.length (doc_pous d)
  /\ dut_count (project_info d) = List.length (doc_duts d)
  /\ gvl_count (project_info d) = List.length (doc_gvls d).
Proof. apply parse_project_records. Qed.

(** X11: the name in the project information is never empty: it is the
    name by default, or the text of the first [Name] element below the
    root of the first manifest. *)
Theorem project_name_never_empty (p : Project) (st : state) :
  let info := fst (_get_project_info p st) in
  info_name info <> EmptyString
  /\ (info_name info = "Demo TwinCAT Project"
      \/ exists proj rest root el,
           project_files p = proj :: rest
           /\ content proj = ET.Tree root
           /\ ET.find_desc "Name" root = Some el
           /\ ET.text el = Some (info_name info)).
Proof.
  cbn zeta. unfold _get_project_info.
  destruct (project_files p) as [|proj rest] eqn:F;
    [split; [discriminate | left; reflexivity]|].
  destruct (content proj) as [root|e|e] eqn:C;
    [|split; [discriminate | left; reflexivity]..].
  destruct (ET.find_desc "Name" root) as [el|] eqn:N;
    [|split; [discriminate | left; reflexivity]].
  destruct (ET.text el) as [t|] eqn:T;
    [|split; [discriminate | left; reflexivity]].
  destruct t as [|a t]; cbn [Str.nonempty fst info_name];
    [split; [discriminate | left; reflexivity]|].
  split; [discriminate|]. right. exists proj, rest, root, el. auto.
Qed.

(** ** The parsers of one file *)

(** X12: the type of a program unit is its [SpecialFunc] attribute, and
    [PROGRAM] when it has none: the declaration plays no part.  A unit
    without the attribute is therefore on neither list of the interface
    page, whatever it declares. *)
Theorem unit_type_from_attribute (file : SourceFile) (info : POUInfo) :
  fst (_parse_pou_file file) = Returns (Some info) ->
  exists root el,
    content file = ET.Tree root
    /\ ET.find_desc "POU" root = Some el
    /\ pou_type info = ET.get_default "SpecialFunc" "PROGRAM" el
    /\ (ET.get "SpecialFunc" (ET.attrib el) = None ->
        pou_type info = "PROGRAM"
        /\ forall d, ~ In info (api_function_blocks d)
                     /\ ~ In info (api_functions d)).
Proof.
  unfold _parse_pou_file.
  destruct (content file) as [root|e|e]; try discriminate.
  destruct (ET.find_desc "POU" root) as [el|] eqn:F; [|discriminate].
  cbn [fst]. intros [= <-]. exists root, el. cbn [pou_type].
  repeat split; auto.
  - unfold ET.get_default. rewrite H. reflexivity.
  - unfold api_function_blocks. intros I. apply filter_In in I as [_ I].
    cbn [pou_type] in I. unfold ET.get_default in I. rewrite H in I.
    discriminate I.
  - unfold api_functions. intros I. apply filter_In in I as [_ I].
    cbn [pou_type] in I. unfold ET.get_default in I. rewrite H in I.
    discriminate I.
Qed.

(** X12 on [motor_unit], which declares a function block. *)
Lemma unit_type_from_attribute_witness :
  exists root el,
    content motor_unit = ET.Tree root
    /\ ET.find_desc "POU" root = Some el
    /\ "PROGRAM" = ET.get_default "SpecialFunc" "PROGRAM" el
    /\ (ET.get "SpecialFunc" (ET.attrib el) = None ->
        "PROGRAM" = "PROGRAM"
        /\ forall d,
             ~ In (mkPOUInfo "FB_Motor" "PROGRAM" "POUs/FB_Motor.TcPOU"
                             EmptyString EmptyString EmptyString EmptyString
                             [mkField "bStart" "BOOL" EmptyString EmptyString]
                             EmptyString [])
                  (api_function_blocks d)
             /\ ~ In (mkPOUInfo "FB_Motor" "PROGRAM" "POUs/FB_Motor.TcPOU"
                                EmptyString EmptyString EmptyString
                                EmptyString
                                [mkField "bStart" "BOOL" EmptyString
                                         EmptyString]
                                EmptyString [])
                     (api_functions d)).
Proof.
  apply (unit_type_from_attribute
           motor_unit
           (mkPOUInfo "FB_Motor" "PROGRAM" "POUs/FB_Motor.TcPOU"
                      EmptyString EmptyString EmptyString EmptyString
                      [mkField "bStart" "BOOL" EmptyString EmptyString]
                      EmptyString [])).
  vm_compute. reflexivity.
Defined.

(** ** The extraction functions *)

(** X13: every field that [_extract_variables] and
    [_extract_struct_members] return is well formed: its name is not
    empty and is made of word characters; its type has no semicolon, no
    colon and no equals sign; its default has no semicolon; its comment
    has no line feed; and type, default and comment are stripped. *)
Theorem fields_well_formed (text : string) (is_global : bool) :
  Forall well_formed (_extract_variables text is_global)
  /\ Forall well_formed (_extract_struct_members text).
Proof.
  split.
  - unfold _extract_variables. apply Forall_flat_map_intro.
    apply block_variables_well_formed.
  - unfold _extract_struct_members.
    destruct (search struct_re text) as [m|]; [|constructor].
    destruct (group m 1); [|constructor].
    apply struct_members_well_formed.
Qed.

(** X14: the test of the name in [_extract_struct_members] rejects
    nothing, since no match of the pattern for declarations has an empty
    name; so the members of a text are the fields of all the matches,
    and the variables of a block are what remains of them when the names
    that are keywords are dropped. *)
Theorem members_keep_keywords (content : string) :
  struct_members content
  = List.map field_of_match (finditer var_pattern content)
  /\ block_variables content
     = filter (fun f => negb (is_keyword f)) (struct_members content).
Proof.
  split; [apply struct_members_all | apply block_variables_members].
Qed.

(** X15: a text in which no [END_VAR] occurs, in any case, has no
    variable in either mode, and a text in which no [END_STRUCT] occurs
    has no member: a block that is not closed is not read. *)
Theorem unclosed_block_empty (text : string) :
  (occurs Char.eqb_nocase "END_VAR" text = false ->
   forall is_global, _extract_variables text is_global = [])
  /\ (occurs Char.eqb_nocase "END_STRUCT" text = false ->
      _extract_struct_members text = []).
Proof.
  split.
  - intros O is_global. unfold _extract_variables.
    rewrite (var_blocks_unclosed text is_global O). reflexivity.
  - intros O. unfold _extract_struct_members.
    rewrite search_finditer.
    assert (E : findall1 struct_re text = [])
      by (apply (findall1_closes Char.eqb_nocase "END_STRUCT");
          [cbn; auto | exact O]).
    unfold findall1 in E. apply map_eq_nil in E. rewrite E. reflexivity.
Qed.

(** X15 on [unclosed_block] and [unclosed_struct]. *)
Lemma unclosed_block_empty_witness :
  _extract_variables unclosed_block false = []
  /\ _extract_struct_members unclosed_struct = [].
Proof.
  split.
  - apply (proj1 (unclosed_block_empty unclosed_block)). reflexivity.
  - apply (proj2 (unclosed_block_empty unclosed_struct)). reflexivity.
Defined.

(** X16: a block ends at the first closing marker after its open
    marker: no block that [_extract_variables] reads holds an occurrence
    of [END_VAR], in any case, and the content of the structure of which
    [_extract_struct_members] reads the members holds no occurrence of
    [END_STRUCT]; without structure block there is no member. *)
Theorem blocks_end_at_first_marker (text : string) (is_global : bool) :
  Forall (fun block => occurs Char.eqb_nocase "END_VAR" block = false)
         (var_blocks text is_global)
  /\ match search struct_re text with
     | Some struct_match =>
         exists content,
           group struct_match 1 = Some content
           /\ occurs Char.eqb_nocase "END_STRUCT" content = false
           /\ _extract_struct_members text = struct_members content
     | None => _extract_struct_members text = []
     end.
Proof.
  split; [apply var_blocks_closed|].
  unfold _extract_struct_members.
  destruct (search struct_re text) as [m|] eqn:S; [|reflexivity].
  destruct (struct_content_closed text m S) as (u & G & O).
  exists u. unfold group. rewrite G. auto.
Qed.

(** X17: on the texts of this development, those of the code points
    U+0000..U+00FF, where [lower] gives one character of that range for
    each character, the extraction functions pay no regard to the case
    of the letters: what they return for a text in lower case is what
    they return for the text, in lower case.  So the markers of the
    blocks, the keywords that are dropped and the labels of the comments
    are recognized in any case.  Nothing is said of a text with a
    character beyond U+00FF, whose lower case can be longer than the
    character. *)
Theorem extraction_caseless (text : string) :
  (forall is_global,
      _extract_variables (Str.lower text) is_global
      = List.map lower_field (_extract_variables text is_global))
  /\ _extract_struct_members (Str.lower text)
     = List.map lower_field (_extract_struct_members text)
  /\ _extract_documentation (Str.lower text)
     = lower_doc (_extract_documentation text).
Proof.
  split; [|split].
  - intros is_global. unfold _extract_variables.
    rewrite var_blocks_lower. apply flat_map_lower.
  - unfold _extract_struct_members. rewrite search_lower;
      [|apply caseless_patterns; unfold patterns; simpl; auto 10].
    destruct (search struct_re text) as [m|]; [|reflexivity].
    cbn [option_map]. unfold group. cbn [lower_mobj m_groups].
    rewrite lookup_lower. destruct (lookup 1 (m_groups m)); [|reflexivity].
    apply struct_members_lower.
  - apply documentation_lower.
Qed.

(** X18: a text without two slashes in a row has no comment, no author,
    no version and no date; when it has no opening of a block comment
    either, [_extract_documentation] returns the record with every field
    empty. *)
Theorem no_comment_no_documentation (text : string) :
  occurs Ascii.eqb "//" text = false ->
  (comments (_extract_documentation text) = []
   /\ author (_extract_documentation text) = EmptyString
   /\ version (_extract_documentation text) = EmptyString
   /\ date (_extract_documentation text) = EmptyString)
  /\ (occurs Ascii.eqb comment_open text = false ->
      _extract_documentation text = no_documentation).
Proof.
  intros O.
  assert (L : findall1 comment_line_re text = []).
  { destruct comment_line_re_word as [r ->]. apply findall1_opens, O. }
  unfold _extract_documentation. rewrite L. cbn [fold_left].
  split.
  - destruct (findall1 comment_block_re text); repeat split.
  - intros B.
    assert (E : findall1 comment_block_re text = []).
    { destruct comment_block_re_word as [r ->]. apply findall1_opens, B. }
    rewrite E. reflexivity.
Qed.

(** X18 on [plain_declaration]. *)
Lemma no_comment_no_documentation_witness :
  _extract_documentation plain_declaration = no_documentation.
Proof.
  apply (proj2 (no_comment_no_documentation plain_declaration eq_refl)).
  reflexivity.
Defined.

(** X19: in the record of [_extract_documentation] the description, the
    author, the version and the date are stripped; the comments are what
    the pattern for line comments finds, labelled lines included, and
    none of them holds a line feed. *)
Theorem documentation_shape (text : string) :
  (forall l, stripped (field l (_extract_documentation text)))
  /\ comments (_extract_documentation text) = findall1 comment_line_re text
  /\ Forall one_line (comments (_extract_documentation text)).
Proof.
  split; [|split].
  - apply documentation_stripped.
  - apply comments_found.
  - apply documentation_comments.
Qed.

(** ** The generator of the pages *)

(** X20: in the statistics of a project parsed by a new parser the
    structures and the enumerations make up the data types, the
    programs, function blocks and functions are at most the program
    units, and the three totals are the counts of the project
    information. *)
Theorem statistics_of_parsed_project (p : Project) :
  let d := fst (parse_project p (init p)) in
  let s := stats d in
  structs s + enums s = total_duts s
  /\ programs s + function_blocks s + functions s <= total_pous s
  /\ total_pous s = pou_count (project_info d)
  /\ total_duts s = dut_count (project_info d)
  /\ total_gvls s = gvl_count (project_info d).
Proof.
  cbn zeta.
  destruct (parse_project_records p (init p))
    as ((_ & D & _) & _ & (Cp & Cd & Cg)).
  unfold stats.
  cbn [structs enums total_duts programs function_blocks functions
       total_pous total_gvls].
  split; [|split; [apply count_three | auto]].
  apply count_two; [discriminate|]. rewrite D.
  assert (E : duts (init p) = [])
    by (unfold init; destruct (_get_project_included_files p); reflexivity).
  rewrite E. cbn [app]. apply dut_records_type, Forall_flat_map_intro.
  apply dut_contribution_well_formed.
Qed.

(** X21: in the statistics of any document the programs, function blocks
    and functions make up the program units exactly when every program
    unit has one of these three words for type; a unit of another type,
    which it has from its [SpecialFunc] attribute, is counted in the
    total alone. *)
Theorem statistics_breakdown (d : ProjectDocument) :
  let s := stats d in
  programs s + function_blocks s + functions s = total_pous s
  <-> Forall (fun pou => In (pou_type pou) counted_kinds) (doc_pous d).
Proof. apply count_three. Qed.

(** X21 on [three_units]. *)
Lemma statistics_breakdown_witness :
  Forall (fun pou => In (pou_type pou) counted_kinds)
         (doc_pous (fst (parse_project three_units (init three_units)))).
Proof.
  apply (proj1 (statistics_breakdown
                  (fst (parse_project three_units (init three_units))))).
  reflexivity.
Defined.

(** X22: when the names of the program units are distinct, and those of
    the data types, and those of the lists of global variables, the file
    names that the generator has for its pages are distinct strings: the
    name of a detail page is that of no other detail page and of none of
    the seven fixed pages.  Whether a page is written depends on the
    rendering of its template, which is left out. *)
Theorem page_names_distinct (d : ProjectDocument) :
  NoDup (List.map pou_name (doc_pous d)) ->
  NoDup (List.map dut_name (doc_duts d)) ->
  NoDup (List.map gvl_name (doc_gvls d)) ->
  NoDup (page_names d).
Proof.
  intros Np Nd Ng.
  assert (Pp : NoDup (List.map pou_page (doc_pous d))).
  { revert Np. apply NoDup_map_finer. intros x y. apply page_name_inj. }
  assert (Pd : NoDup (List.map dut_page (doc_duts d))).
  { revert Nd. apply NoDup_map_finer. intros x y. apply page_name_inj. }
  assert (Pg : NoDup (List.map gvl_page (doc_gvls d))).
  { revert Ng. apply NoDup_map_finer. intros x y. apply page_name_inj. }
  unfold page_names.
  repeat apply NoDup_app; try assumption.
  - unfold fixed_pages. repeat constructor; simpl; intuition discriminate.
  - intros x I J. apply dut_pages_prefix in I as (n & ->).
    apply gvl_pages_prefix in J as (n' & J). discriminate J.
  - intros x I J. apply pou_pages_prefix in I as (n & ->).
    apply in_app_or in J as [J|J].
    + apply dut_pages_prefix in J as (n' & J). discriminate J.
    + apply gvl_pages_prefix in J as (n' & J). discriminate J.
  - intros x I J.
    apply in_app_or in J as [J|J]; [|apply in_app_or in J as [J|J]].
    + apply pou_pages_prefix in J as (n & ->).
      simpl in I. intuition discriminate.
    + apply dut_pages_prefix in J as (n & ->).
      simpl in I. intuition discriminate.
    + apply gvl_pages_prefix in J as (n & ->).
      simpl in I. intuition discriminate.
Qed.

(** X22 on a project with a function block and a list of global
    variables. *)
Lemma page_names_distinct_witness :
  NoDup (page_names
           (fst (parse_project (mkProject [] [motor_unit; globals_unit])
                               (init (mkProject []
                                                [motor_unit; globals_unit]))))).
Proof.
  apply (page_names_distinct
           (fst (parse_project (mkProject [] [motor_unit; globals_unit])
                               (init (mkProject []
                                                [motor_unit; globals_unit])))));
    vm_compute; repeat constructor; simpl; intuition discriminate.
Defined.
